(** * Webcam record consolidation pipeline: classification, canonical
    countries, geocoding and verification workers

    A shallow embedding of the decision logic of the Python scripts
    [classify_records.py], [merge_webcams.py], [merge_webcamtaxi.py],
    [retry_webcamtaxi_iframes.py], [skyline_geocoder.py],
    [smart_geocoder.py], [reformat_records.py] and [fetch_wct_youtube.py],
    with the properties of the specification, and further properties of
    the scripts, stated and proved over it. *)

From Stdlib Require Import ZArith NArith Ascii String Floats.
From stdpp Require Import base option list gmap strings sorting.

Set Warnings "-inexact-float".

(** ** Python strings

    A Python [str] is a sequence of Unicode code points.  Literals of the
    source that are plain ASCII are written with [py]. *)

Abbreviation pystr := (list N).

Definition py (s : string) : pystr :=
  N_of_ascii <$> list_ascii_of_string s.

(** [p] is a prefix of [s]: [s.startswith(p)]. *)
Fixpoint startswith (s p : pystr) : bool :=
  match p, s with
  | [], _ => true
  | _ :: _, [] => false
  | a :: p', b :: s' => N.eqb a b && startswith s' p'
  end.

(** [needle in hay] on strings: substring test. *)
Fixpoint contains (needle hay : pystr) : bool :=
  startswith hay needle ||
  match hay with
  | [] => false
  | _ :: hay' => contains needle hay'
  end.

(** [str.isspace] of one code point, which is also what [str.split()],
    [str.strip()] and the regular expression class [\s] use. *)
Definition is_space (c : N) : bool :=
  ((9 <=? c) && (c <=? 13) || (28 <=? c) && (c <=? 32) ||
   (c =? 133) || (c =? 160) || (c =? 5760) ||
   (8192 <=? c) && (c <=? 8202) || (c =? 8232) || (c =? 8233) ||
   (c =? 8239) || (c =? 8287) || (c =? 12288))%N.

(** [s.split()]: maximal runs of non-space code points. *)
Fixpoint split_aux (cur s : pystr) : list pystr :=
  match s with
  | [] => match cur with [] => [] | _ => [cur] end
  | c :: s' =>
      if is_space c
      then match cur with [] => split_aux [] s' | _ => cur :: split_aux [] s' end
      else split_aux (cur ++ [c]) s'
  end.

Definition split (s : pystr) : list pystr := split_aux [] s.

(** [s.strip()]. *)
Fixpoint lstrip (s : pystr) : pystr :=
  match s with
  | c :: s' => if is_space c then lstrip s' else s
  | [] => []
  end.

Definition strip (s : pystr) : pystr := reverse (lstrip (reverse (lstrip s))).

(** [s.replace(old, new)] for a non-empty [old] (every call site of the
    scripts passes one): occurrences are replaced left to right without
    overlap.  [skip] counts the code points of an occurrence still to be
    consumed. *)
Fixpoint replace_aux (old new : pystr) (skip : nat) (s : pystr) : pystr :=
  match s with
  | [] => []
  | c :: s' =>
      match skip with
      | S n => replace_aux old new n s'
      | O =>
          if startswith s old
          then new ++ replace_aux old new (pred (length old)) s'
          else c :: replace_aux old new 0 s'
      end
  end.

Definition replace (old new s : pystr) : pystr := replace_aux old new 0 s.

(** [sep.join(parts)]. *)
Fixpoint join (sep : pystr) (parts : list pystr) : pystr :=
  match parts with
  | [] => []
  | [w] => w
  | w :: rest => w ++ sep ++ join sep rest
  end.

(** *** Case mapping on Basic Latin *)

Definition is_ascii (c : N) : bool := (c <? 128)%N.
Definition is_ascii_upper (c : N) : bool := ((65 <=? c) && (c <=? 90))%N.
Definition is_ascii_lower (c : N) : bool := ((97 <=? c) && (c <=? 122))%N.
Definition is_ascii_digit (c : N) : bool := ((48 <=? c) && (c <=? 57))%N.

Definition ascii_lower_char (c : N) : N :=
  if is_ascii_upper c then (c + 32)%N else c.
Definition ascii_upper_char (c : N) : N :=
  if is_ascii_lower c then (c - 32)%N else c.

Definition ascii_lower (s : pystr) : pystr := ascii_lower_char <$> s.

(** [str.title] on Basic Latin: a letter that follows a letter is
    lower-cased, any other letter is upper-cased. *)
Fixpoint ascii_title_aux (prev_cased : bool) (s : pystr) : pystr :=
  match s with
  | [] => []
  | c :: s' =>
      (if prev_cased then ascii_lower_char c else ascii_upper_char c)
        :: ascii_title_aux (is_ascii_upper c || is_ascii_lower c) s'
  end.

Definition ascii_title (s : pystr) : pystr := ascii_title_aux false s.

(** *** The Unicode character database

    [str.lower], [str.title], the class [\w] and case-insensitive matching
    of the [re] module consult CPython's Unicode tables.  They are taken as
    an interface; what the development relies on is their behaviour on
    strings of Basic Latin code points. *)

Class Unicode := {
  (** [s.lower()] *)
  str_lower : pystr → pystr;
  (** [s.title()] *)
  str_title : pystr → pystr;
  (** the class [\w] of a [str] pattern *)
  is_word : N → bool;
  (** [ci_eq p c]: code point [c] of the text matches the literal [p] of a
      pattern compiled with [re.IGNORECASE] *)
  ci_eq : N → N → bool;
  str_lower_ascii : ∀ s, forallb is_ascii s = true → str_lower s = ascii_lower s;
  str_title_ascii : ∀ s, forallb is_ascii s = true → str_title s = ascii_title s
}.

(** The tables restricted to Basic Latin; code points outside it are left
    alone.  This instance agrees with CPython on ASCII text and is used to
    run the definitions on concrete inputs. *)
Definition basic_latin : Unicode := {|
  str_lower := ascii_lower;
  str_title := ascii_title;
  is_word c := is_ascii_upper c || is_ascii_lower c || is_ascii_digit c || (c =? 95)%N;
  ci_eq p c := (ascii_lower_char p =? ascii_lower_char c)%N;
  str_lower_ascii := λ s _, eq_refl;
  str_title_ascii := λ s _, eq_refl
|}.

(** ** Regular expressions

    The fragment of [re] that [classify_record] uses, matched by
    backtracking with a continuation.  [prev] is the code point before the
    current position ([None] at the start of the text). *)

Inductive regex :=
| Eps
| Lit (c : N)
| Cls (f : N → bool)
| Seq (r1 r2 : regex)
| Alt (r1 r2 : regex)
| Plus (r : regex)
| Bol
| Eol
| WordB.

Section Regex.
Context `{Unicode}.

Definition word_at (c : option N) : bool :=
  match c with Some x => is_word x | None => false end.

(** [ic] is the flag [re.IGNORECASE]. *)
Fixpoint rmatch (ic : bool) (r : regex) (prev : option N) (s : pystr)
    (k : option N → pystr → bool) : bool :=
  match r with
  | Eps => k prev s
  | Lit c =>
      match s with
      | x :: s' => (if ic then ci_eq c x else N.eqb c x) && k (Some x) s'
      | [] => false
      end
  | Cls f =>
      match s with
      | x :: s' => f x && k (Some x) s'
      | [] => false
      end
  | Seq r1 r2 => rmatch ic r1 prev s (λ p' s', rmatch ic r2 p' s' k)
  | Alt r1 r2 => rmatch ic r1 prev s k || rmatch ic r2 prev s k
  | Plus r' =>
      (fix loop (n : nat) (prev : option N) (s : pystr) : bool :=
         match n with
         | O => false
         | S n' =>
             rmatch ic r' prev s (λ p' s',
               (if (length s' <? length s)%nat then loop n' p' s' else false)
               || k p' s')
         end) (S (length s)) prev s
  | Bol => match prev with None => k prev s | Some _ => false end
  | Eol =>
      match s with
      | [] => k prev s
      | [c] => (c =? 10)%N && k prev s
      | _ => false
      end
  | WordB => xorb (word_at prev) (word_at (head s)) && k prev s
  end.

(** [re.match(r, s)] as a truth value. *)
Definition re_match (ic : bool) (r : regex) (s : pystr) : bool :=
  rmatch ic r None s (λ _ _, true).

(** [re.search(r, s)] as a truth value: a match at some position. *)
Fixpoint search_from (ic : bool) (r : regex) (prev : option N) (s : pystr) : bool :=
  rmatch ic r prev s (λ _ _, true) ||
  match s with
  | [] => false
  | c :: s' => search_from ic r (Some c) s'
  end.

Definition re_search (ic : bool) (r : regex) (s : pystr) : bool :=
  search_from ic r None s.

End Regex.

(** The literal text [w] as a pattern ([re.escape(w)]). *)
Definition lits (w : pystr) : regex := foldr (λ c r, Seq (Lit c) r) Eps w.

(** ** Classification engine ([classify_records.py]) *)

Inductive tag := automatic | manual.

Definition tag_str (t : tag) : pystr :=
  match t with
  | automatic => py "automatic"
  | manual => py "manual"
  end.

Definition koyu : pystr := py "k" ++ [246%N] ++ py "y" ++ [252%N].

Definition SPECIFIC_KEYWORDS : list pystr :=
  [ py "beach"; py "playa"; py "sands"; py "reef"; py "cove"; py "bay";
    py "plaza"; py "square"; py "piazza"; py "platz";
    py "church"; py "cathedral"; py "basilica"; py "chapel"; py "mosque"; py "parish";
    py "lighthouse"; py "faro";
    py "pier"; py "dock"; py "wharf"; py "marina"; py "harbour"; py "harbor"; py "port";
    py "airport"; py "runway"; py "station";
    py "bridge"; py "puente";
    py "monument"; py "obelisk"; py "statue"; py "memorial"; py "fountain";
    py "tower"; py "castle"; py "fortress"; py "fort";
    py "park"; py "garden"; py "zoo";
    py "museum"; py "theater"; py "theatre"; py "stadium";
    py "market"; py "shop"; py "restaurant"; py "bar"; py "cafe";
    py "waterfall"; py "canyon"; py "cave"; py "volcano";
    py "temple"; py "shrine"; py "monastery";
    py "pool"; py "resort";
    py "ski"; py "slope";
    py "nest"; py "cahow"; py "falcon";
    py "underwater"; py "coral";
    py "crossing"; py "road"; py "street"; py "avenue"; py "avenida";
    py "village"; koyu;
    py "clock";
    py "inspection" ].

Definition VAGUE_KEYWORDS : list pystr :=
  [ py "panorama"; py "panoramic"; py "skyline";
    py "northern lights";
    py "traffic" ].

(** [kw in (a, b, ...)]: membership in a tuple of strings. *)
Definition in_tuple (kw : pystr) (t : list pystr) : bool := bool_decide (kw ∈ t).

(** The [if]/[elif] chain under the landmark loop.  A parenthesised single
    string such as [("station")] is a string, not a tuple, so [kw in] it is
    the substring test. *)
Definition landmark_class (kw : pystr) : tag * Z :=
  if in_tuple kw [py "beach"; py "playa"; py "sands"; py "cove"; py "bay"; py "reef"]
  then (automatic, 200%Z)
  else if in_tuple kw [py "plaza"; py "square"; py "piazza"; py "platz"; py "fountain";
                       py "monument"; py "obelisk"; py "statue"; py "memorial"]
  then (automatic, 100%Z)
  else if in_tuple kw [py "church"; py "cathedral"; py "basilica"; py "chapel";
                       py "mosque"; py "parish"; py "temple"; py "shrine"; py "monastery"]
  then (automatic, 100%Z)
  else if in_tuple kw [py "lighthouse"; py "faro"] then (automatic, 50%Z)
  else if in_tuple kw [py "pier"; py "dock"; py "wharf"; py "marina"] then (automatic, 150%Z)
  else if in_tuple kw [py "harbour"; py "harbor"; py "port"] then (automatic, 300%Z)
  else if in_tuple kw [py "airport"; py "runway"] then (automatic, 500%Z)
  else if contains kw (py "station") then (automatic, 200%Z)
  else if in_tuple kw [py "bridge"; py "puente"] then (automatic, 200%Z)
  else if in_tuple kw [py "tower"; py "castle"; py "fortress"; py "fort"] then (automatic, 150%Z)
  else if in_tuple kw [py "park"; py "garden"; py "zoo"] then (automatic, 300%Z)
  else if in_tuple kw [py "museum"; py "theater"; py "theatre"; py "stadium"]
  then (automatic, 200%Z)
  else if in_tuple kw [py "market"; py "shop"; py "restaurant"; py "bar"; py "cafe"]
  then (automatic, 100%Z)
  else if in_tuple kw [py "waterfall"; py "canyon"; py "cave"] then (automatic, 300%Z)
  else if contains kw (py "volcano") then (automatic, 500%Z)
  else if in_tuple kw [py "pool"; py "resort"] then (automatic, 200%Z)
  else if in_tuple kw [py "ski"; py "slope"] then (automatic, 500%Z)
  else if in_tuple kw [py "nest"; py "cahow"; py "falcon"] then (manual, 500%Z)
  else if in_tuple kw [py "underwater"; py "coral"] then (manual, 300%Z)
  else if in_tuple kw [py "crossing"; py "road"; py "street"; py "avenue"; py "avenida"]
  then (automatic, 200%Z)
  else if in_tuple kw [py "village"; koyu] then (automatic, 500%Z)
  else if contains kw (py "clock") then (automatic, 100%Z)
  else if contains kw (py "inspection") then (manual, 500%Z)
  else (automatic, 200%Z).

Section Classify.
Context `{Unicode}.

(** The pattern [r'\b' + re.escape(kw) + r'\b']. *)
Definition word_pattern (kw : pystr) : regex := Seq WordB (Seq (lits kw) WordB).

(** The bracket class of the subtitle pattern: [\s], [\w], comma, full
    stop, the range from the apostrophe (U+0027) to a-acute (U+00E1), and
    the letters e-acute, i-acute, o-acute, u-acute, n-tilde, u-diaeresis,
    c-cedilla and e-circumflex. *)
Definition generic_h2_class (c : N) : bool :=
  is_space c || is_word c || (c =? 44)%N || (c =? 46)%N ||
  ((39 <=? c) && (c <=? 225))%N ||
  bool_decide (c ∈ [233; 237; 243; 250; 241; 252; 231; 234]%N).

(** [^(view (from|of|over|on)|panoramic view)[...]+$] *)
Definition generic_h2_pattern : regex :=
  Seq Bol
    (Seq (Alt (Seq (lits (py "view "))
                   (Alt (lits (py "from"))
                      (Alt (lits (py "of")) (Alt (lits (py "over")) (lits (py "on"))))))
              (lits (py "panoramic view")))
         (Seq (Plus (Cls generic_h2_class)) Eol)).

Definition classify_record (h1 h2 : pystr) : tag * Z :=
  let combined := str_lower (h1 ++ py " " ++ h2) in
  if existsb (λ kw, contains kw combined) VAGUE_KEYWORDS then (manual, 2500%Z)
  else
    match List.find (λ kw, re_search true (word_pattern kw) combined) SPECIFIC_KEYWORDS with
    | Some kw => landmark_class kw
    | None =>
        let h2_lower := str_lower h2 in
        let h2_is_generic := re_match false generic_h2_pattern h2_lower in
        let landmark_absent :=
          negb (existsb (λ kw, re_search false (word_pattern kw) combined)
                  SPECIFIC_KEYWORDS) in
        if h2_is_generic && landmark_absent then (manual, 2000%Z)
        else (automatic, 500%Z)
    end.

Definition estimate_radius_for_manual (h1 h2 : pystr) : Z :=
  let combined := str_lower (h1 ++ py " " ++ h2) in
  if existsb (λ kw, contains kw combined)
       [py "beach"; py "playa"; py "plaza"; py "square"; py "pier"; py "lighthouse"]
  then 200%Z
  else if existsb (λ kw, contains kw combined) [py "panorama"; py "panoramic"; py "skyline"]
  then 2500%Z
  else if contains (py "traffic") combined then 500%Z
  else 1500%Z.

End Classify.

(** ** JSON values and list-shaped records

    The Skyline files hold, per country, records that are JSON arrays
    [[h1, h2, url, tag, radius, lat, lng]], of which a prefix may be
    present. *)

Inductive json :=
| JNull
| JBool (b : bool)
| JInt (n : Z)
| JFloat (f : float)
| JStr (s : pystr).

(** [record[i]] when [len(record) > i], the empty string otherwise. *)
Definition field_or_empty (record : list json) (i : nat) : json :=
  default (JStr []) (record !! i).

(** String methods and string concatenation raise on a value that is not a
    string; [None] stands for the exception, which ends the run. *)
Definition as_str (v : json) : option pystr :=
  match v with
  | JStr s => Some s
  | _ => None
  end.

(** [v == s] for a string literal [s]. *)
Definition eq_str (v : json) (s : pystr) : bool :=
  match v with
  | JStr x => bool_decide (x = s)
  | _ => false
  end.

Section ClassifyMain.
Context `{Unicode}.

(** The filter on index pages at the head of the loop body. *)
Definition is_index_title (h1 : pystr) : bool :=
  startswith (str_lower h1) (py "live cams in") ||
  startswith (str_lower h1) (py "liva cams in").

(** One iteration of the loop over the records of a country: [Some None]
    when the record is skipped ([continue] before any append), [Some (Some
    r)] when [r] is appended to the country results. *)
Definition classify_step (record : list json) : option (option (list json)) :=
  h1 ← as_str (field_or_empty record 0);
  let h2 := field_or_empty record 1 in
  if is_index_title h1 then Some None
  else if (4 <=? length record)%nat && eq_str (default JNull (record !! 3)) (py "manual") then
    if (length record <? 5)%nat then
      h2 ← as_str h2;
      let radius := estimate_radius_for_manual h1 h2 in
      Some (Some (take 4 record ++ [JInt radius]))
    else Some (Some record)
  else
    h2 ← as_str h2;
    let '(tag, radius) := classify_record h1 h2 in
    Some (Some (take 3 record ++ [JStr (tag_str tag); JInt radius])).

Definition classify_country (records : list (list json)) : option (list (list json)) :=
  outs ← mapM classify_step records;
  Some (omap id outs).

(** [main]: the dataset is the JSON object of the input file, as its list
    of (country, records) members. *)
Definition classify_main (data : list (pystr * list (list json)))
    : option (list (pystr * list (list json))) :=
  mapM (λ '(country, records),
          country_results ← classify_country records;
          Some (country, country_results)) data.

End ClassifyMain.

(** ** Country canonicalizers *)

(** [merge_webcamtaxi.py]: slug of the URL path to canonical name. *)
Definition COUNTRY_SLUG_TABLE : list (pystr * pystr) :=
  [ (py "england", py "United Kingdom");
    (py "scotland", py "United Kingdom");
    (py "wales", py "United Kingdom");
    (py "usa", py "United States");
    (py "czech-republic", py "Czech Republic");
    (py "bosnia-herzegovina", py "Bosnia and Herzegovina");
    (py "virgin-islands", py "British Virgin Islands");
    (py "saint-barthelemy", py "Saint Barthelemy");
    (py "saint-martin", py "Sint Maarten");
    (py "united-arab-emirates", py "United Arab Emirates");
    (py "south-africa", py "South Africa");
    (py "south-korea", py "South Korea");
    (py "new-zealand", py "New Zealand");
    (py "north-macedonia", py "North Macedonia");
    (py "french-polynesia", py "French Polynesia");
    (py "costa-rica", py "Costa Rica");
    (py "dominican-republic", py "Dominican Republic");
    (py "el-salvador", py "El Salvador");
    (py "dr-congo", py "DR Congo");
    (py "saudi-arabia", py "Saudi Arabia");
    (py "cape-verde", py "Cape Verde");
    (py "cayman-islands", py "Cayman Islands");
    (py "anguilla-island", py "Anguilla");
    (py "turks-and-caicos-islands", py "Turks And Caicos Islands");
    (py "bailiwick-of-jersey", py "Jersey") ].

Definition COUNTRY_SLUG_MAP : gmap pystr pystr := list_to_map COUNTRY_SLUG_TABLE.

Definition slug_to_country `{Unicode} (slug : pystr) : pystr :=
  match COUNTRY_SLUG_MAP !! slug with
  | Some name => name
  | None => str_title (replace (py "-") (py " ") slug)
  end.

(** [merge_webcams.py]: display name to canonical name. *)
Definition COUNTRY_ALIAS_TABLE : list (pystr * pystr) :=
  [ (py "England", py "United Kingdom");
    (py "Wales", py "United Kingdom");
    (py "Scotland", py "United Kingdom");
    (py "Great Britain", py "United Kingdom");
    (py "Bosnia And Herzegovina", py "Bosnia and Herzegovina");
    (py "Bosnia-Herzegovina", py "Bosnia and Herzegovina");
    (py "Turkiye", py "Turkey");
    (py "Russian Federation", py "Russia");
    (py "Slovak Republic", py "Slovakia");
    (py "Virgin Islands, U.S.", py "US Virgin Islands");
    (py "Virgin Islands, British", py "British Virgin Islands") ].

Definition COUNTRY_ALIASES : gmap pystr pystr := list_to_map COUNTRY_ALIAS_TABLE.

Definition is_empty_str (s : pystr) : bool :=
  match s with [] => true | _ => false end.

Definition resolve_country (raw_country : pystr) : pystr :=
  if is_empty_str raw_country || is_empty_str (strip raw_country) then py "Unknown"
  else default raw_country (COUNTRY_ALIASES !! raw_country).

(** ** Query extraction by intersection ([skyline_geocoder.py]) *)

Definition STOPWORDS : gset pystr :=
  {[ py "skylinewebcams"; py "cam"; py "cams"; py "live"; py "in" ]}.

Section Query.
Context `{Unicode}.

Definition clean_words (text : pystr) : list pystr :=
  let words := split (str_lower text) in
  foldl (λ cleaned word,
           let word := replace (py "-") [] word in
           if negb (is_empty_str word) && bool_decide (word ∉ STOPWORDS)
           then cleaned ++ [word] else cleaned)
        [] words.

Definition extract_search_query (h1 h2 : pystr) : option pystr :=
  let h1_words := clean_words h1 in
  let h2_words := clean_words h2 in
  if bool_decide (h1_words = []) || bool_decide (h2_words = []) then None
  else
    let h2_set : gset pystr := list_to_set h2_words in
    let '(common, seen) :=
      foldl (λ '(common, seen) word,
               if bool_decide (word ∈ h2_set) && bool_decide (word ∉ seen)
               then (common ++ [word], ({[ word ]} ∪ seen : gset pystr))
               else (common, seen))
            ([], ∅) h1_words in
    if bool_decide (common = []) then None
    else Some (join (py " ") common).

End Query.

(** ** Geocoding lookup ([geocode_query] of both geocoders)

    The reply of the place lookup, as far as the scripts read it.  A JSON
    number is a binary64 float; a key that may be missing is an [option],
    and a corner of the viewport is the dictionary of its numeric
    members. *)

Abbreviation corner := (gmap string float).

Record viewport := { northeast : option corner; southwest : option corner }.
Record geometry := { location : option corner; g_viewport : option viewport }.
Record candidate := { c_geometry : option geometry }.
Record places_reply := { status : option pystr; candidates : list candidate }.

Record geo_result := { lat : float; lng : float; is_area : bool }.

Definition MAX_VIEWPORT_SPAN_DEG : float := 0.02%float.

Definition lat_span (ne sw : corner) : float :=
  PrimFloat.abs (default 0%float (ne !! "lat") - default 0%float (sw !! "lat"))%float.
Definition lng_span (ne sw : corner) : float :=
  PrimFloat.abs (default 0%float (ne !! "lng") - default 0%float (sw !! "lng"))%float.

(** The viewport check in the body of [geocode_query]. *)
Definition viewport_is_area (g : geometry) : bool :=
  let vp := default {| northeast := None; southwest := None |} (g_viewport g) in
  let ne := default ∅ (northeast vp) in
  let sw := default ∅ (southwest vp) in
  if bool_decide (ne ≠ ∅) && bool_decide (sw ≠ ∅) then
    (MAX_VIEWPORT_SPAN_DEG <? lat_span ne sw)%float ||
    (MAX_VIEWPORT_SPAN_DEG <? lng_span ne sw)%float
  else false.

(** The body of [geocode_query] from the decoded reply on. *)
Definition geocode_reply (data : places_reply) : option geo_result :=
  if negb (bool_decide (status data = Some (py "OK"))) then None
  else
    match candidates data with
    | [] => None
    | first :: _ =>
        let g := default {| location := None; g_viewport := None |} (c_geometry first) in
        let loc := default ∅ (location g) in
        match loc !! "lat", loc !! "lng" with
        | Some la, Some lo =>
            Some {| lat := la; lng := lo; is_area := viewport_is_area g |}
        | _, _ => None
        end
    end.

(** What the HTTP request for a query yields: an exception of the
    [requests] library (transport error, time-out, error status), or the
    decoded JSON reply. *)
Inductive api_reply :=
| ApiFailure
| ApiJson (data : places_reply).

(** [skyline_geocoder.geocode_query] lets the exception through. *)
Inductive attempt :=
| Raised
| Returned (result : option geo_result).

Definition geocode_query_skyline (r : api_reply) : attempt :=
  match r with
  | ApiFailure => Raised
  | ApiJson data => Returned (geocode_reply data)
  end.

(** [smart_geocoder.geocode_query] catches it and returns [None]. *)
Definition geocode_query_smart (r : api_reply) : option geo_result :=
  match r with
  | ApiFailure => None
  | ApiJson data => geocode_reply data
  end.

(** ** Geocoding drivers *)

Section SkylineGeocoder.
Context `{Unicode}.
(** The place lookup service, as a function of the query text. *)
Variable api : pystr → api_reply.

(** One iteration of the record loop of [skyline_geocoder.main]: the record
    appended to the country results, [None] when the run dies on an
    exception.  The message printed for a record tagged manual slices the
    title ([h1[:60]]); of the values a field holds here, only a string can
    be sliced, any other raises [TypeError]. *)
Definition skyline_step (record : list json) : option (list json) :=
  let h1 := field_or_empty record 0 in
  let h2 := field_or_empty record 1 in
  let tag := field_or_empty record 3 in
  if eq_str tag (py "manual") then
    _ ← as_str h1;
    Some record
  else if negb (eq_str tag (py "automatic")) then Some record
  else
    h1 ← as_str h1;
    h2 ← as_str h2;
    match extract_search_query h1 h2 with
    | None => Some record
    | Some query =>
        if is_empty_str query then Some record
        else
          match geocode_query_skyline (api query) with
          | Raised => Some record
          | Returned None => Some record
          | Returned (Some result) =>
              let enriched := take 5 record in
              if is_area result
              then Some (<[3%nat := JStr (py "manual")]> enriched
                           ++ [JFloat (lat result); JFloat (lng result)])
              else Some (enriched ++ [JFloat (lat result); JFloat (lng result)])
          end
    end.

End SkylineGeocoder.

(** ** Dictionary-shaped records

    From [combined.json] and [webcam_locations.json] on, a record is a JSON
    object with the keys [title], [subtitle], [url], [mode], [radius],
    [latitude], [longitude], [verified], [source], [subregion]. *)

Abbreviation record := (gmap string json).

(** The dataset of [combined.json] as the members of its JSON object. *)
Abbreviation dataset := (list (pystr * list record)).

(** Truth value of a JSON value in a Python condition. *)
Definition truthy (v : json) : bool :=
  match v with
  | JNull => false
  | JBool b => b
  | JInt n => negb (n =? 0)%Z
  | JFloat f => negb (f =? 0)%float
  | JStr s => negb (is_empty_str s)
  end.

(** [v is not None] for [v = rec.get(key)]. *)
Definition not_none (v : option json) : bool :=
  match v with
  | None | Some JNull => false
  | Some _ => true
  end.

(** *** The candidate queries of [smart_geocoder.py] *)

Section BuildQueries.
Context `{Unicode}.

(** [build_queries] of [smart_geocoder.py]. *)
Definition build_queries (title_loc subtitle_loc country : pystr) : list pystr :=
  let title_words := if is_empty_str title_loc then [] else split title_loc in
  let subtitle_words := if is_empty_str subtitle_loc then [] else split subtitle_loc in
  let '(all_words, seen) :=
    foldl (λ '(all_words, seen) w,
             let w_lower := str_lower w in
             if bool_decide (w_lower ∉ seen) &&
                negb (bool_decide (w_lower = str_lower country))
             then (all_words ++ [w], ({[ w_lower ]} ∪ seen : gset pystr))
             else (all_words, seen))
          ([], ∅) (title_words ++ subtitle_words) in
  let queries := [] in
  let queries :=
    if negb (bool_decide (all_words = []))
    then queries ++ [join (py " ") all_words ++ py " " ++ country]
    else queries in
  let queries :=
    if negb (is_empty_str title_loc) then
      let title_country := title_loc ++ py " " ++ country in
      if bool_decide (title_country ∉ queries) then queries ++ [title_country]
      else queries
    else queries in
  let queries :=
    if negb (is_empty_str title_loc) && bool_decide (title_loc ∉ queries)
    then queries ++ [title_loc] else queries in
  let queries :=
    if negb (is_empty_str subtitle_loc) then
      let sub_country := subtitle_loc ++ py " " ++ country in
      if bool_decide (sub_country ∉ queries) then queries ++ [sub_country]
      else queries
    else queries in
  queries.

End BuildQueries.

Section SmartGeocoder.
Context `{Unicode}.
Variable api : pystr → api_reply.
(** [extract_title_location] and [extract_subtitle_locations] on a string:
    the regular-expression and [unicodedata] code that picks the place
    names out of a text.  Each returns a string for every string; which
    string is outside what is stated here. *)
Variable extract_title_location : pystr → pystr.
Variable extract_subtitle_locations : pystr → pystr.

(** [not r.get("verified", False)]: the records the loop visits. *)
Definition is_unverified (r : record) : bool :=
  negb (truthy (default (JBool false) (r !! "verified"))).

(** The [for q in queries] loop: the first query that resolves. *)
Fixpoint try_queries (queries : list pystr) : option geo_result :=
  match queries with
  | [] => None
  | q :: rest =>
      match geocode_query_smart (api q) with
      | Some result => Some result
      | None => try_queries rest
      end
  end.

(** The cascade of a record, lines 241 to 249 of [main]; [None] stands for
    the [TypeError] that ends the run.  [re.split] in
    [extract_title_location] raises on a title that is not a string;
    [extract_subtitle_locations] returns the empty string for a subtitle
    that is not truthy, and its [re.sub] raises on any other value that is
    not a string. *)
Definition query_cascade (country : pystr) (rec : record) : option (list pystr) :=
  let title := default (JStr []) (rec !! "title") in
  let subtitle := default (JStr []) (rec !! "subtitle") in
  title ← as_str title;
  let title_loc := extract_title_location title in
  subtitle_loc ← (if truthy subtitle
                  then extract_subtitle_locations <$> as_str subtitle
                  else Some []);
  Some (build_queries title_loc subtitle_loc country).

(** The body of the loop over the unverified records of a country, as the
    record it leaves; [None] when the run dies. *)
Definition smart_step (country : pystr) (rec : record) : option record :=
  if not_none (rec !! "latitude") && not_none (rec !! "longitude") then Some rec
  else
    queries ← query_cascade country rec;
    match queries with
    | [] => Some rec
    | _ =>
        match try_queries queries with
        | Some result =>
            let rec := <["latitude" := JFloat (lat result)]> rec in
            let rec := <["longitude" := JFloat (lng result)]> rec in
            if is_area result then Some rec
            else Some (<["verified" := JBool true]> rec)
        | None => Some rec
        end
    end.

(** The records of one country after the loop: the unverified ones are
    visited in order, each step writes to its own record only. *)
Definition smart_country (country : pystr) (records : list record)
    : option (list record) :=
  let unverified := filter (λ i, is_unverified (records !!! i) = true)
                      (seq 0 (length records)) in
  foldl (λ acc idx,
           records ← acc;
           rec ← records !! idx;
           rec ← smart_step country rec;
           Some (<[idx := rec]> records))
        (Some records) unverified.

End SmartGeocoder.

(** ** Verification workers *)

Definition VERIFIED_RADIUS : Z := 10.
Definition UNVERIFIED_RADIUS : Z := 200.

(** What [requests.get] yields for one request. *)
Inductive http_reply :=
| HttpTimeout
| HttpError
| HttpResponse (status_code : Z) (text : pystr).

(** The [as_completed] loop: futures complete in the order [order] (task
    indices), and each result is stored in its own slot of [results]. *)
Definition collect {A} (n : nat) (task : nat → A) (order : list nat) : list (option A) :=
  foldl (λ results idx, <[idx := Some (task idx)]> results) (replicate n None) order.

(** *** [merge_webcams.py]: liveness of the EarthCam URLs *)

Definition verify_url (r : http_reply) : bool :=
  match r with
  | HttpResponse status_code _ => (status_code =? 200)%Z
  | _ => false
  end.

Section VerifyWorkers.
(** The network: the reply to the request of task [i] for a URL. *)
Variable http : nat → json → http_reply.

Definition url_of (rec : record) : json := default JNull (rec !! "url").

(** "Apply verification results": [ok = results[i]]. *)
Definition apply_verification (results : list (option bool))
    (transformed : list (pystr * record)) : list (pystr * record) :=
  imap (λ i '(country, rec),
          let ok := mjoin (results !! i) in
          let rec := <["verified" := from_option JBool JNull ok]> rec in
          let rec := <["radius" := JInt (if default false ok
                                          then VERIFIED_RADIUS else UNVERIFIED_RADIUS)]> rec in
          (country, rec))
       transformed.

(** Section 4 of [main]; [rec["url"]] is read when the list [urls] is
    built, and raises when the key is missing. *)
Definition verify_all (order : list nat) (transformed : list (pystr * record))
    : option (list (pystr * record)) :=
  urls ← mapM (λ '(_, rec), rec !! "url") transformed;
  let results :=
    collect (length transformed)
      (λ i, verify_url (http i (default JNull (urls !! i)))) order in
  Some (apply_verification results transformed).

End VerifyWorkers.

(** *** [merge_webcamtaxi.py]: extraction of the embedded player URL *)

Section IframeWorkers.
(** The network: the reply to the request of task [i] for a page. *)
Variable http : nat → json → http_reply.
(** [re.search(r'<iframe[^>]+src=[quote]([^quote]+)[quote]', text,
    re.IGNORECASE)] followed by [group(1)], and [html.unescape], which are
    library code. *)
Variable find_iframe_src : pystr → option pystr.
Variable html_unescape : pystr → pystr.

Definition unescape_text (text : pystr) : pystr :=
  if is_empty_str text then text
  else html_unescape (replace (py "\/") (py "/") text).

(** [fetch_iframe_url] of [merge_webcamtaxi.py]: [(iframe_src, success)]. *)
Definition fetch_iframe_url (r : http_reply) : option pystr * bool :=
  match r with
  | HttpResponse status_code text =>
      if (status_code =? 200)%Z then
        match find_iframe_src text with
        | Some src => (Some (unescape_text src), true)
        | None => (None, false)
        end
      else (None, false)
  | _ => (None, false)
  end.

(** [success and iframe_url] *)
Definition embed_found (iframe_url : option pystr) (success : bool) : bool :=
  success && negb (is_empty_str (default [] iframe_url)).

(** "Apply results" for one record, with the removal of the internal
    fields; a missing key raises. *)
Definition apply_iframe_result (result : option pystr * bool) (rec : record)
    : option record :=
  let '(iframe_url, success) := result in
  rec ←
    (if embed_found iframe_url success then
       let rec := <["url" := JStr (default [] iframe_url)]> rec in
       let rec := <["verified" := JBool true]> rec in
       Some (<["radius" := JInt VERIFIED_RADIUS]> rec)
     else
       fallback ← rec !! "_fallback_url";
       let rec := <["url" := fallback]> rec in
       let rec := <["verified" := JBool false]> rec in
       Some (<["radius" := JInt UNVERIFIED_RADIUS]> rec));
  _ ← rec !! "_page_url";
  let rec := delete "_page_url" rec in
  _ ← rec !! "_fallback_url";
  Some (delete "_fallback_url" rec).

(** Section 3 of [main]: submit one fetch per record, collect in
    completion order, apply. *)
Definition extract_all (order : list nat) (transformed : list (pystr * record))
    : option (list (pystr * record)) :=
  pages ← mapM (λ '(_, rec), rec !! "_page_url") transformed;
  let results :=
    collect (length transformed)
      (λ i, fetch_iframe_url (http i (default JNull (pages !! i)))) order in
  mapM (λ '(i, (country, rec)),
          result ← mjoin (results !! i);
          rec ← apply_iframe_result result rec;
          Some (country, rec))
       (imap pair transformed).

(** *** [retry_webcamtaxi_iframes.py] *)

(** [fetch_iframe_url] of the retry script: [(iframe_src, http_status,
    success)]. *)
Definition fetch_iframe_url_retry (r : http_reply) : option pystr * Z * bool :=
  match r with
  | HttpResponse status_code text =>
      if (status_code =? 200)%Z then
        match find_iframe_src text with
        | Some src => (Some (unescape_text src), status_code, true)
        | None => (None, status_code, false)
        end
      else (None, status_code, false)
  | HttpTimeout => (None, 0%Z, false)
  | HttpError => (None, (-1)%Z, false)
  end.

(** [rec.get("source") == "WCT" and rec.get("verified") is False] *)
Definition is_retry_target (rec : record) : bool :=
  eq_str (default JNull (rec !! "source")) (py "WCT") &&
  match rec !! "verified" with
  | Some (JBool false) => true
  | _ => false
  end.

(** A record object of the dataset is referred to by its place: the
    position of its country and its index in the country's list. *)

Definition record_at (combined : dataset) (p : nat * nat) : option record :=
  '(_, records) ← combined !! p.1;
  records !! p.2.

(** A write through the reference [p]. *)
Definition update_at (f : record → record) (p : nat * nat) (combined : dataset) : dataset :=
  alter (λ '(country, records), (country, alter f p.2 records)) p.1 combined.

Definition wct_targets (combined : dataset) : list (nat * nat) :=
  mjoin (imap (λ k '(_, records),
                 omap id (imap (λ idx rec,
                                  if is_retry_target rec then Some (k, idx) else None)
                               records))
              combined).

(** "Apply results" of the retry pass for one target. *)
Definition apply_retry_result (result : option pystr * Z * bool) (rec : record) : record :=
  let '(iframe_url, http_status, success) := result in
  if embed_found iframe_url success then
    let rec := <["url" := JStr (default [] iframe_url)]> rec in
    let rec := <["verified" := JBool true]> rec in
    <["radius" := JInt VERIFIED_RADIUS]> rec
  else rec.

(** [main] of the retry script up to the write-back; [None] when it dies on
    an exception ([rec["url"]] missing at submission). *)
Definition retry_main (order : list nat) (combined : dataset) : option dataset :=
  let targets := wct_targets combined in
  let total := length targets in
  if (total =? 0)%nat then Some combined
  else
    urls ← mapM (λ p, rec ← record_at combined p; rec !! "url") targets;
    let results :=
      collect total
        (λ i, fetch_iframe_url_retry (http i (default JNull (urls !! i)))) order in
    foldl (λ acc '(i, p),
             combined ← acc;
             result ← mjoin (results !! i);
             Some (update_at (apply_retry_result result) p combined))
          (Some combined) (imap pair targets).

End IframeWorkers.

(** ** Merge into the per-country buckets *)

(** The loop "for country, rec in transformed" of both merge scripts. *)
Definition merge_transformed (combined : gmap pystr (list record))
    (transformed : list (pystr * record)) : gmap pystr (list record) :=
  foldl (λ combined '(country, rec),
           <[country := default [] (combined !! country) ++ [rec]]> combined)
        combined transformed.

(** Order of Python strings: lexicographic on code points. *)
Fixpoint str_leb (a b : pystr) : bool :=
  match a, b with
  | [], _ => true
  | _ :: _, [] => false
  | x :: a', y :: b' => (x <? y)%N || ((x =? y)%N && str_leb a' b')
  end.

(** [dict(sorted(combined.items()))], as the list of its members; the keys
    of a dictionary are distinct, so the order is that of the keys. *)
Definition key_le (x y : pystr * list record) : Prop := str_leb x.1 y.1 = true.

#[global] Instance key_le_dec : RelDecision key_le :=
  λ x y, decide (str_leb x.1 y.1 = true).

Definition sorted_items (combined : gmap pystr (list record)) : list (pystr * list record) :=
  merge_sort key_le (map_to_list combined).

(** Section 4 of [merge_webcamtaxi.main]. *)
Definition merge_webcamtaxi (combined : gmap pystr (list record))
    (transformed : list (pystr * record)) : list (pystr * list record) :=
  sorted_items (merge_transformed combined transformed).

(** Section 2 of [merge_webcams.main]: every existing record gets its
    source and an empty subregion. *)
Definition enrich_record (rec : record) : record :=
  <["subregion" := JNull]> (<["source" := JStr (py "SLW")]> rec).

Definition enrich_slw (wl_data : gmap pystr (list record)) : gmap pystr (list record) :=
  (λ records : list record, enrich_record <$> records) <$> wl_data.

(** Section 5 of [merge_webcams.main], over the enriched data. *)
Definition merge_webcams (wl_data : gmap pystr (list record))
    (transformed : list (pystr * record)) : list (pystr * list record) :=
  sorted_items (merge_transformed (enrich_slw wl_data) transformed).

(** ** Further stages of the pipeline *)

(** *** [skyline_geocoder.py] and [reformat_records.py] over a dataset *)

Section SkylineMain.
Context `{Unicode}.
Variable api : pystr → api_reply.


End SkylineMain.

(** [reformat_records.py]: the array of a record as a dictionary. *)
Definition reformat_record (record : list json) : gmap string json :=
  {[ "title" := field_or_empty record 0;
     "subtitle" := field_or_empty record 1;
     "url" := field_or_empty record 2;
     "mode" := field_or_empty record 3;
     "radius" := default JNull (record !! 4%nat);
     "latitude" := default JNull (record !! 5%nat);
     "longitude" := default JNull (record !! 6%nat);
     "verified" := JBool false ]}.

Definition reformat_main (data : list (pystr * list (list json))) : dataset :=
  (λ cr : pystr * list (list json), (cr.1, reformat_record <$> cr.2)) <$> data.

(** *** Country and subregion of a WebcamTaxi feature *)

(** [s.split(sep)] for a separator of one code point: the pieces between
    its occurrences, empty pieces included. *)
Fixpoint split_on (sep : N) (s : pystr) : list pystr :=
  match s with
  | [] => [[]]
  | c :: s' =>
      if (c =? sep)%N then [] :: split_on sep s'
      else match split_on sep s' with
           | w :: ws => (c :: w) :: ws
           | [] => [[c]]
           end
  end.

(** [s.strip(chars)]. *)
Fixpoint lstrip_chars (chars s : pystr) : pystr :=
  match s with
  | c :: s' => if bool_decide (c ∈ chars) then lstrip_chars chars s' else s
  | [] => []
  end.

Definition strip_chars (chars s : pystr) : pystr :=
  reverse (lstrip_chars chars (reverse (lstrip_chars chars s))).

(** [url_path.strip("/").split("/")] *)
Definition url_parts (url_path : pystr) : list pystr :=
  split_on 47 (strip_chars (py "/") url_path).

Section WctTransform.
Context `{Unicode}.

(** [extract_subregion] of [merge_webcamtaxi.py]. *)
Definition extract_subregion (url_path : pystr) : option pystr :=
  let parts := url_parts url_path in
  if (3 <=? length parts)%nat then
    let region_slug := default [] (parts !! 2%nat) in
    Some (str_title (replace (py "-") (py " ") region_slug))
  else None.

(** The country of a feature in section 2 of [merge_webcamtaxi.main], from
    its unescaped URL path: [None] when the feature is skipped. *)
Definition feature_country (raw_url_path : pystr) : option pystr :=
  let parts := url_parts raw_url_path in
  let country_slug :=
    if (3 <=? length parts)%nat then default [] (parts !! 1%nat) else py "unknown" in
  if bool_decide (country_slug = py "component") then None
  else Some (slug_to_country country_slug).

End WctTransform.

(** *** Statistics of the merge scripts *)

(** The list [all_records] of the statistics section: the buckets in the
    order of the dataset, concatenated. *)
Definition all_records (combined : list (pystr * list record)) : list record :=
  mjoin combined.*2.

(** *** The subtitle of a WebcamTaxi feature *)

(** [re.sub(r"\s+", " ", s)]: every maximal run of white space becomes one
    space.  [in_run] tells that the code point before was white space. *)
Fixpoint collapse_spaces (in_run : bool) (s : pystr) : pystr :=
  match s with
  | [] => []
  | c :: s' =>
      if is_space c then
        if in_run then collapse_spaces true s' else 32%N :: collapse_spaces true s'
      else c :: collapse_spaces false s'
  end.

Section ExtractSubtitle.
Variable html_unescape : pystr → pystr.
(** The three calls of [re] that select and rewrite the markup, which are
    library code: [re.search(r"<span class='locationaddress'>(.*?)</span>",
    description)] with [group(1)], [re.sub(r"<br\s*/?>", ", ", s)] and
    [re.sub(r"<[^>]+>", "", s)]. *)
Variable find_locationaddress : pystr → option pystr.
Variable sub_br : pystr → pystr.
Variable sub_tags : pystr → pystr.

(** [extract_subtitle] of [merge_webcamtaxi.py]. *)
Definition extract_subtitle (description : pystr) : pystr :=
  match find_locationaddress description with
  | None => []
  | Some addr_html =>
      let addr_text := sub_br addr_html in
      let addr_text := sub_tags addr_text in
      let addr_text := html_unescape addr_text in
      let addr_text := strip (collapse_spaces false addr_text) in
      strip (strip_chars (py ", ") addr_text)
  end.

End ExtractSubtitle.

(** *** The batches of [fetch_wct_youtube.py] *)

(** The slices of [fetch_wct_youtube.main]: [wct_records[batch_start:batch_end]]
    for every [batch_idx] in [range(num_batches)]. *)
Definition batch {A} (wct_records : list A) (batch_size batch_idx : nat) : list A :=
  let total := length wct_records in
  let batch_start := (batch_idx * batch_size)%nat in
  let batch_end := (batch_start + batch_size) `min` total in
  take (batch_end - batch_start) (drop batch_start wct_records).

Definition batches {A} (wct_records : list A) (batch_size : nat) : list (list A) :=
  let total := length wct_records in
  let num_batches := ((total + batch_size - 1) / batch_size)%nat in
  (λ batch_idx, batch wct_records batch_size batch_idx) <$> seq 0 num_batches.

(** * Vocabulary of the statements

    Predicates and derived notions the properties below are stated with,
    followed by the concrete inputs on which they are run. *)

(** A radius in metres as the data model allows it. *)
Definition valid_radius (r : Z) : Prop := (0 < r ≤ 2500)%Z.

(** "Begins, case-insensitively, with [p]". *)
Definition begins_ci `{Unicode} (t p : pystr) : bool :=
  startswith (str_lower t) (str_lower p).

(** The titles of index pages, in the words of the specification. *)
Definition index_page_title `{Unicode} (t : pystr) : bool :=
  begins_ci t (py "Live Cams in") || begins_ci t (py "Liva Cams in").

(** A Basic Latin letter, the cased code points of [ascii_title]. *)
Definition is_cased (c : N) : bool := is_ascii_upper c || is_ascii_lower c.

(** [s.replace("-", " ")] maps the hyphens and nothing else. *)
Definition hyphen_to_space (c : N) : N := if (c =? 45)%N then 32%N else c.

(** The string begins with a lower-case Basic Latin letter. *)
Definition lower_initial (s : pystr) : bool :=
  match s with
  | c :: _ => is_ascii_lower c
  | [] => false
  end.

(** The geometry [geocode_query] reads: that of the first candidate. *)
Definition reply_geometry (data : places_reply) : geometry :=
  default {| location := None; g_viewport := None |}
    (head (candidates data) ≫= c_geometry).

(** The record that leaves the verification stage for the outcome [ok]. *)
Definition verified_record (ok : bool) (rec : record) : record :=
  <["radius" := JInt (if ok then VERIFIED_RADIUS else UNVERIFIED_RADIUS)]>
    (<["verified" := JBool ok]> rec).

(** The liveness outcome of task [i] for a record. *)
Definition verify_outcome (http : nat → json → http_reply) (i : nat) (rec : record) : bool :=
  verify_url (http i (url_of rec)).

(** The record that leaves the extraction stage for a fetch result. *)
Definition extracted_record (result : option pystr * bool) (rec : record) : record :=
  delete "_fallback_url"
    (delete "_page_url"
       (if embed_found result.1 result.2 then
          <["radius" := JInt VERIFIED_RADIUS]>
            (<["verified" := JBool true]>
               (<["url" := JStr (default [] result.1)]> rec))
        else
          <["radius" := JInt UNVERIFIED_RADIUS]>
            (<["verified" := JBool false]>
               (<["url" := default JNull (rec !! "_fallback_url")]> rec)))).

(** The internal fields that [main] gives every transformed record. *)
Definition has_internal_fields (rec : record) : Prop :=
  is_Some (rec !! "_page_url") ∧ is_Some (rec !! "_fallback_url").

(** The fetch result of task [i] for a record. *)
Definition fetch_outcome (http : nat → json → http_reply)
    (find_iframe_src : pystr → option pystr) (html_unescape : pystr → pystr)
    (i : nat) (rec : record) : option pystr * bool :=
  fetch_iframe_url find_iframe_src html_unescape
    (http i (default JNull (rec !! "_page_url"))).

(** The records of the new source for a country, in their order. *)
Definition added_for (c : pystr) (transformed : list (pystr * record)) : list record :=
  (filter (λ cr, cr.1 = c) transformed).*2.

(** The targets found in the list of one country. *)
Definition country_targets (k : nat) (shift : nat → nat) (records : list record)
    : list (nat * nat) :=
  omap id (imap (λ idx rec,
                   if is_retry_target rec then Some (k, shift idx) else None)
                records).

(** The apply loop for results that are all present: one write per
    target, through its place. *)
Definition apply_all (task : nat → option pystr * Z * bool)
    (ips : list (nat * (nat * nat))) (combined : dataset) : dataset :=
  foldl (λ d '(i, p), update_at (apply_retry_result (task i)) p d) combined ips.

(** The fetch of task [i] of the retry pass: the URL is that of the
    [i]-th target. *)
Definition retry_task (http : nat → json → http_reply)
    (find_iframe_src : pystr → option pystr) (html_unescape : pystr → pystr)
    (combined : dataset) (i : nat) : option pystr * Z * bool :=
  fetch_iframe_url_retry find_iframe_src html_unescape
    (http i (default JNull
               (p ← wct_targets combined !! i;
                rec ← record_at combined p;
                rec !! "url"))).

(** ** Vocabulary of the further properties *)

Definition index_record `{Unicode} (rec : list json) : bool :=
  match as_str (field_or_empty rec 0) with
  | Some h1 => is_index_title h1
  | None => false
  end.

Definition radius_fits_tag (t : tag) (r : Z) : Prop :=
  match t with
  | automatic => (50 ≤ r ≤ 500)%Z
  | manual => r = 300%Z ∨ r = 500%Z ∨ r = 2000%Z ∨ r = 2500%Z
  end.

(** The fields the extraction stage writes or removes. *)
Definition extraction_fields : list string :=
  ["url"; "verified"; "radius"; "_page_url"; "_fallback_url"]%string.

(** A word as [clean_words] returns it. *)
Definition clean_word (w : pystr) : Prop :=
  w ≠ [] ∧ (w ∉ STOPWORDS) ∧ (45%N ∉ w) ∧ Forall (λ c, is_space c = false) w.

(** What the record loop of the geocoder may do to a record. *)
Definition geocoded_from (rec out : list json) : Prop :=
  out = rec ∨
  (rec !! 3%nat = Some (JStr (py "automatic")) ∧
   ∃ la lo,
     out = take 5 rec ++ [JFloat la; JFloat lo] ∨
     out = <[3%nat := JStr (py "manual")]> (take 5 rec) ++ [JFloat la; JFloat lo]).


(** The coordinates of a final record: both absent or both numbers. *)
Definition coordinates_ok (la lo : json) : Prop :=
  (la = JNull ∧ lo = JNull) ∨ (∃ x y, la = JFloat x ∧ lo = JFloat y).

(** Both coordinates of a record are present and not null. *)
Definition has_coordinates (rec : record) : bool :=
  not_none (rec !! "latitude") && not_none (rec !! "longitude").

(** The texts the cascade is built from can be read: the title is a
    string, and so is the subtitle unless it is missing, null, false, zero
    or empty. *)
Definition smart_readable (rec : record) : Prop :=
  is_Some (as_str (default (JStr []) (rec !! "title"))) ∧
  (truthy (default (JStr []) (rec !! "subtitle")) = true →
   is_Some (as_str (default (JStr []) (rec !! "subtitle")))).

(** What the pass of [smart_geocoder.main] does to one record of a
    country: the loop body for an unverified record, nothing otherwise. *)
Definition smart_visit `{Unicode} (api : pystr → api_reply)
    (extract_title_location extract_subtitle_locations : pystr → pystr)
    (country : pystr) (rec : record) : option record :=
  if is_unverified rec
  then smart_step api extract_title_location extract_subtitle_locations country rec
  else Some rec.

(** The query ends with the country name after a space. *)
Definition ends_with_country (country q : pystr) : Prop :=
  ∃ p, q = p ++ py " " ++ country.

(** [if x not in queries: queries.append(x)], under the guard [b]. *)
Definition append_new (b : bool) (x : pystr) (queries : list pystr) : list pystr :=
  if b && bool_decide (x ∉ queries) then queries ++ [x] else queries.

(** The words of both locations that the full query is built from. *)
Definition location_words (title_loc subtitle_loc : pystr) : list pystr :=
  split title_loc ++ split subtitle_loc.

(** The path [/p1/p2/.../pn]. *)
Definition path_of (parts : list pystr) : pystr := py "/" ++ join (py "/") parts.

(** Components a URL path splits back into: none holds a slash, and the
    first and last are not empty. *)
Definition path_components (parts : list pystr) : Prop :=
  Forall (λ p, 47%N ∉ p) parts ∧ head parts ≠ Some [] ∧ last parts ≠ Some [] ∧
  parts ≠ [].

(** The keys of a record of the final Skyline file. *)
Definition final_keys : gset string :=
  list_to_set ["title"; "subtitle"; "url"; "mode"; "radius"; "latitude";
               "longitude"; "verified"]%string.

(** Every white-space code point of the text is a space (U+0020) and no two
    of them follow each other; [prev] tells that a space precedes the
    text. *)
Fixpoint single_spaced (prev : bool) (s : pystr) : bool :=
  match s with
  | [] => true
  | c :: s' =>
      if is_space c then (c =? 32)%N && negb prev && single_spaced true s'
      else single_spaced false s'
  end.

(** Neither white space nor a comma. *)
Definition text_char (c : N) : bool := negb (is_space c) && negb (c =? 44)%N.

(** The text neither begins nor ends with white space or a comma. *)
Definition trimmed (s : pystr) : Prop :=
  (∀ c, head s = Some c → text_char c = true) ∧
  (∀ c, last s = Some c → text_char c = true).

(** ** Example inputs *)

(** A viewport of 0.03 by 0.01 degrees. *)
Definition viewport_wide : geometry :=
  {| location := Some {[ "lat" := 10.005%float; "lng" := 20.005%float ]};
     g_viewport := Some
       {| northeast := Some {[ "lat" := 0.03%float; "lng" := 0.01%float ]};
          southwest := Some {[ "lat" := 0%float; "lng" := 0%float ]} |} |}.

(** A viewport whose corners are 0.30 and 0.32 degrees of latitude and 0.10
    and 0.12 degrees of longitude: exactly 0.02 degrees on both axes. *)
Definition viewport_exact : geometry :=
  {| location := Some {[ "lat" := 0.31%float; "lng" := 0.11%float ]};
     g_viewport := Some
       {| northeast := Some {[ "lat" := 0.32%float; "lng" := 0.12%float ]};
          southwest := Some {[ "lat" := 0.3%float; "lng" := 0.1%float ]} |} |}.

(** A reply whose only candidate has the viewport of 0.03 by 0.01 degrees,
    and a record as [reformat_records.py] writes it. *)
Definition area_reply : api_reply :=
  ApiJson {| status := Some (py "OK");
             candidates := [ {| c_geometry := Some viewport_wide |} ] |}.

Definition rio_record : record :=
  {[ "title" := JStr (py "Rio de Janeiro - Brazil Live cam");
     "subtitle" := JStr (py "View over Rio");
     "mode" := JStr (py "automatic");
     "verified" := JBool false ]}.

(** What [extract_title_location] and [extract_subtitle_locations] return
    for the title and the subtitle of [rio_record]. *)
Definition rio_title_location (title : pystr) : pystr := py "Rio de Janeiro Brazil".
Definition rio_subtitle_locations (subtitle : pystr) : pystr := py "Rio".

(** A batch of two EarthCam records: the first URL answers 200, the second
    request times out, and the second completes first. *)
Definition two_records : list (pystr * record) :=
  [ (py "Norway", {[ "title" := JStr (py "Oslo"); "url" := JStr (py "https://a/") ]});
    (py "Norway", {[ "title" := JStr (py "Bergen"); "url" := JStr (py "https://b/") ]}) ].

Definition first_alive (i : nat) (url : json) : http_reply :=
  match i with
  | O => HttpResponse 200 (py "ok")
  | _ => HttpTimeout
  end.

(** A dataset with a scraped record and a record tagged manual by hand. *)
Definition oslo_data : list (pystr * list (list json)) :=
  [ (py "Norway",
     [ [JStr (py "Oslo - Opera House Live cam"); JStr (py "View of the harbour");
        JStr (py "https://a/")];
       [JStr (py "Bergen Live cam"); JStr (py "Panorama of Bergen");
        JStr (py "https://b/"); JStr (py "manual")] ]) ].

(** Two existing buckets, and a new source with records for one of them
    and for a new country. *)
Definition old_a : record := {[ "title" := JStr (py "a") ]}.
Definition old_b : record := {[ "title" := JStr (py "b") ]}.
Definition new_c : record := {[ "title" := JStr (py "c") ]}.
Definition new_d : record := {[ "title" := JStr (py "d") ]}.

(** A dataset with two unverified WebcamTaxi records and a record of
    another source; the fetch of the first target times out, the second
    page has an iframe. *)
Definition wct_failed_a : record :=
  {[ "source" := JStr (py "WCT"); "verified" := JBool false;
     "url" := JStr (py "https://w/a"); "radius" := JInt 200 ]}.
Definition wct_failed_b : record :=
  {[ "source" := JStr (py "WCT"); "verified" := JBool false;
     "url" := JStr (py "https://w/b"); "radius" := JInt 200 ]}.
Definition ew_failed : record :=
  {[ "source" := JStr (py "EW"); "verified" := JBool false;
     "url" := JStr (py "https://e/"); "radius" := JInt 200 ]}.

Definition retry_data : dataset :=
  [ (py "Norway", [wct_failed_a; ew_failed]); (py "Peru", [wct_failed_b]) ].

Definition first_times_out (i : nat) (url : json) : http_reply :=
  match i with
  | O => HttpTimeout
  | _ => HttpResponse 200 (py "<iframe src='https://player/'>")
  end.

(** ** Further example inputs *)

Definition upper_beach : list (pystr * list (list json)) :=
  [ (py "Spain",
     [ [JStr (py "Live Cams in Spain"); JStr (py "All webcams"); JStr (py "https://i/")];
       [JStr (py "Cadiz - La Caleta Beach Live cam"); JStr (py "View of the beach");
        JStr (py "https://c/")] ]) ].

(** [oslo_data] as [classify_records.py] leaves it. *)
Definition oslo_classified : list (pystr * list (list json)) :=
  [ (py "Norway",
     [ [JStr (py "Oslo - Opera House Live cam"); JStr (py "View of the harbour");
        JStr (py "https://a/"); JStr (py "automatic"); JInt 300];
       [JStr (py "Bergen Live cam"); JStr (py "Panorama of Bergen");
        JStr (py "https://b/"); JStr (py "manual"); JInt 2500] ]) ].

Definition beach_classified : list json :=
  [JStr (py "Cadiz - La Caleta Beach Live cam"); JStr (py "View of the beach");
   JStr (py "https://c/"); JStr (py "automatic"); JInt 200].

(** A record tagged manual by hand, without a radius. *)
Definition bergen_manual : list json :=
  [JStr (py "Bergen Live cam"); JStr (py "Panorama of Bergen");
   JStr (py "https://b/"); JStr (py "manual")].

(** The two EarthCam records after verification: the first alive. *)
Definition two_verified : list (pystr * record) :=
  [ (py "Norway", {[ "title" := JStr (py "Oslo"); "url" := JStr (py "https://a/");
                     "verified" := JBool true; "radius" := JInt 10 ]});
    (py "Norway", {[ "title" := JStr (py "Bergen"); "url" := JStr (py "https://b/");
                     "verified" := JBool false; "radius" := JInt 200 ]}) ].

(** Two WebcamTaxi records as section 2 of [merge_webcamtaxi.main] builds
    them, and as section 3 leaves them when the first fetch times out. *)
Definition two_pages : list (pystr * record) :=
  [ (py "Norway", {[ "title" := JStr (py "Oslo"); "url" := JNull;
                     "_page_url" := JStr (py "https://w/a");
                     "_fallback_url" := JStr (py "https://w/a") ]});
    (py "Peru", {[ "title" := JStr (py "Lima"); "url" := JNull;
                   "_page_url" := JStr (py "https://w/b");
                   "_fallback_url" := JStr (py "https://w/b") ]}) ].

Definition two_extracted : list (pystr * record) :=
  [ (py "Norway", {[ "title" := JStr (py "Oslo"); "url" := JStr (py "https://w/a");
                     "verified" := JBool false; "radius" := JInt 200 ]});
    (py "Peru", {[ "title" := JStr (py "Lima"); "url" := JStr (py "https://player/");
                   "verified" := JBool true; "radius" := JInt 10 ]}) ].

(** An unverified WebcamTaxi record that lost its URL. *)
Definition wct_no_url : record :=
  {[ "source" := JStr (py "WCT"); "verified" := JBool false ]}.

(** A classified dataset for the geocoder: the lookup of the first record
    resolves to an area, the second record is tagged manual. *)
Definition harbour_record : list json :=
  [JStr (py "Oslo Harbour - Live cam"); JStr (py "View of the Harbour in Oslo");
   JStr (py "https://a/"); JStr (py "automatic"); JInt 300].

Definition harbour_scraped : list json :=
  [JStr (py "Oslo Harbour - Live cam"); JStr (py "View of the Harbour in Oslo");
   JStr (py "https://a/")].

Definition harbour_geocoded : list json :=
  [JStr (py "Oslo Harbour - Live cam"); JStr (py "View of the Harbour in Oslo");
   JStr (py "https://a/"); JStr (py "manual"); JInt 300;
   JFloat 10.005%float; JFloat 20.005%float].



(** A record that is already verified. *)
Definition rio_verified : record := <["verified" := JBool true]> rio_record.

(** [rio_record] with the coordinates of [area_reply]. *)
Definition rio_located : record :=
  <["longitude" := JFloat 20.005%float]>
    (<["latitude" := JFloat 10.005%float]> rio_record).

Definition norway_path : list pystr :=
  [py "en"; py "norway"; py "oslo"; py "opera-house.html"].

(** * Properties *)

(** ** Classification engine *)

Lemma landmark_class_radius (kw : pystr) : valid_radius (landmark_class kw).2.
Proof.
  unfold landmark_class, valid_radius.
  repeat case_match; simpl; lia.
Qed.

Section ClassifyFacts.
Context `{Unicode}.

Lemma classify_record_radius (h1 h2 : pystr) :
  valid_radius (classify_record h1 h2).2.
Proof.
  unfold classify_record. cbv zeta.
  repeat case_match; try apply landmark_class_radius;
    unfold valid_radius; simpl; lia.
Qed.

Lemma estimate_radius_for_manual_radius (h1 h2 : pystr) :
  valid_radius (estimate_radius_for_manual h1 h2).
Proof.
  unfold estimate_radius_for_manual, valid_radius. cbv zeta.
  repeat case_match; lia.
Qed.

(** C1. A vague keyword in the combined lower-cased text decides the
    classification: [classify_record] returns [(manual, 2500)] whatever
    landmark keywords the text also holds. *)
Theorem classify_record_vague_first (h1 h2 : pystr) :
  (∃ kw, kw ∈ VAGUE_KEYWORDS ∧
         contains kw (str_lower (h1 ++ py " " ++ h2)) = true) →
  classify_record h1 h2 = (manual, 2500%Z).
Proof.
  intros (kw & Hkw & Hin).
  unfold classify_record. cbv zeta.
  assert (existsb (λ kw, contains kw (str_lower (h1 ++ py " " ++ h2)))
            VAGUE_KEYWORDS = true) as ->; [|done].
  apply existsb_exists. exists kw. split; [|done].
  by apply list_elem_of_In.
Qed.

End ClassifyFacts.

(** The text of the example names a beach and a pier, both landmark
    keywords, next to the vague keyword. *)
Lemma classify_record_vague_first_witness :
  classify_record (H:=basic_latin)
    (py "Brighton Beach Skyline - Live cam") (py "View of the pier")
  = (manual, 2500%Z).
Proof.
  apply (classify_record_vague_first (H:=basic_latin)).
  exists (py "skyline"). split.
  - apply list_elem_of_In. vm_compute. tauto.
  - vm_compute. reflexivity.
Defined.

(** The examples of the specification for the other rules: a landmark
    group, the generic-view fallback, and the default. *)
Example classify_stadium :
  classify_record (H:=basic_latin) (py "Maracana Stadium Live cam") []
  = (automatic, 200%Z).
Proof. vm_compute. reflexivity. Qed.

Example classify_generic_view :
  classify_record (H:=basic_latin) (py "Oslo - Norway Live cam") (py "View from Oslo")
  = (manual, 2000%Z).
Proof. vm_compute. reflexivity. Qed.

Example classify_default :
  classify_record (H:=basic_latin) (py "Oslo - Norway Live cam") (py "Oslo, Norway")
  = (automatic, 500%Z).
Proof. vm_compute. reflexivity. Qed.

Section ClassifyMainFacts.
Context `{Unicode}.
Local Arguments Nat.leb : simpl never.
Local Arguments Nat.ltb : simpl never.

(** Every record of the output comes from an iteration of the loop that
    appended it. *)
Lemma classify_main_inv data out c recs o :
  classify_main data = Some out → (c, recs) ∈ out → o ∈ recs →
  ∃ records rec,
    (c, records) ∈ data ∧ rec ∈ records ∧ classify_step rec = Some (Some o).
Proof.
  intros Hm Hc Ho. apply mapM_Some_1 in Hm.
  apply list_elem_of_lookup in Hc as [i Hi].
  destruct (Forall2_lookup_r _ _ _ _ _ Hm Hi) as ([c' records] & Hd & Hf).
  simpl in Hf.
  destruct (classify_country records) as [res|] eqn:Hcc; simplify_eq/=.
  unfold classify_country in Hcc.
  destruct (mapM classify_step records) as [outs|] eqn:Houts; simplify_eq/=.
  apply list_elem_of_omap in Ho as (x & Hx & Hid).
  destruct x as [x|]; simplify_eq/=.
  apply mapM_Some_1 in Houts. apply list_elem_of_lookup in Hx as [j Hj].
  destruct (Forall2_lookup_r _ _ _ _ _ Houts Hj) as (rec & Hrec & Hstep).
  exists records, rec. split_and!; [by eapply list_elem_of_lookup_2..|done].
Qed.

Lemma is_index_title_tag t : is_index_title (tag_str t) = false.
Proof.
  unfold is_index_title.
  rewrite str_lower_ascii by (by destruct t).
  by destruct t.
Qed.

Lemma as_str_first_field rec h1 :
  as_str (field_or_empty rec 0) = Some h1 →
  (rec = [] ∧ h1 = []) ∨ (∃ rest, rec = JStr h1 :: rest).
Proof.
  destruct rec as [|[] rest]; intros; simplify_eq/=; eauto.
Qed.

(** The title of an appended record is not that of an index page. *)
Lemma classify_step_title rec o t :
  classify_step rec = Some (Some o) → o !! 0%nat = Some (JStr t) →
  is_index_title t = false.
Proof.
  unfold classify_step. intros Hstep Ho.
  destruct (as_str (field_or_empty rec 0)) as [h1|] eqn:Hh1; simplify_eq/=.
  destruct (is_index_title h1) eqn:Hidx; [done|].
  destruct ((4 <=? length rec)%nat && _) eqn:Hman.
  - apply andb_true_iff in Hman as [Hl4 _]. apply Nat.leb_le in Hl4.
    apply as_str_first_field in Hh1 as [[-> _]|[rest ->]]; [simpl in Hl4; lia|].
    destruct (length (JStr h1 :: rest) <? 5)%nat.
    + by destruct (as_str (field_or_empty (JStr h1 :: rest) 1)) as [h2|]; simplify_eq/=.
    + by simplify_eq/=.
  - destruct (as_str (field_or_empty rec 1)) as [h2|]; simplify_eq/=.
    destruct (classify_record h1 h2) as [tg r]. simplify_eq/=.
    apply as_str_first_field in Hh1 as [[-> _]|[rest ->]].
    + simplify_eq/=. apply is_index_title_tag.
    + by simplify_eq/=.
Qed.

(** An appended record is the record that came in tagged manual with a
    radius slot, kept as it is, or it ends with the radius the engine
    assigned, which sits in the radius slot (index 4) when the record came
    with its three scraped fields. *)
Lemma classify_step_radius rec o :
  classify_step rec = Some (Some o) →
  (o = rec ∧ (5 ≤ length rec)%nat ∧ rec !! 3%nat = Some (JStr (py "manual"))) ∨
  (∃ r, last o = Some (JInt r) ∧ valid_radius r ∧
        ((3 ≤ length rec)%nat → o !! 4%nat = Some (JInt r))).
Proof.
  unfold classify_step. intros Hstep.
  destruct (as_str (field_or_empty rec 0)) as [h1|]; simplify_eq/=.
  destruct (is_index_title h1); [done|].
  destruct ((4 <=? length rec)%nat && eq_str (default JNull (rec !! 3%nat)) (py "manual"))
    eqn:Hman.
  - apply andb_true_iff in Hman as [Hl4 Heq]. apply Nat.leb_le in Hl4.
    destruct (length rec <? 5)%nat eqn:Hl5.
    + apply Nat.ltb_lt in Hl5.
      destruct (as_str (field_or_empty rec 1)) as [h2|]; simplify_eq/=.
      right. eexists. split_and!; [apply last_snoc|
        apply (estimate_radius_for_manual_radius h1 h2)|].
      intros _. rewrite lookup_app_r; rewrite length_take; [|lia].
      by replace (4 - 4 `min` length rec)%nat with 0%nat by lia.
    + apply Nat.ltb_ge in Hl5. injection Hstep as <-. left. split_and!; [done..|].
      destruct (rec !! 3%nat) as [[]|]; simplify_eq/=.
      by apply bool_decide_eq_true in Heq as ->.
  - destruct (as_str (field_or_empty rec 1)) as [h2|]; simplify_eq/=.
    pose proof (classify_record_radius h1 h2) as Hr.
    destruct (classify_record h1 h2) as [tg r]. simplify_eq/=.
    right. exists r. split_and!; [|done|].
    + change [JStr (tag_str tg); JInt r] with ([JStr (tag_str tg)] ++ [JInt r]).
      rewrite app_assoc. apply last_snoc.
    + intros Hlen. rewrite lookup_app_r; rewrite length_take; [|lia].
      by replace (4 - 3 `min` length rec)%nat with 1%nat by lia.
Qed.

Lemma index_page_title_code t : index_page_title t = is_index_title t.
Proof.
  unfold index_page_title, begins_ci, is_index_title.
  rewrite (str_lower_ascii (py "Live Cams in")) by reflexivity.
  rewrite (str_lower_ascii (py "Liva Cams in")) by reflexivity.
  reflexivity.
Qed.

(** C9. A record whose title begins, case-insensitively, with "Live Cams
    in" or "Liva Cams in" is skipped by the loop whatever its other fields
    (a manual tag included), and no record of the output dataset has such
    a title. *)
Theorem index_pages_dropped :
  (∀ rec t,
     rec !! 0%nat = Some (JStr t) → index_page_title t = true →
     classify_step rec = Some None) ∧
  (∀ data out c recs o t,
     classify_main data = Some out → (c, recs) ∈ out → o ∈ recs →
     o !! 0%nat = Some (JStr t) → index_page_title t = false).
Proof.
  split.
  - intros rec t Ht Hidx. rewrite index_page_title_code in Hidx.
    destruct rec as [|x rec]; simplify_eq/=.
    unfold classify_step. simpl. by rewrite Hidx.
  - intros data out c recs o t Hmain Hc Ho Ht.
    destruct (classify_main_inv _ _ _ _ _ Hmain Hc Ho) as (records & rec & _ & _ & Hstep).
    rewrite index_page_title_code. by eapply classify_step_title.
Qed.

End ClassifyMainFacts.

(** An index page that came in tagged manual, in upper case. *)
Lemma index_pages_dropped_witness :
  classify_step (H:=basic_latin)
    [JStr (py "LIVE CAMS IN Norway"); JStr (py "Webcams"); JStr (py "u");
     JStr (py "manual"); JInt 1500]
  = Some None.
Proof.
  apply (proj1 (index_pages_dropped (H:=basic_latin))
           _ (py "LIVE CAMS IN Norway")).
  - reflexivity.
  - vm_compute. reflexivity.
Defined.

(** ** Country canonicalizers *)

(** *** Case mapping facts on Basic Latin *)

Ltac no_branch t :=
  lazymatch t with
  | context [if _ then _ else _] => fail
  | _ => idtac
  end.

Ltac char_cases :=
  unfold ascii_lower_char, ascii_upper_char in *;
  unfold is_ascii, is_ascii_upper, is_ascii_lower in *;
  repeat match goal with
    | |- context [(?a <=? ?b)%N] =>
        no_branch a; no_branch b; destruct (N.leb_spec a b); simpl
    | |- context [(?a <? ?b)%N] =>
        no_branch a; no_branch b; destruct (N.ltb_spec a b); simpl
    | |- context [(?a =? ?b)%N] =>
        no_branch a; no_branch b; destruct (N.eqb_spec a b); simpl
    end;
  intros; simpl in *; try lia; try done.

Lemma ascii_lower_char_idem c : ascii_lower_char (ascii_lower_char c) = ascii_lower_char c.
Proof. char_cases. Qed.

Lemma ascii_upper_char_idem c : ascii_upper_char (ascii_upper_char c) = ascii_upper_char c.
Proof. char_cases. Qed.

Lemma is_cased_lower c : is_cased (ascii_lower_char c) = is_cased c.
Proof. unfold is_cased. char_cases. Qed.

Lemma is_cased_upper c : is_cased (ascii_upper_char c) = is_cased c.
Proof. unfold is_cased. char_cases. Qed.

Lemma ascii_title_aux_idem b s :
  ascii_title_aux b (ascii_title_aux b s) = ascii_title_aux b s.
Proof.
  revert b. induction s as [|c s IH]; intros b; [done|].
  simpl. fold (is_cased c).
  destruct b.
  - rewrite ascii_lower_char_idem. fold (is_cased (ascii_lower_char c)).
    by rewrite is_cased_lower, IH.
  - rewrite ascii_upper_char_idem. fold (is_cased (ascii_upper_char c)).
    by rewrite is_cased_upper, IH.
Qed.

Lemma startswith_nil s : startswith s [] = true.
Proof. by destruct s. Qed.

Lemma startswith_cons c s a p :
  startswith (c :: s) (a :: p) = (a =? c)%N && startswith s p.
Proof. done. Qed.

Lemma replace_aux_cons old new c s :
  replace_aux old new 0 (c :: s) =
  if startswith (c :: s) old
  then new ++ replace_aux old new (pred (length old)) s
  else c :: replace_aux old new 0 s.
Proof. done. Qed.

Lemma replace_hyphen_space s :
  replace (py "-") (py " ") s = hyphen_to_space <$> s.
Proof.
  unfold replace. change (py "-") with [45%N]. change (py " ") with [32%N].
  induction s as [|c s IH]; [done|].
  rewrite replace_aux_cons, startswith_cons, startswith_nil, andb_true_r.
  rewrite fmap_cons. change (pred (length [45%N])) with 0%nat. rewrite IH.
  change (hyphen_to_space c) with (if (c =? 45)%N then 32%N else c).
  rewrite (N.eqb_sym c 45).
  by destruct (45 =? c)%N.
Qed.

Lemma ascii_title_aux_no_hyphen b s :
  Forall (λ c, c ≠ 45%N) s → hyphen_to_space <$> ascii_title_aux b s = ascii_title_aux b s.
Proof.
  intros Hs. revert b. induction Hs as [|c s Hc Hs IH]; intros b; [done|].
  simpl. rewrite IH. f_equal. unfold hyphen_to_space.
  destruct b; char_cases.
Qed.

Lemma hyphen_to_space_no_hyphen s : Forall (λ c, c ≠ 45%N) (hyphen_to_space <$> s).
Proof.
  induction s as [|c s IH]; constructor; [|done].
  unfold hyphen_to_space. char_cases.
Qed.

Lemma hyphen_to_space_ascii s :
  forallb is_ascii s = true → forallb is_ascii (hyphen_to_space <$> s) = true.
Proof.
  induction s as [|c s IH]; [done|]. rewrite fmap_cons. cbn [forallb].
  intros [Hc Hs]%andb_true_iff. apply andb_true_iff. split; [|by apply IH].
  unfold hyphen_to_space. revert Hc. char_cases.
Qed.

Lemma ascii_title_aux_ascii b s :
  forallb is_ascii s = true → forallb is_ascii (ascii_title_aux b s) = true.
Proof.
  revert b. induction s as [|c s IH]; intros b; [done|]. cbn [ascii_title_aux forallb].
  intros [Hc Hs]%andb_true_iff. apply andb_true_iff. split; [|by apply IH].
  revert Hc. destruct b; char_cases.
Qed.

Lemma ascii_title_initial s : lower_initial (ascii_title s) = false.
Proof. destruct s as [|c s]; [done|]. simpl. char_cases. Qed.

Lemma slug_keys_lower_initial k :
  k ∈ COUNTRY_SLUG_TABLE.*1 → lower_initial k = true.
Proof.
  assert (Forall (λ k, lower_initial k = true) COUNTRY_SLUG_TABLE.*1) as Hall.
  { unfold COUNTRY_SLUG_TABLE. cbn [fmap list_fmap fst].
    repeat (apply List.Forall_cons; [vm_compute; reflexivity|]).
    apply List.Forall_nil. }
  intros Hk. eapply Forall_forall in Hall; [|exact Hk]. exact Hall.
Qed.

Lemma slug_map_title_None s : COUNTRY_SLUG_MAP !! ascii_title s = None.
Proof.
  apply not_elem_of_list_to_map. intros Hk%slug_keys_lower_initial.
  by rewrite ascii_title_initial in Hk.
Qed.

Lemma resolve_country_alias_fixed k v :
  (k, v) ∈ COUNTRY_ALIAS_TABLE → resolve_country v = v.
Proof.
  intros Hkv.
  assert (Forall (λ kv : pystr * pystr, resolve_country kv.2 = kv.2)
            COUNTRY_ALIAS_TABLE) as Hall.
  { unfold COUNTRY_ALIAS_TABLE.
    repeat (apply List.Forall_cons; [vm_compute; reflexivity|]).
    apply List.Forall_nil. }
  eapply Forall_forall in Hall; [|exact Hkv]. exact Hall.
Qed.

Lemma resolve_country_idem x :
  resolve_country (resolve_country x) = resolve_country x.
Proof.
  unfold resolve_country at 2 3.
  destruct (is_empty_str x || is_empty_str (strip x)) eqn:Hblank; [done|].
  destruct (COUNTRY_ALIASES !! x) as [v|] eqn:Hx; simpl.
  - apply elem_of_list_to_map_2 in Hx. by eapply resolve_country_alias_fixed.
  - unfold resolve_country. by rewrite Hblank, Hx.
Qed.

(** The aliases of the specification. *)
Example england_is_united_kingdom :
  resolve_country (py "England") = py "United Kingdom" ∧
  slug_to_country (H:=basic_latin) (py "england") = py "United Kingdom".
Proof. split; vm_compute; reflexivity. Qed.

Section SlugFacts.
Context `{Unicode}.

Lemma slug_to_country_table_fixed k v :
  (k, v) ∈ COUNTRY_SLUG_TABLE →
  k ≠ py "bosnia-herzegovina" → k ≠ py "dr-congo" →
  slug_to_country v = v.
Proof.
  intros Hkv Hb Hd.
  assert (Forall (λ kv : pystr * pystr,
            kv.1 = py "bosnia-herzegovina" ∨ kv.1 = py "dr-congo" ∨
            (forallb is_ascii kv.2 = true ∧ COUNTRY_SLUG_MAP !! kv.2 = None ∧
             ascii_title (hyphen_to_space <$> kv.2) = kv.2))
            COUNTRY_SLUG_TABLE) as Hall.
  { unfold COUNTRY_SLUG_TABLE.
    repeat (apply List.Forall_cons;
            [first [ left; reflexivity
                   | right; left; reflexivity
                   | right; right; split_and!; vm_compute; reflexivity ]|]).
    apply List.Forall_nil. }
  eapply Forall_forall in Hall; [|exact Hkv].
  destruct Hall as [?|[?|(Hascii & Hnone & Hfix)]]; [done..|].
  cbn [fst snd] in *.
  unfold slug_to_country. rewrite Hnone, replace_hyphen_space.
  rewrite str_title_ascii by by apply hyphen_to_space_ascii.
  exact Hfix.
Qed.

Lemma slug_to_country_idem_unmapped slug :
  forallb is_ascii slug = true → COUNTRY_SLUG_MAP !! slug = None →
  slug_to_country (slug_to_country slug) = slug_to_country slug.
Proof.
  intros Hascii Hnone. unfold slug_to_country at 2 3. rewrite Hnone.
  rewrite replace_hyphen_space.
  rewrite str_title_ascii by by apply hyphen_to_space_ascii.
  unfold slug_to_country. rewrite slug_map_title_None, replace_hyphen_space.
  unfold ascii_title.
  rewrite ascii_title_aux_no_hyphen by apply hyphen_to_space_no_hyphen.
  rewrite str_title_ascii
    by by apply ascii_title_aux_ascii, hyphen_to_space_ascii.
  apply ascii_title_aux_idem.
Qed.

(** C4, as amended.  The display-name canonicalizer is idempotent on
    every input.  The slug canonicalizer is idempotent on every slug of
    Basic Latin code points other than "bosnia-herzegovina" and
    "dr-congo", the two slugs whose mapped name is not stable under
    title-casing. *)
Theorem canonicalize_idempotent :
  (∀ x, resolve_country (resolve_country x) = resolve_country x) ∧
  (∀ slug,
     forallb is_ascii slug = true →
     slug ≠ py "bosnia-herzegovina" → slug ≠ py "dr-congo" →
     slug_to_country (slug_to_country slug) = slug_to_country slug).
Proof.
  split; [apply resolve_country_idem|].
  intros slug Hascii Hb Hd.
  destruct (COUNTRY_SLUG_MAP !! slug) as [v|] eqn:Hslug.
  - unfold slug_to_country at 2 3. rewrite Hslug.
    apply elem_of_list_to_map_2 in Hslug.
    by eapply slug_to_country_table_fixed.
  - by apply slug_to_country_idem_unmapped.
Qed.

End SlugFacts.

Lemma canonicalize_idempotent_witness :
  slug_to_country (H:=basic_latin) (slug_to_country (H:=basic_latin) (py "faroe-islands"))
  = slug_to_country (H:=basic_latin) (py "faroe-islands").
Proof.
  apply (proj2 (canonicalize_idempotent (H:=basic_latin))).
  - vm_compute. reflexivity.
  - vm_compute. discriminate.
  - vm_compute. discriminate.
Defined.

(** The slug canonicalizer applied to its own output re-cases the "and"
    of the mapped name. *)
Lemma slug_to_country_not_idempotent :
  slug_to_country (H:=basic_latin) (py "bosnia-herzegovina")
    = py "Bosnia and Herzegovina" ∧
  slug_to_country (H:=basic_latin)
    (slug_to_country (H:=basic_latin) (py "bosnia-herzegovina"))
    = py "Bosnia And Herzegovina" ∧
  slug_to_country (H:=basic_latin)
    (slug_to_country (H:=basic_latin) (py "bosnia-herzegovina"))
    ≠ slug_to_country (H:=basic_latin) (py "bosnia-herzegovina").
Proof.
  split_and!; [vm_compute; reflexivity..|vm_compute; discriminate].
Qed.

(** ** Query extraction *)

Section QueryFacts.
Context `{Unicode}.

(** C6, as amended.  For the title "Porto Seguro - Praia de Taperapuan
    Live cam" and the subtitle "Praia de Taperapuan, Porto Seguro" the
    intersection strategy returns "porto seguro praia de": the tokens
    "porto" and "seguro" are in it, "taperapuan" is not, because the
    subtitle token keeps its comma. *)
Theorem porto_seguro_query :
  extract_search_query (py "Porto Seguro - Praia de Taperapuan Live cam")
    (py "Praia de Taperapuan, Porto Seguro")
  = Some (py "porto seguro praia de") ∧
  clean_words (py "Praia de Taperapuan, Porto Seguro")
  = [py "praia"; py "de"; py "taperapuan,"; py "porto"; py "seguro"] ∧
  split (py "porto seguro praia de")
  = [py "porto"; py "seguro"; py "praia"; py "de"] ∧
  contains (py "taperapuan") (py "porto seguro praia de") = false.
Proof.
  unfold extract_search_query, clean_words.
  rewrite (str_lower_ascii (py "Porto Seguro - Praia de Taperapuan Live cam"))
    by reflexivity.
  rewrite (str_lower_ascii (py "Praia de Taperapuan, Porto Seguro"))
    by reflexivity.
  split_and!; vm_compute; reflexivity.
Qed.

End QueryFacts.

(** The query of the example has no token "taperapuan". *)
Lemma porto_seguro_query_lacks_taperapuan :
  extract_search_query (H:=basic_latin)
    (py "Porto Seguro - Praia de Taperapuan Live cam")
    (py "Praia de Taperapuan, Porto Seguro")
  = Some (py "porto seguro praia de") ∧
  py "taperapuan" ∉ split (py "porto seguro praia de").
Proof.
  split; [vm_compute; reflexivity|].
  intros Hin. apply list_elem_of_In in Hin. vm_compute in Hin.
  repeat destruct Hin as [Hin|Hin]; try discriminate Hin. exact Hin.
Qed.

(** ** Geocoding *)

Lemma SFleb_not_SFltb a b : SFleb a b = true → SFltb b a = false.
Proof.
  unfold SFleb, SFltb.
  destruct a as [sa|sa| |sa ma ea], b as [sb|sb| |sb mb eb]; simpl;
    repeat match goal with s : bool |- _ => destruct s end; simpl; try done.
  all: rewrite (Z.compare_antisym eb ea);
    change (Pos.compare_cont Eq ma mb) with (Pos.compare ma mb);
    change (Pos.compare_cont Eq mb ma) with (Pos.compare mb ma);
    rewrite (Pos.compare_antisym mb ma);
    destruct (eb ?= ea)%Z; simpl; try done;
    by destruct (mb ?= ma)%positive.
Qed.

(** On binary64 values, [x <= y] excludes [y < x]. *)
Lemma float_le_not_gt (x y : float) :
  (x <=? y)%float = true → (y <? x)%float = false.
Proof. rewrite leb_spec, ltb_spec. apply SFleb_not_SFltb. Qed.

Lemma geocode_reply_is_area data r :
  geocode_reply data = Some r → is_area r = viewport_is_area (reply_geometry data).
Proof.
  unfold geocode_reply, reply_geometry.
  destruct (negb _); [done|].
  destruct (candidates data) as [|first rest]; [done|]. simpl.
  destruct (c_geometry first) as [g|]; simpl.
  - destruct (default ∅ (location g) !! "lat"), (default ∅ (location g) !! "lng");
      intros; by simplify_eq.
  - rewrite lookup_empty. done.
Qed.

Lemma viewport_is_area_corners g ne sw :
  g_viewport g = Some {| northeast := Some ne; southwest := Some sw |} →
  ne ≠ ∅ → sw ≠ ∅ →
  viewport_is_area g =
    (MAX_VIEWPORT_SPAN_DEG <? lat_span ne sw)%float ||
    (MAX_VIEWPORT_SPAN_DEG <? lng_span ne sw)%float.
Proof.
  intros Hvp Hne Hsw. unfold viewport_is_area. rewrite Hvp. simpl.
  by rewrite !bool_decide_eq_true_2.
Qed.

(** C5, as amended.  The classification of a result is that of the
    viewport of its first candidate.  With both corners present and not
    empty, the result is an area exactly when the binary64 value of
    [abs(ne.lat - sw.lat)] or of [abs(ne.lng - sw.lng)], a missing member
    counting as 0, is greater than the binary64 value of 0.02; when both
    are at most that value it is a point.  Without a viewport, or with a
    corner missing or empty, it is a point. *)
Theorem viewport_classification :
  (∀ data r,
     geocode_reply data = Some r →
     is_area r = viewport_is_area (reply_geometry data)) ∧
  (∀ g ne sw,
     g_viewport g = Some {| northeast := Some ne; southwest := Some sw |} →
     ne ≠ ∅ → sw ≠ ∅ →
     let lat_diff :=
       PrimFloat.abs (default 0 (ne !! "lat") - default 0 (sw !! "lat"))%float in
     let lng_diff :=
       PrimFloat.abs (default 0 (ne !! "lng") - default 0 (sw !! "lng"))%float in
     (viewport_is_area g = true ↔
        (0.02 <? lat_diff)%float = true ∨ (0.02 <? lng_diff)%float = true) ∧
     ((lat_diff <=? 0.02)%float = true → (lng_diff <=? 0.02)%float = true →
      viewport_is_area g = false)) ∧
  (∀ g, g_viewport g = None → viewport_is_area g = false) ∧
  (∀ g vp,
     g_viewport g = Some vp →
     default ∅ (northeast vp) = ∅ ∨ default ∅ (southwest vp) = ∅ →
     viewport_is_area g = false).
Proof.
  split_and!.
  - apply geocode_reply_is_area.
  - intros g ne sw Hvp Hne Hsw lat_diff lng_diff.
    rewrite (viewport_is_area_corners g ne sw) by done.
    change (lat_span ne sw) with lat_diff. change (lng_span ne sw) with lng_diff.
    change MAX_VIEWPORT_SPAN_DEG with 0.02%float. split.
    + apply orb_true_iff.
    + intros Hlat%float_le_not_gt Hlng%float_le_not_gt. by rewrite Hlat, Hlng.
  - intros g Hvp. unfold viewport_is_area. rewrite Hvp. simpl.
    by rewrite (bool_decide_eq_false_2 (∅ ≠ ∅)) by (intros Hemp; by apply Hemp).
  - intros g vp Hvp Hcorner. unfold viewport_is_area. rewrite Hvp. simpl.
    destruct Hcorner as [-> | ->].
    + by rewrite (bool_decide_eq_false_2 (∅ ≠ ∅)) by (intros Hemp; by apply Hemp).
    + rewrite (bool_decide_eq_false_2 (∅ ≠ ∅)) by (intros Hemp; by apply Hemp).
      by rewrite andb_false_r.
Qed.

Lemma viewport_classification_witness : viewport_is_area viewport_wide = true.
Proof.
  apply (proj2 (proj1 (proj1 (proj2 viewport_classification)
           viewport_wide
           {[ "lat" := 0.03%float; "lng" := 0.01%float ]}
           {[ "lat" := 0%float; "lng" := 0%float ]}
           eq_refl
           ltac:(intros Hemp; apply (f_equal (λ m : corner, m !! "lat")) in Hemp;
                 vm_compute in Hemp; discriminate Hemp)
           ltac:(intros Hemp; apply (f_equal (λ m : corner, m !! "lat")) in Hemp;
                 vm_compute in Hemp; discriminate Hemp)))).
  left. vm_compute. reflexivity.
Defined.

(** A viewport from 0.30 to 0.32 degrees of latitude and from 0.10 to 0.12
    degrees of longitude spans exactly 0.02 degrees on both axes and is
    classified as an area: the binary64 difference of 0.32 and 0.30 is
    0.020000000000000018, above the binary64 value of 0.02, while that of
    0.12 and 0.10 is below it. *)
Lemma viewport_exact_span_is_area :
  viewport_is_area viewport_exact = true ∧
  (0.32 - 0.3)%float = 0.020000000000000018%float ∧
  (0.02 <? 0.32 - 0.3)%float = true ∧
  (0.02 <? 0.12 - 0.1)%float = false.
Proof. split_and!; vm_compute; reflexivity. Qed.

(** The examples of the specification: 0.01 degrees on both axes is a
    point, exactly the threshold on both axes is a point, 0.03 degrees on
    the longitude alone is an area. *)
Example viewport_small_is_point :
  viewport_is_area
    {| location := None;
       g_viewport := Some
         {| northeast := Some {[ "lat" := 0.01%float; "lng" := 0.01%float ]};
            southwest := Some {[ "lat" := 0%float; "lng" := 0%float ]} |} |}
  = false.
Proof. vm_compute. reflexivity. Qed.

Example viewport_threshold_is_point :
  viewport_is_area
    {| location := None;
       g_viewport := Some
         {| northeast := Some {[ "lat" := 0.02%float; "lng" := 0.02%float ]};
            southwest := Some {[ "lat" := 0%float; "lng" := 0%float ]} |} |}
  = false.
Proof. vm_compute. reflexivity. Qed.

Example viewport_long_is_area :
  viewport_is_area
    {| location := None;
       g_viewport := Some
         {| northeast := Some {[ "lat" := 0.01%float; "lng" := 0.03%float ]};
            southwest := Some {[ "lat" := 0%float; "lng" := 0%float ]} |} |}
  = true.
Proof. vm_compute. reflexivity. Qed.

(** *** What the drivers write for a resolved lookup *)

Section GeocoderFacts.
Context `{Unicode}.

Lemma foldl_Forall {A B} (P : B → Prop) (step : list B → A → list B) xs acc :
  (∀ acc x, Forall P acc → Forall P (step acc x)) →
  Forall P acc → Forall P (foldl step acc xs).
Proof.
  intros Hstep. revert acc. induction xs as [|x xs IH]; intros acc Hacc; [done|].
  simpl. by apply IH, Hstep.
Qed.

Lemma clean_words_nonempty text : Forall (λ w, w ≠ []) (clean_words text).
Proof.
  unfold clean_words. apply foldl_Forall; [|constructor].
  intros acc word Hacc. simpl.
  destruct (replace (py "-") [] word) as [|c w] eqn:Hw; simpl; [done|].
  case_bool_decide; [|done]. apply Forall_app. split; [done|].
  by repeat constructor.
Qed.

Lemma join_nonempty sep (ws : list pystr) :
  ws ≠ [] → Forall (λ w, w ≠ []) ws → join sep ws ≠ [].
Proof.
  destruct ws as [|w ws]; [done|]. intros _ Hws.
  apply Forall_cons in Hws as [Hw _].
  destruct w as [|c w]; [done|]. by destruct ws.
Qed.

Lemma extract_search_query_nonempty h1 h2 query :
  extract_search_query h1 h2 = Some query → query ≠ [].
Proof.
  unfold extract_search_query.
  destruct (bool_decide (clean_words h1 = []) || _); [done|].
  pose proof (clean_words_nonempty h1) as Hwords.
  set (h2_set := list_to_set (clean_words h2) : gset pystr).
  assert (∀ words acc,
            Forall (λ w : pystr, w ≠ []) words → Forall (λ w : pystr, w ≠ []) acc.1 →
            Forall (λ w : pystr, w ≠ [])
              (foldl (λ '(common, seen) word,
                        if bool_decide (word ∈ h2_set) && bool_decide (word ∉ seen)
                        then (common ++ [word], ({[ word ]} ∪ seen : gset pystr))
                        else (common, seen)) acc words).1) as Hfold.
  { induction words as [|w words IH]; intros [common seen] Hws Hacc; [done|].
    apply Forall_cons in Hws as [Hw Hws]. simpl. apply IH; [done|].
    destruct (_ && _); simpl; [|done].
    apply Forall_app. split; [done|]. by repeat constructor. }
  specialize (Hfold (clean_words h1) ([], ∅) Hwords (Forall_nil_2 _)).
  destruct (foldl _ _ _) as [common seen]. simpl in Hfold.
  case_bool_decide as Hcommon; [done|].
  intros [= <-]. by apply join_nonempty.
Qed.

(** [skyline_geocoder.py]: the record is rebuilt from its first five
    fields, the tag is re-marked for an area, and the coordinates are
    appended. *)
Lemma skyline_step_resolved api record h1 h2 query result :
  field_or_empty record 0 = JStr h1 →
  field_or_empty record 1 = JStr h2 →
  field_or_empty record 3 = JStr (py "automatic") →
  extract_search_query h1 h2 = Some query →
  geocode_query_skyline (api query) = Returned (Some result) →
  skyline_step api record =
    Some ((if is_area result
           then <[3%nat := JStr (py "manual")]> (take 5 record)
           else take 5 record)
          ++ [JFloat (lat result); JFloat (lng result)]).
Proof.
  intros Hh1 Hh2 Htag Hq Hgeo. unfold skyline_step.
  rewrite Hh1, Hh2, Htag. simpl. rewrite Hq.
  pose proof (extract_search_query_nonempty _ _ _ Hq) as Hne.
  destruct query as [|c query]; [done|]. simpl. rewrite Hgeo.
  by destruct (is_area result).
Qed.

(** [smart_geocoder.py]: the coordinates are stored, a point marks the
    record verified, an area leaves [verified] alone, and [mode] is never
    written. *)
Lemma smart_step_resolved api title_location subtitle_locations country
    (rec : record) queries result :
  not_none (rec !! "latitude") && not_none (rec !! "longitude") = false →
  query_cascade title_location subtitle_locations country rec = Some queries →
  try_queries api queries = Some result →
  ∃ out : record,
    smart_step api title_location subtitle_locations country rec = Some out ∧
    out !! "latitude" = Some (JFloat (lat result)) ∧
    out !! "longitude" = Some (JFloat (lng result)) ∧
    out !! "mode" = rec !! "mode" ∧
    (is_area result = false → out !! "verified" = Some (JBool true)) ∧
    (is_area result = true → out !! "verified" = rec !! "verified").
Proof.
  intros Hcoords Hqs Htry. unfold smart_step. rewrite Hcoords, Hqs. simpl.
  destruct queries as [|q queries]; [done|].
  rewrite Htry. destruct (is_area result); eexists; (split; [done|]);
    split_and!; intros; try done; by simplify_map_eq.
Qed.

(** C3, as amended.  For a record whose lookup resolves, the resolved
    latitude and longitude are stored on the record.  In
    [skyline_geocoder.py] an area re-marks the tag as manual and a point
    leaves it automatic, and the list record has no verified field.  In
    [smart_geocoder.py] a point sets verified to true, an area leaves
    verified as it was, and the mode is not changed. *)
Theorem geocoded_record_marking :
  (∀ api record h1 h2 query result,
     field_or_empty record 0 = JStr h1 →
     field_or_empty record 1 = JStr h2 →
     field_or_empty record 3 = JStr (py "automatic") →
     extract_search_query h1 h2 = Some query →
     geocode_query_skyline (api query) = Returned (Some result) →
     skyline_step api record =
       Some ((if is_area result
              then <[3%nat := JStr (py "manual")]> (take 5 record)
              else take 5 record)
             ++ [JFloat (lat result); JFloat (lng result)])) ∧
  (∀ api title_location subtitle_locations country (rec : record) queries result,
     not_none (rec !! "latitude") && not_none (rec !! "longitude") = false →
     query_cascade title_location subtitle_locations country rec = Some queries →
     try_queries api queries = Some result →
     ∃ out : record,
       smart_step api title_location subtitle_locations country rec = Some out ∧
       out !! "latitude" = Some (JFloat (lat result)) ∧
       out !! "longitude" = Some (JFloat (lng result)) ∧
       out !! "mode" = rec !! "mode" ∧
       (is_area result = false → out !! "verified" = Some (JBool true)) ∧
       (is_area result = true → out !! "verified" = rec !! "verified")).
Proof.
  split.
  - apply skyline_step_resolved.
  - apply smart_step_resolved.
Qed.

End GeocoderFacts.

Lemma rio_cascade :
  query_cascade (H:=basic_latin) rio_title_location rio_subtitle_locations
    (py "Brazil") rio_record
  = Some [py "Rio de Janeiro Brazil"; py "Rio de Janeiro Brazil Brazil";
          py "Rio Brazil"].
Proof. vm_compute. reflexivity. Qed.

Lemma rio_resolves_to_area :
  try_queries (λ _, area_reply)
    [py "Rio de Janeiro Brazil"; py "Rio de Janeiro Brazil Brazil"; py "Rio Brazil"]
  = Some {| lat := 10.005%float; lng := 20.005%float; is_area := true |}.
Proof. vm_compute. reflexivity. Qed.

Lemma geocoded_record_marking_witness :
  ∃ out : record,
    smart_step (H:=basic_latin) (λ _, area_reply) rio_title_location
      rio_subtitle_locations (py "Brazil") rio_record = Some out ∧
    out !! "latitude" = Some (JFloat 10.005%float) ∧
    out !! "longitude" = Some (JFloat 20.005%float) ∧
    out !! "mode" = rio_record !! "mode" ∧
    (is_area {| lat := 10.005%float; lng := 20.005%float; is_area := true |} = false →
     out !! "verified" = Some (JBool true)) ∧
    (is_area {| lat := 10.005%float; lng := 20.005%float; is_area := true |} = true →
     out !! "verified" = rio_record !! "verified").
Proof.
  apply (proj2 (geocoded_record_marking (H:=basic_latin))
           (λ _, area_reply) rio_title_location rio_subtitle_locations (py "Brazil")
           rio_record _
           {| lat := 10.005%float; lng := 20.005%float; is_area := true |}
           ltac:(vm_compute; reflexivity) rio_cascade rio_resolves_to_area).
Defined.

(** In [smart_geocoder.py] a lookup that resolves to an area leaves the
    record automatic. *)
Lemma smart_area_keeps_mode :
  try_queries (λ _, area_reply)
    [py "Rio de Janeiro Brazil"; py "Rio de Janeiro Brazil Brazil"; py "Rio Brazil"]
    = Some {| lat := 10.005%float; lng := 20.005%float; is_area := true |} ∧
  smart_step (H:=basic_latin) (λ _, area_reply) rio_title_location
    rio_subtitle_locations (py "Brazil") rio_record
    = Some (<["longitude" := JFloat 20.005%float]>
              (<["latitude" := JFloat 10.005%float]> rio_record)) ∧
  <["longitude" := JFloat 20.005%float]>
    (<["latitude" := JFloat 10.005%float]> rio_record) !! "mode"
    = Some (JStr (py "automatic")) ∧
  JStr (py "automatic") ≠ JStr (py "manual").
Proof.
  split_and!; [vm_compute; reflexivity..|vm_compute; discriminate].
Qed.

(** ** Verification workers *)

(** *** Collection in completion order *)

Lemma collect_snoc {A} n (task : nat → A) order idx :
  collect n task (order ++ [idx]) = <[idx := Some (task idx)]> (collect n task order).
Proof. unfold collect. by rewrite foldl_snoc. Qed.

Lemma collect_length {A} n (task : nat → A) order :
  length (collect n task order) = n.
Proof.
  induction order as [|idx order IH] using rev_ind.
  - apply length_replicate.
  - by rewrite collect_snoc, length_insert.
Qed.

(** A task that has completed has its own result in its slot, whatever
    completed before or after it. *)
Lemma collect_lookup {A} n (task : nat → A) order i :
  i ∈ order → (i < n)%nat → collect n task order !! i = Some (Some (task i)).
Proof.
  intros Hin Hi. induction order as [|idx order IH] using rev_ind.
  - by apply elem_of_nil in Hin.
  - rewrite collect_snoc. destruct (decide (idx = i)) as [->|Hne].
    + apply list_lookup_insert_eq. by rewrite collect_length.
    + rewrite list_lookup_insert_ne by done. apply IH.
      apply elem_of_app in Hin as [Hin|Hin]; [done|].
      apply list_elem_of_singleton in Hin. congruence.
Qed.

(** When every submitted task has completed, the results do not depend on
    the completion order. *)
Lemma collect_complete {A} n (task : nat → A) order :
  order ≡ₚ seq 0 n → collect n task order = (λ i, Some (task i)) <$> seq 0 n.
Proof.
  intros Hperm. apply list_eq. intros i.
  destruct (decide (i < n)%nat) as [Hi|Hi].
  - rewrite collect_lookup; [|rewrite Hperm; apply elem_of_seq; lia|done].
    rewrite list_lookup_fmap, lookup_seq_lt by done. done.
  - rewrite !lookup_ge_None_2; [done|..].
    + rewrite length_fmap, length_seq. lia.
    + rewrite collect_length. lia.
Qed.

Lemma lookup_results {A} n (task : nat → A) i :
  (i < n)%nat → ((λ i, Some (task i)) <$> seq 0 n) !! i = Some (Some (task i)).
Proof. intros Hi. by rewrite list_lookup_fmap, lookup_seq_lt by done. Qed.

(** *** EarthCam liveness *)

Section VerifyFacts.
Variable http : nat → json → http_reply.

Lemma verify_all_complete order transformed :
  order ≡ₚ seq 0 (length transformed) →
  Forall (λ cr : pystr * record, is_Some (cr.2 !! "url")) transformed →
  verify_all http order transformed =
    Some (imap (λ i '(country, rec),
                  (country, verified_record (verify_outcome http i rec) rec))
               transformed).
Proof.
  intros Hperm Hurl. unfold verify_all.
  destruct (mapM (λ '(_, rec), rec !! "url") transformed) as [urls|] eqn:Hurls.
  2:{ apply mapM_None_1, Exists_exists in Hurls as ([c rec] & Hin & Hnone).
      eapply Forall_forall in Hurl; [|done]. simpl in Hurl.
      rewrite Hnone in Hurl. by destruct Hurl. }
  apply mapM_Some_1 in Hurls. simpl. f_equal.
  rewrite collect_complete by done. unfold apply_verification.
  apply imap_ext. intros i [c rec] Hi. simpl.
  rewrite lookup_results by by eapply lookup_lt_Some.
  destruct (Forall2_lookup_l _ _ _ _ _ Hurls Hi) as (u & Hu & Hrec).
  simpl in Hrec. unfold verified_record, verify_outcome, url_of.
  by rewrite Hu, Hrec.
Qed.

End VerifyFacts.

(** *** WebcamTaxi embed extraction *)

Lemma apply_iframe_result_Some result (rec : record) :
  has_internal_fields rec →
  apply_iframe_result result rec = Some (extracted_record result rec).
Proof.
  intros [[page Hpage] [fb Hfb]]. unfold apply_iframe_result, extracted_record.
  destruct result as [iframe_url success]. simpl.
  destruct (embed_found iframe_url success); simpl.
  - by simplify_map_eq.
  - rewrite Hfb. simpl. by simplify_map_eq.
Qed.

Lemma apply_iframe_result_radius result (rec rec' : record) :
  apply_iframe_result result rec = Some rec' →
  rec' !! "radius" = Some (JInt VERIFIED_RADIUS) ∨
  rec' !! "radius" = Some (JInt UNVERIFIED_RADIUS).
Proof.
  unfold apply_iframe_result. destruct result as [iframe_url success].
  destruct (embed_found iframe_url success); simpl.
  - intros Hrec. simplify_option_eq. left. by simplify_map_eq.
  - intros Hrec. simplify_option_eq. right. by simplify_map_eq.
Qed.

Section IframeFacts.
Variable http : nat → json → http_reply.
Variable find_iframe_src : pystr → option pystr.
Variable html_unescape : pystr → pystr.

Lemma extract_all_complete order transformed :
  order ≡ₚ seq 0 (length transformed) →
  Forall (λ cr : pystr * record, has_internal_fields cr.2) transformed →
  extract_all http find_iframe_src html_unescape order transformed =
    Some (imap (λ i '(country, rec),
                  (country, extracted_record (fetch_outcome http find_iframe_src html_unescape i rec) rec))
               transformed).
Proof.
  intros Hperm Hfields. unfold extract_all.
  destruct (mapM (λ '(_, rec), rec !! "_page_url") transformed) as [pages|] eqn:Hpages.
  2:{ apply mapM_None_1, Exists_exists in Hpages as ([c rec] & Hin & Hnone).
      eapply Forall_forall in Hfields; [|done]. destruct Hfields as [Hpage _].
      simpl in Hpage. rewrite Hnone in Hpage. by destruct Hpage. }
  apply mapM_Some_1 in Hpages. simpl.
  rewrite collect_complete by done.
  apply mapM_Some_2, Forall2_same_length_lookup. split.
  { by rewrite !length_imap. }
  intros i [j [c rec]] y Hi Hy.
  apply list_lookup_imap_Some in Hi as (cr & Hcr & Heq). simplify_eq.
  apply list_lookup_imap_Some in Hy as (cr & Hcr' & ->). simplify_eq.
  rewrite lookup_results by by eapply lookup_lt_Some. simpl.
  destruct (Forall2_lookup_l _ _ _ _ _ Hpages Hcr) as (u & Hu & Hrec).
  simpl in Hrec.
  eapply Forall_lookup in Hfields; [|done]. simpl in Hfields.
  rewrite apply_iframe_result_Some by done. simpl.
  unfold fetch_outcome. by rewrite Hu, Hrec.
Qed.

(** The fetch succeeds with an embed exactly for a 200 reply in which an
    iframe is found whose reference is not empty once unescaped. *)
Lemma embed_found_fetch r :
  embed_found (fetch_iframe_url find_iframe_src html_unescape r).1
              (fetch_iframe_url find_iframe_src html_unescape r).2 = true ↔
  ∃ text src,
    r = HttpResponse 200 text ∧ find_iframe_src text = Some src ∧
    unescape_text html_unescape src ≠ [].
Proof.
  unfold fetch_iframe_url, embed_found. split.
  - destruct r as [| |status_code text]; simpl; try done.
    destruct (Z.eqb_spec status_code 200) as [->|]; [|done].
    destruct (find_iframe_src text) as [src|] eqn:Hsrc; [|done]. simpl.
    intros Hne. exists text, src. split_and!; [done..|].
    by destruct (unescape_text html_unescape src).
  - intros (text & src & -> & Hsrc & Hne). simpl. rewrite Hsrc. simpl.
    by destruct (unescape_text html_unescape src).
Qed.

End IframeFacts.

Lemma verify_url_true r :
  verify_url r = true ↔ ∃ text, r = HttpResponse 200 text.
Proof.
  split.
  - destruct r as [| |status_code text]; simpl; try done.
    intros ->%Z.eqb_eq. by exists text.
  - by intros [text ->].
Qed.

(** C2.  When every submitted task has completed ([order] is a
    permutation of the task indices), both worker stages return, and the
    dataset they return is the same for every completion order.  A record
    whose URL answers with status 200 (liveness), or for which the fetch
    reports success with a non-empty embed reference (extraction), leaves
    with verified true and radius 10; every other outcome (another status,
    a time-out, a transport error, no iframe) leaves it with verified
    false and radius 200, its own URL kept (liveness) or its fallback URL
    written (extraction). *)
Theorem workers_outcome :
  (∀ http order transformed,
     order ≡ₚ seq 0 (length transformed) →
     Forall (λ cr : pystr * record, is_Some (cr.2 !! "url")) transformed →
     ∃ out,
       verify_all http order transformed = Some out ∧
       (∀ order', order' ≡ₚ seq 0 (length transformed) →
                  verify_all http order' transformed = Some out) ∧
       ∀ i c (rec : record),
         transformed !! i = Some (c, rec) →
         ∃ rec' : record,
           out !! i = Some (c, rec') ∧
           rec' !! "url" = rec !! "url" ∧
           (verify_url (http i (url_of rec)) = true →
            rec' !! "verified" = Some (JBool true) ∧
            rec' !! "radius" = Some (JInt 10)) ∧
           (verify_url (http i (url_of rec)) = false →
            rec' !! "verified" = Some (JBool false) ∧
            rec' !! "radius" = Some (JInt 200))) ∧
  (∀ http find_iframe_src html_unescape order transformed,
     order ≡ₚ seq 0 (length transformed) →
     Forall (λ cr : pystr * record, has_internal_fields cr.2) transformed →
     ∃ out,
       extract_all http find_iframe_src html_unescape order transformed = Some out ∧
       (∀ order', order' ≡ₚ seq 0 (length transformed) →
                  extract_all http find_iframe_src html_unescape order' transformed
                  = Some out) ∧
       ∀ i c (rec : record) iframe_url success,
         transformed !! i = Some (c, rec) →
         fetch_outcome http find_iframe_src html_unescape i rec = (iframe_url, success) →
         ∃ rec' : record,
           out !! i = Some (c, rec') ∧
           (embed_found iframe_url success = true →
            rec' !! "url" = Some (JStr (default [] iframe_url)) ∧
            rec' !! "verified" = Some (JBool true) ∧
            rec' !! "radius" = Some (JInt 10)) ∧
           (embed_found iframe_url success = false →
            rec' !! "url" = rec !! "_fallback_url" ∧
            rec' !! "verified" = Some (JBool false) ∧
            rec' !! "radius" = Some (JInt 200))) ∧
  (∀ r, verify_url r = true ↔ ∃ text, r = HttpResponse 200 text) ∧
  (∀ find_iframe_src html_unescape r,
     embed_found (fetch_iframe_url find_iframe_src html_unescape r).1
                 (fetch_iframe_url find_iframe_src html_unescape r).2 = true ↔
     ∃ text src,
       r = HttpResponse 200 text ∧ find_iframe_src text = Some src ∧
       unescape_text html_unescape src ≠ []).
Proof.
  split_and!.
  - intros http order transformed Hperm Hurl. eexists. split_and!.
    + by apply verify_all_complete.
    + intros order' Hperm'. by apply verify_all_complete.
    + intros i c rec Hi. eexists. split_and!.
      * rewrite list_lookup_imap, Hi. done.
      * unfold verified_record. by simplify_map_eq.
      * unfold verify_outcome. intros ->. unfold verified_record.
        by simplify_map_eq.
      * unfold verify_outcome. intros ->. unfold verified_record.
        by simplify_map_eq.
  - intros http find_iframe_src html_unescape order transformed Hperm Hfields.
    eexists. split_and!.
    + by apply extract_all_complete.
    + intros order' Hperm'. by apply extract_all_complete.
    + intros i c rec iframe_url success Hi Hfetch. eexists. split_and!.
      * rewrite list_lookup_imap, Hi. done.
      * rewrite Hfetch. unfold extracted_record. simpl. intros ->.
        by simplify_map_eq.
      * rewrite Hfetch. unfold extracted_record. simpl. intros ->.
        eapply Forall_lookup in Hfields; [|done].
        destruct Hfields as [_ [fb Hfb]]. simpl in Hfb.
        rewrite Hfb. by simplify_map_eq.
  - apply verify_url_true.
  - apply embed_found_fetch.
Qed.

Lemma workers_outcome_witness :
  is_Some (verify_all first_alive [1; 0]%nat two_records).
Proof.
  destruct (proj1 workers_outcome first_alive [1; 0]%nat two_records) as (out & Hout & _).
  - apply perm_swap.
  - repeat constructor; simpl; eexists; vm_compute; reflexivity.
  - rewrite Hout. by eexists.
Defined.

(** ** Radius invariant *)

Lemma verify_all_radius http order transformed out c (rec : record) :
  verify_all http order transformed = Some out → (c, rec) ∈ out →
  ∃ r, rec !! "radius" = Some (JInt r) ∧ valid_radius r.
Proof.
  unfold verify_all. intros Hout Hin. simplify_option_eq.
  apply elem_of_lookup_imap_1 in Hin as (i & [c' rec0] & Heq & _).
  simplify_eq. eexists. split; [by simplify_map_eq|].
  unfold valid_radius, VERIFIED_RADIUS, UNVERIFIED_RADIUS.
  destruct (default false _); lia.
Qed.

Lemma extract_all_radius http find_iframe_src html_unescape order transformed
    out c (rec : record) :
  extract_all http find_iframe_src html_unescape order transformed = Some out →
  (c, rec) ∈ out →
  ∃ r, rec !! "radius" = Some (JInt r) ∧ valid_radius r.
Proof.
  unfold extract_all. intros Hout Hin. simplify_option_eq.
  apply mapM_Some_1 in Hout.
  apply list_elem_of_lookup in Hin as [i Hi].
  destruct (Forall2_lookup_r _ _ _ _ _ Hout Hi) as ([j [c' rec0]] & _ & Hstep).
  simplify_option_eq.
  match goal with
  | Hres : apply_iframe_result _ _ = Some _ |- _ =>
      apply apply_iframe_result_radius in Hres as [Hr|Hr]
  end; eexists; (split; [exact Hr|]);
    unfold valid_radius, VERIFIED_RADIUS, UNVERIFIED_RADIUS; lia.
Qed.

(** C7, as amended.  Every radius that [classify_record] or
    [estimate_radius_for_manual] returns, and both radii of the
    verification workers, are positive and at most 2500.  Every record
    that leaves a worker stage has an integer radius in that range.  A
    record that leaves the classification stage ends with a radius the
    engine assigned, which sits in the radius slot (index 4) when the
    record came with its three scraped fields; the one exception is a
    record that came in tagged manual with five or more fields, which is
    kept as it is. *)
Theorem radius_invariant :
  (∀ `{Unicode} h1 h2, valid_radius (classify_record h1 h2).2) ∧
  (∀ `{Unicode} h1 h2, valid_radius (estimate_radius_for_manual h1 h2)) ∧
  valid_radius VERIFIED_RADIUS ∧
  valid_radius UNVERIFIED_RADIUS ∧
  (∀ `{Unicode} data out c recs o,
     classify_main data = Some out → (c, recs) ∈ out → o ∈ recs →
     ∃ records rec,
       (c, records) ∈ data ∧ rec ∈ records ∧
       classify_step rec = Some (Some o) ∧
       ((o = rec ∧ (5 ≤ length rec)%nat ∧ rec !! 3%nat = Some (JStr (py "manual"))) ∨
        (∃ r, last o = Some (JInt r) ∧ valid_radius r ∧
              ((3 ≤ length rec)%nat → o !! 4%nat = Some (JInt r))))) ∧
  (∀ http order transformed out c (rec : record),
     verify_all http order transformed = Some out → (c, rec) ∈ out →
     ∃ r, rec !! "radius" = Some (JInt r) ∧ valid_radius r) ∧
  (∀ http find_iframe_src html_unescape order transformed out c (rec : record),
     extract_all http find_iframe_src html_unescape order transformed = Some out →
     (c, rec) ∈ out →
     ∃ r, rec !! "radius" = Some (JInt r) ∧ valid_radius r).
Proof.
  split_and!.
  - intros U h1 h2. apply classify_record_radius.
  - intros U h1 h2. apply estimate_radius_for_manual_radius.
  - unfold valid_radius, VERIFIED_RADIUS. lia.
  - unfold valid_radius, UNVERIFIED_RADIUS. lia.
  - intros U data out c recs o Hmain Hc Ho.
    destruct (classify_main_inv _ _ _ _ _ Hmain Hc Ho)
      as (records & rec & Hdata & Hrec & Hstep).
    exists records, rec. split_and!; [done..|].
    by apply classify_step_radius.
  - apply verify_all_radius.
  - apply extract_all_radius.
Qed.

Lemma radius_invariant_witness :
  ∃ records rec,
    (py "Norway", records) ∈ oslo_data ∧ rec ∈ records ∧
    classify_step (H:=basic_latin) rec
      = Some (Some [JStr (py "Bergen Live cam"); JStr (py "Panorama of Bergen");
                    JStr (py "https://b/"); JStr (py "manual"); JInt 2500]) ∧
    (([JStr (py "Bergen Live cam"); JStr (py "Panorama of Bergen");
       JStr (py "https://b/"); JStr (py "manual"); JInt 2500] = rec ∧
      (5 ≤ length rec)%nat ∧ rec !! 3%nat = Some (JStr (py "manual"))) ∨
     (∃ r, last [JStr (py "Bergen Live cam"); JStr (py "Panorama of Bergen");
                 JStr (py "https://b/"); JStr (py "manual"); JInt 2500]
           = Some (JInt r) ∧ valid_radius r ∧
           ((3 ≤ length rec)%nat →
            [JStr (py "Bergen Live cam"); JStr (py "Panorama of Bergen");
             JStr (py "https://b/"); JStr (py "manual"); JInt 2500] !! 4%nat
            = Some (JInt r)))).
Proof.
  eapply (proj1 (proj2 (proj2 (proj2 (proj2 radius_invariant)))) basic_latin oslo_data).
  - vm_compute. reflexivity.
  - apply list_elem_of_here.
  - apply list_elem_of_further, list_elem_of_here.
Defined.

(** A record tagged manual by hand leaves the classification stage as it
    came: with a negative radius, or with nothing in the radius slot.  A
    record that came with its title alone leaves with three fields, the
    radius slot empty. *)
Lemma manual_record_keeps_radius :
  classify_main (H:=basic_latin)
    [(py "Norway", [bergen_manual ++ [JInt (-5)]; bergen_manual ++ [JNull]])]
  = Some [(py "Norway", [bergen_manual ++ [JInt (-5)]; bergen_manual ++ [JNull]])] ∧
  (bergen_manual ++ [JInt (-5)]) !! 4%nat = Some (JInt (-5)) ∧
  ¬ valid_radius (-5) ∧
  (bergen_manual ++ [JNull]) !! 4%nat = Some JNull ∧
  classify_step (H:=basic_latin) [JStr (py "Bergen Live cam")]
  = Some (Some [JStr (py "Bergen Live cam"); JStr (py "automatic"); JInt 500]) ∧
  [JStr (py "Bergen Live cam"); JStr (py "automatic"); JInt 500] !! 4%nat
  = (None : option json).
Proof.
  split_and!; try (vm_compute; reflexivity).
  unfold valid_radius. lia.
Qed.

(** ** Merge *)

Lemma merge_transformed_lookup (transformed : list (pystr * record))
    (combined : gmap pystr (list record)) (c : pystr) (pre : list record) :
  combined !! c = Some pre →
  merge_transformed combined transformed !! c = Some (pre ++ added_for c transformed).
Proof.
  revert combined pre.
  induction transformed as [|[c' rec] transformed IH]; intros combined pre Hpre.
  - unfold added_for. simpl. by rewrite app_nil_r.
  - unfold merge_transformed. simpl. fold (merge_transformed
      (<[c' := default [] (combined !! c') ++ [rec]]> combined) transformed).
    unfold added_for. rewrite filter_cons. simpl.
    destruct (decide (c' = c)) as [->|Hne].
    + rewrite (IH _ (pre ++ [rec])).
      * by rewrite <- app_assoc.
      * rewrite Hpre. simpl. apply lookup_insert_eq.
    + rewrite (IH _ pre); [done|]. by rewrite lookup_insert_ne.
Qed.

Lemma elem_of_sorted_items (combined : gmap pystr (list record)) (c : pystr)
    (bucket : list record) :
  (c, bucket) ∈ sorted_items combined ↔ combined !! c = Some bucket.
Proof.
  unfold sorted_items. rewrite merge_sort_Permutation.
  apply elem_of_map_to_list.
Qed.

Lemma enrich_slw_lookup (wl_data : gmap pystr (list record)) (c : pystr) :
  enrich_slw wl_data !! c = (λ records, enrich_record <$> records) <$> wl_data !! c.
Proof. unfold enrich_slw. apply lookup_fmap. Qed.

(** C8.  A bucket that exists when the merge loop starts is, in the
    merged dataset, that same list of records followed by the records of
    the new source for that country, in their order; the dataset has no
    other bucket for the country.  In [merge_webcams.py] the buckets at
    that point are those of the input file with the source and subregion
    fields set by the step before the merge, same records in the same
    order. *)
Theorem merge_append_only :
  (∀ (combined : gmap pystr (list record)) (transformed : list (pystr * record))
     (c : pystr) (pre : list record),
     combined !! c = Some pre →
     (c, pre ++ added_for c transformed) ∈ merge_webcamtaxi combined transformed ∧
     ∀ bucket, (c, bucket) ∈ merge_webcamtaxi combined transformed →
               bucket = pre ++ added_for c transformed) ∧
  (∀ (wl_data : gmap pystr (list record)) (transformed : list (pystr * record))
     (c : pystr) (pre : list record),
     enrich_slw wl_data !! c = Some pre →
     (c, pre ++ added_for c transformed) ∈ merge_webcams wl_data transformed ∧
     ∀ bucket, (c, bucket) ∈ merge_webcams wl_data transformed →
               bucket = pre ++ added_for c transformed) ∧
  (∀ (wl_data : gmap pystr (list record)) (c : pystr) (raw : list record),
     wl_data !! c = Some raw →
     enrich_slw wl_data !! c = Some (enrich_record <$> raw)).
Proof.
  split_and!.
  - intros combined transformed c pre Hpre.
    pose proof (merge_transformed_lookup transformed _ _ _ Hpre) as Hmerged.
    unfold merge_webcamtaxi. split.
    + by apply elem_of_sorted_items.
    + intros bucket Hbucket%elem_of_sorted_items. congruence.
  - intros wl_data transformed c pre Hpre.
    pose proof (merge_transformed_lookup transformed _ _ _ Hpre) as Hmerged.
    unfold merge_webcams. split.
    + by apply elem_of_sorted_items.
    + intros bucket Hbucket%elem_of_sorted_items. congruence.
  - intros wl_data c raw Hraw. by rewrite enrich_slw_lookup, Hraw.
Qed.

Lemma merge_append_only_witness :
  (py "Norway", [old_a; old_b] ++ added_for (py "Norway")
                   [(py "Norway", new_c); (py "Peru", new_d)])
  ∈ merge_webcamtaxi {[ py "Norway" := [old_a; old_b] ]}
      [(py "Norway", new_c); (py "Peru", new_d)].
Proof.
  apply (proj1 merge_append_only {[ py "Norway" := [old_a; old_b] ]}
           [(py "Norway", new_c); (py "Peru", new_d)] (py "Norway") [old_a; old_b]).
  apply lookup_singleton_eq.
Defined.

(** ** Retry pass *)

(** *** Places of a dataset *)

Lemma record_at_update_eq f p (combined : dataset) :
  record_at (update_at f p combined) p = f <$> record_at combined p.
Proof.
  unfold record_at, update_at. rewrite list_lookup_alter_eq.
  destruct (combined !! p.1) as [[country records]|]; [|done].
  simpl. apply list_lookup_alter_eq.
Qed.

Lemma record_at_update_ne f p q (combined : dataset) :
  p ≠ q → record_at (update_at f p combined) q = record_at combined q.
Proof.
  intros Hne. unfold record_at, update_at.
  destruct (decide (p.1 = q.1)) as [Heq|Hk].
  - rewrite <- Heq, list_lookup_alter_eq.
    destruct (combined !! p.1) as [[country records]|]; [|done].
    simpl. apply list_lookup_alter_ne. intros Hidx.
    apply Hne. destruct p, q. simpl in *. congruence.
  - by rewrite list_lookup_alter_ne.
Qed.

Lemma elem_of_country_targets k shift records p :
  p ∈ country_targets k shift records ↔
  ∃ idx rec, records !! idx = Some rec ∧ is_retry_target rec = true ∧
             p = (k, shift idx).
Proof.
  unfold country_targets. rewrite list_elem_of_omap. split.
  - intros (o & Ho & Hid). simpl in Hid. subst o.
    apply elem_of_lookup_imap_1 in Ho as (idx & rec & Heq & Hrec).
    exists idx, rec. destruct (is_retry_target rec); by simplify_eq.
  - intros (idx & rec & Hrec & Htarget & ->). exists (Some (k, shift idx)).
    split; [|done].
    apply list_elem_of_lookup. exists idx.
    rewrite list_lookup_imap, Hrec. simpl. by rewrite Htarget.
Qed.

Lemma country_targets_NoDup k shift records :
  Inj (=) (=) shift → NoDup (country_targets k shift records).
Proof.
  revert shift. induction records as [|rec records IH]; intros shift Hinj.
  - constructor.
  - unfold country_targets. rewrite imap_cons. simpl.
    fold (country_targets k (shift ∘ S) records).
    assert (NoDup (country_targets k (shift ∘ S) records)) as Hrest.
    { apply IH. intros i j Hij. simpl in Hij. apply Hinj in Hij. lia. }
    destruct (is_retry_target rec); simpl; [|done].
    constructor; [|done].
    intros (idx & rec' & _ & _ & Heq)%elem_of_country_targets.
    simpl in Heq. injection Heq as Heq. apply Hinj in Heq. lia.
Qed.

Lemma wct_targets_unfold (combined : dataset) :
  wct_targets combined =
  mjoin (imap (λ k cr, country_targets k id cr.2) combined).
Proof.
  unfold wct_targets. f_equal. apply imap_ext. by intros k [c records] _.
Qed.

Lemma elem_of_join_imap {A B} (f : nat → A → list B) (l : list A) (x : B) :
  x ∈ mjoin (imap f l) ↔ ∃ k y, l !! k = Some y ∧ x ∈ f k y.
Proof.
  rewrite list_elem_of_join. split.
  - intros (block & Hx & Hblock).
    apply elem_of_lookup_imap_1 in Hblock as (k & y & -> & Hy). eauto.
  - intros (k & y & Hy & Hx). exists (f k y). split; [done|].
    by eapply elem_of_lookup_imap_2.
Qed.

Lemma join_imap_NoDup {A B} (f : nat → A → list (nat * B)) (l : list A) (n : nat) :
  (∀ k y, NoDup (f k y)) → (∀ k y p, p ∈ f k y → p.1 = (n + k)%nat) →
  NoDup (mjoin (imap f l)).
Proof.
  revert f n. induction l as [|y l IH]; intros f n Hnodup Htag.
  - constructor.
  - rewrite imap_cons. simpl. apply NoDup_app. split_and!.
    + apply Hnodup.
    + intros p Hp (k & y' & _ & Hp')%elem_of_join_imap.
      apply Htag in Hp. apply Htag in Hp'. simpl in Hp'. lia.
    + apply (IH _ (S n)).
      * intros k y'. apply Hnodup.
      * intros k y' p Hp. apply Htag in Hp. simpl in Hp. lia.
Qed.

(** No record is targeted twice. *)
Lemma wct_targets_NoDup (combined : dataset) : NoDup (wct_targets combined).
Proof.
  rewrite wct_targets_unfold. apply (join_imap_NoDup _ _ 0).
  - intros k cr. by apply country_targets_NoDup, _.
  - intros k cr p (idx & rec & _ & _ & ->)%elem_of_country_targets. done.
Qed.

(** The targets are the places of the records with source "WCT" and
    verified [False]. *)
Lemma elem_of_wct_targets (combined : dataset) p :
  p ∈ wct_targets combined ↔
  ∃ rec, record_at combined p = Some rec ∧ is_retry_target rec = true.
Proof.
  rewrite wct_targets_unfold, elem_of_join_imap. unfold record_at. split.
  - intros (k & [c records] & Hk & (idx & rec & Hrec & Htarget & ->)%elem_of_country_targets).
    exists rec. simpl. rewrite Hk. simpl. done.
  - intros (rec & Hrec & Htarget). destruct p as [k idx]. simpl in Hrec.
    destruct (combined !! k) as [[c records]|] eqn:Hk; [|done]. simpl in Hrec.
    exists k, (c, records). split; [done|].
    apply elem_of_country_targets. by exists idx, rec.
Qed.

Lemma is_retry_target_spec (rec : record) :
  is_retry_target rec = true ↔
  rec !! "source" = Some (JStr (py "WCT")) ∧ rec !! "verified" = Some (JBool false).
Proof.
  unfold is_retry_target, eq_str. split.
  - intros [Hsrc Hver]%andb_true_iff.
    destruct (rec !! "source") as [[| | | |s]|]; simpl in Hsrc; try done.
    apply bool_decide_eq_true in Hsrc as ->.
    by destruct (rec !! "verified") as [[|[]| | |]|].
  - intros [-> ->]. vm_compute. reflexivity.
Qed.

Lemma imap_pair_snd {A} (l : list A) : (imap pair l).*2 = l.
Proof.
  apply list_eq. intros i.
  rewrite list_lookup_fmap, list_lookup_imap. by destruct (l !! i).
Qed.

Lemma elem_of_imap_pair {A} (l : list A) i x :
  (i, x) ∈ imap pair l ↔ l !! i = Some x.
Proof.
  split.
  - intros (j & y & Heq & Hy)%elem_of_lookup_imap_1. by simplify_eq.
  - intros Hx. by apply (elem_of_lookup_imap_2 pair l x i).
Qed.

(** *** The writes of the apply loop *)

Lemma retry_fold_Some (task : nat → option pystr * Z * bool)
    (results : list (option (option pystr * Z * bool)))
    (ips : list (nat * (nat * nat))) (combined : dataset) :
  (∀ i p, (i, p) ∈ ips → results !! i = Some (Some (task i))) →
  foldl (λ acc '(i, p),
           combined ← acc;
           result ← mjoin (results !! i);
           Some (update_at (apply_retry_result result) p combined))
        (Some combined) ips
  = Some (apply_all task ips combined).
Proof.
  revert combined. induction ips as [|[i p] ips IH]; intros combined Hres; [done|].
  simpl. rewrite (Hres i p) by apply list_elem_of_here. simpl.
  apply IH. intros j q Hjq. apply (Hres j q). by apply list_elem_of_further.
Qed.

Lemma apply_all_other task ips (combined : dataset) q :
  q ∉ ips.*2 → record_at (apply_all task ips combined) q = record_at combined q.
Proof.
  revert combined. induction ips as [|[i p] ips IH]; intros combined Hq; [done|].
  simpl in *. apply not_elem_of_cons in Hq as [Hne Hq].
  unfold apply_all in *. simpl. rewrite IH by done.
  by apply record_at_update_ne.
Qed.

Lemma apply_all_target task ips (combined : dataset) i q :
  NoDup ips.*2 → (i, q) ∈ ips →
  record_at (apply_all task ips combined) q
  = apply_retry_result (task i) <$> record_at combined q.
Proof.
  revert combined. induction ips as [|[j p] ips IH]; intros combined Hnodup Hin.
  - by apply elem_of_nil in Hin.
  - simpl in Hnodup. apply NoDup_cons in Hnodup as [Hp Hnodup].
    apply elem_of_cons in Hin as [Heq|Hin].
    + simplify_eq. unfold apply_all. simpl.
      fold (apply_all task ips (update_at (apply_retry_result (task j)) p combined)).
      rewrite apply_all_other by done. apply record_at_update_eq.
    + assert (p ≠ q) as Hne.
      { intros ->. apply Hp. apply list_elem_of_fmap. by exists (i, q). }
      unfold apply_all. simpl.
      fold (apply_all task ips (update_at (apply_retry_result (task j)) p combined)).
      rewrite IH by done. by rewrite record_at_update_ne.
Qed.

Section RetryFacts.
Variable http : nat → json → http_reply.
Variable find_iframe_src : pystr → option pystr.
Variable html_unescape : pystr → pystr.

Lemma retry_main_complete order (combined : dataset) :
  order ≡ₚ seq 0 (length (wct_targets combined)) →
  (∀ p (rec : record),
     p ∈ wct_targets combined → record_at combined p = Some rec →
     is_Some (rec !! "url")) →
  retry_main http find_iframe_src html_unescape order combined
  = Some (apply_all (retry_task http find_iframe_src html_unescape combined)
            (imap pair (wct_targets combined)) combined).
Proof.
  intros Hperm Hurl. unfold retry_main.
  destruct (length (wct_targets combined) =? 0)%nat eqn:Htotal.
  { apply Nat.eqb_eq, nil_length_inv in Htotal. by rewrite Htotal. }
  destruct (mapM (λ p, rec ← record_at combined p; rec !! "url") (wct_targets combined))
    as [urls|] eqn:Hurls.
  2:{ apply mapM_None_1, Exists_exists in Hurls as (p & Hp & Hnone).
      pose proof Hp as (rec & Hrec & _)%elem_of_wct_targets.
      destruct (Hurl p rec Hp Hrec) as [u Hu].
      rewrite Hrec in Hnone. simpl in Hnone. congruence. }
  apply mapM_Some_1 in Hurls. simpl.
  rewrite collect_complete by done.
  apply retry_fold_Some. intros i p Hip%elem_of_imap_pair.
  rewrite lookup_results by by eapply lookup_lt_Some.
  do 2 f_equal. unfold retry_task. do 3 f_equal.
  destruct (Forall2_lookup_l _ _ _ _ _ Hurls Hip) as (u & Hu & Hrec).
  rewrite Hu, Hip. simpl. by rewrite Hrec.
Qed.

End RetryFacts.

(** C10.  The retry pass targets exactly the records with source "WCT"
    and verified [False].  When every fetch has completed the pass returns;
    a record that is not a target is as it was; a target whose fetch fails
    again (no success, or no embed reference) is as it was too, url,
    verified, radius and every other field; a target whose fetch finds an
    embed gets that url, verified true and radius 10. *)
Theorem retry_frame :
  (∀ (combined : dataset) p (rec : record),
     record_at combined p = Some rec →
     (p ∈ wct_targets combined ↔
      rec !! "source" = Some (JStr (py "WCT")) ∧
      rec !! "verified" = Some (JBool false))) ∧
  (∀ http find_iframe_src html_unescape order (combined : dataset),
     order ≡ₚ seq 0 (length (wct_targets combined)) →
     (∀ p (rec : record),
        p ∈ wct_targets combined → record_at combined p = Some rec →
        is_Some (rec !! "url")) →
     ∃ final : dataset,
       retry_main http find_iframe_src html_unescape order combined = Some final ∧
       (∀ p, p ∉ wct_targets combined → record_at final p = record_at combined p) ∧
       (∀ i p (rec : record) iframe_url http_status success,
          wct_targets combined !! i = Some p →
          record_at combined p = Some rec →
          fetch_iframe_url_retry find_iframe_src html_unescape (http i (url_of rec))
            = (iframe_url, http_status, success) →
          (embed_found iframe_url success = false →
           record_at final p = Some rec) ∧
          (embed_found iframe_url success = true →
           record_at final p =
             Some (<["radius" := JInt 10]>
                     (<["verified" := JBool true]>
                        (<["url" := JStr (default [] iframe_url)]> rec)))))).
Proof.
  split.
  - intros combined p rec Hrec. rewrite elem_of_wct_targets, <- is_retry_target_spec.
    split.
    + intros (rec' & Hrec' & Htarget). congruence.
    + intros Htarget. by exists rec.
  - intros http find_iframe_src html_unescape order combined Hperm Hurl.
    eexists. split_and!.
    + by apply retry_main_complete.
    + intros p Hp. apply apply_all_other. by rewrite imap_pair_snd.
    + intros i p rec iframe_url http_status success Hi Hrec Hfetch.
      assert (record_at
                (apply_all (retry_task http find_iframe_src html_unescape combined)
                   (imap pair (wct_targets combined)) combined) p
              = Some (apply_retry_result (iframe_url, http_status, success) rec))
        as Hfinal.
      { rewrite (apply_all_target _ _ _ i).
        - assert (retry_task http find_iframe_src html_unescape combined i
                  = (iframe_url, http_status, success)) as ->.
          { rewrite <- Hfetch. unfold retry_task, url_of.
            rewrite Hi. simpl. by rewrite Hrec. }
          by rewrite Hrec.
        - rewrite imap_pair_snd. apply wct_targets_NoDup.
        - by apply elem_of_imap_pair. }
      rewrite Hfinal. unfold apply_retry_result. split; by intros ->.
Qed.

Lemma retry_data_targets_have_url p (rec : record) :
  p ∈ wct_targets retry_data → record_at retry_data p = Some rec →
  is_Some (rec !! "url").
Proof.
  intros Hp Hrec.
  assert (wct_targets retry_data = [(0, 0); (1, 0)]%nat) as Htargets
    by (vm_compute; reflexivity).
  rewrite Htargets in Hp.
  apply elem_of_cons in Hp as [->|Hp]; [|apply list_elem_of_singleton in Hp as ->].
  - injection Hrec as <-. by eexists.
  - injection Hrec as <-. by eexists.
Qed.

Lemma retry_frame_witness :
  is_Some (retry_main first_times_out (λ _, Some (py "https://player/")) id
             [1; 0]%nat retry_data).
Proof.
  destruct (proj2 retry_frame first_times_out (λ _, Some (py "https://player/")) id
              [1; 0]%nat retry_data (perm_swap _ _ _) retry_data_targets_have_url)
    as (final & Hfinal & _).
  rewrite Hfinal. by eexists.
Defined.

(** * Further properties of the scripts *)

(** ** Classification: re-runs, kept records, case *)

Section ClassifyRerun.
Context `{Unicode}.
Local Arguments Nat.leb : simpl never.
Local Arguments Nat.ltb : simpl never.
Local Arguments is_index_title : simpl never.
Local Arguments classify_record : simpl never.
Local Arguments estimate_radius_for_manual : simpl never.

Lemma manual_tag_test (rec : list json) :
  (4 <=? length rec)%nat && eq_str (default JNull (rec !! 3%nat)) (py "manual") = true
  ↔ rec !! 3%nat = Some (JStr (py "manual")).
Proof.
  split.
  - intros [Hl Heq]%andb_true_iff.
    destruct (rec !! 3%nat) as [[]|]; simplify_eq/=.
    by apply bool_decide_eq_true in Heq as ->.
  - intros Hm. apply andb_true_iff. split.
    + apply Nat.leb_le. apply lookup_lt_Some in Hm. lia.
    + by rewrite Hm.
Qed.

(** The branches of the loop body. *)
Lemma classify_step_cases rec r :
  classify_step rec = Some r →
  ∃ h1, as_str (field_or_empty rec 0) = Some h1 ∧
    ((is_index_title h1 = true ∧ r = None) ∨
     (is_index_title h1 = false ∧ rec !! 3%nat = Some (JStr (py "manual")) ∧
      ((length rec = 4%nat ∧
        ∃ h2, as_str (field_or_empty rec 1) = Some h2 ∧
              r = Some (rec ++ [JInt (estimate_radius_for_manual h1 h2)])) ∨
       ((5 ≤ length rec)%nat ∧ r = Some rec))) ∨
     (is_index_title h1 = false ∧ rec !! 3%nat ≠ Some (JStr (py "manual")) ∧
      ∃ h2, as_str (field_or_empty rec 1) = Some h2 ∧
            r = Some (take 3 rec ++ [JStr (tag_str (classify_record h1 h2).1);
                                     JInt (classify_record h1 h2).2]))).
Proof.
  unfold classify_step. intros Hstep.
  destruct (as_str (field_or_empty rec 0)) as [h1|]; simplify_eq/=.
  exists h1. split; [done|].
  destruct (is_index_title h1); [left; by simplify_eq|].
  destruct ((4 <=? length rec)%nat && eq_str (default JNull (rec !! 3%nat)) (py "manual"))
    eqn:Hman.
  - apply manual_tag_test in Hman. right. left. split_and!; [done..|].
    pose proof (lookup_lt_Some _ _ _ Hman) as Hl4.
    destruct (length rec <? 5)%nat eqn:Hl5.
    + apply Nat.ltb_lt in Hl5. left. split; [lia|].
      destruct (as_str (field_or_empty rec 1)) as [h2|]; simplify_eq/=.
      exists h2. split; [done|]. by rewrite take_ge by lia.
    + apply Nat.ltb_ge in Hl5. right. by simplify_eq.
  - right. right. split_and!; [done| |].
    + intros Hm%manual_tag_test. congruence.
    + destruct (as_str (field_or_empty rec 1)) as [h2|]; simplify_eq/=.
      exists h2. split; [done|].
      destruct (classify_record h1 h2) as [tg rr]. by simplify_eq/=.
Qed.

(** A record the loop appended is appended unchanged by a second run. *)
Lemma classify_step_fixed rec o :
  (3 ≤ length rec)%nat →
  classify_step rec = Some (Some o) → classify_step o = Some (Some o).
Proof.
  intros Hlen Hstep.
  destruct (classify_step_cases _ _ Hstep) as (h1 & Hh1 & Hcases).
  destruct rec as [|x0 [|x1 [|x2 rec]]]; simpl in Hlen; try lia.
  destruct x0; simplify_eq/=.
  destruct Hcases as [[_ ?]|[(Hidx & Hman & Hcase)|(Hidx & Hman & h2 & Hh2 & Hr)]];
    [done| |].
  - destruct Hcase as [(Hl4 & h2 & Hh2 & Hr)|[Hl5 Hr]]; simplify_eq; [|done].
    destruct rec as [|x3 [|? ?]]; simplify_eq/=.
    unfold classify_step. simpl. by rewrite Hidx.
  - destruct x1; simplify_eq/=.
    unfold classify_step. simpl. rewrite Hidx.
    destruct (classify_record h1 h2) as [tg r] eqn:Hcr. simpl.
    by destruct tg.
Qed.

Lemma omap_id_Some {A} (l : list A) : omap id (Some <$> l) = l.
Proof. induction l as [|x l IH]; [done|]. simpl. f_equal. exact IH. Qed.

Lemma classify_country_fixed records outs :
  Forall (λ rec, (3 ≤ length rec)%nat) records →
  classify_country records = Some outs → classify_country outs = Some outs.
Proof.
  unfold classify_country. intros Hlen Hc.
  destruct (mapM classify_step records) as [steps|] eqn:Hsteps; simplify_eq/=.
  apply mapM_Some_1 in Hsteps.
  assert (mapM classify_step (omap id steps) = Some (Some <$> omap id steps)) as ->.
  { apply mapM_Some_2.
    induction Hsteps as [|rec r records steps Hstep Hrest IH]; [constructor|].
    apply Forall_cons in Hlen as [Hl Hlen].
    destruct r as [o|]; simpl; [|by apply IH].
    constructor; [|by apply IH]. by eapply classify_step_fixed. }
  simpl. f_equal. apply omap_id_Some.
Qed.

(** X1.  [classify_records.py] overwrites its input file.  On a dataset
    whose records all have the three scraped fields, a run that completes
    writes a dataset that a second run leaves exactly as it is. *)
Theorem classify_main_idempotent data out :
  Forall (λ cr : pystr * list (list json),
            Forall (λ rec, (3 ≤ length rec)%nat) cr.2) data →
  classify_main data = Some out →
  classify_main out = Some out.
Proof.
  unfold classify_main. intros Hlen Hm. apply mapM_Some_1 in Hm.
  apply mapM_Some_2.
  induction Hm as [|[c records] [c' outs] data out Hstep Hrest IH]; [constructor|].
  apply Forall_cons in Hlen as [Hl Hlen]. simpl in Hl.
  constructor; [|by apply IH].
  destruct (classify_country records) as [res|] eqn:Hcc; simplify_eq/=.
  by rewrite (classify_country_fixed _ _ Hl Hcc).
Qed.

(** The records the loop keeps, in order. *)
Lemma classify_country_kept records outs :
  classify_country records = Some outs →
  Forall2 (λ rec o, classify_step rec = Some (Some o))
    (filter (λ rec, index_record rec = false) records) outs.
Proof.
  unfold classify_country. intros Hc.
  destruct (mapM classify_step records) as [steps|] eqn:Hsteps; simplify_eq/=.
  apply mapM_Some_1 in Hsteps.
  induction Hsteps as [|rec r records steps Hstep Hrest IH]; [constructor|].
  rewrite filter_cons.
  destruct (classify_step_cases _ _ Hstep) as (h1 & Hh1 & Hcases).
  assert (index_record rec = is_index_title h1) as Hir.
  { unfold index_record. by rewrite Hh1. }
  destruct (is_index_title h1) eqn:Hidx.
  - destruct Hcases as [[_ ->]|[(? & _)|(? & _)]]; try congruence.
    rewrite decide_False by congruence. simpl. apply IH.
  - rewrite decide_True by done.
    destruct r as [o|].
    + simpl. constructor; [done|apply IH].
    + destruct Hcases
        as [[? _]|[(_ & _ & [(_ & ? & _ & ?)|[_ ?]])|(_ & _ & ? & _ & ?)]];
        congruence.
Qed.

(** X2.  The classification keeps the countries in their order, and the
    output list of a country holds, in input order, one record for each
    input record that is not an index page: nothing else is dropped,
    nothing is added, and a country whose records are all dropped stays
    with an empty list. *)
Theorem classify_main_keeps data out :
  classify_main data = Some out →
  Forall2 (λ d o,
             o.1 = d.1 ∧
             Forall2 (λ rec r, classify_step rec = Some (Some r))
               (filter (λ rec, index_record rec = false) d.2) o.2)
    data out.
Proof.
  unfold classify_main. intros Hm. apply mapM_Some_1 in Hm.
  induction Hm as [|[c records] [c' outs] data out Hstep Hrest IH]; [constructor|].
  constructor; [|done]. simpl.
  destruct (classify_country records) as [res|] eqn:Hcc; simplify_eq/=.
  split; [done|]. by apply classify_country_kept.
Qed.

(** X3.  A record with the three scraped fields that the loop appends
    keeps its title, subtitle and URL.  A record that came in tagged
    manual leaves tagged manual with all the fields it came with; any
    other record leaves with exactly five fields, whatever it had beyond
    the third, and with the tag automatic or manual. *)
Theorem classify_step_frame rec o :
  (3 ≤ length rec)%nat →
  classify_step rec = Some (Some o) →
  take 3 o = take 3 rec ∧
  (rec !! 3%nat = Some (JStr (py "manual")) →
   o !! 3%nat = Some (JStr (py "manual")) ∧ take (length rec) o = rec) ∧
  (rec !! 3%nat ≠ Some (JStr (py "manual")) →
   length o = 5%nat ∧
   (o !! 3%nat = Some (JStr (py "automatic")) ∨ o !! 3%nat = Some (JStr (py "manual")))).
Proof.
  intros Hlen Hstep.
  destruct (classify_step_cases _ _ Hstep) as (h1 & Hh1 & Hcases).
  destruct rec as [|x0 [|x1 [|x2 rec]]]; simpl in Hlen; try lia.
  destruct Hcases as [[_ ?]|[(Hidx & Hman & Hcase)|(Hidx & Hman & h2 & Hh2 & Hr)]];
    [done| |].
  - destruct Hcase as [(Hl4 & h2 & Hh2 & Hr)|[Hl5 Hr]]; simplify_eq.
    + split_and!; [done| |done]. intros _. split.
      * rewrite lookup_app_l by (rewrite Hl4; lia). done.
      * by rewrite take_app_length.
    + split_and!; [done| |done]. intros _. split; [done|]. by rewrite take_ge.
  - simplify_eq/=. split_and!; [done|done|]. intros _. split; [done|].
    destruct (classify_record h1 h2) as [[] r]; simpl; auto.
Qed.

(** X4.  [classify_record] pairs the tag automatic only with a radius
    from 50 to 500 metres, and the tag manual only with 300, 500, 2000 or
    2500 metres. *)
Theorem classify_record_tag_radius h1 h2 :
  radius_fits_tag (classify_record h1 h2).1 (classify_record h1 h2).2.
Proof.
  assert (∀ kw, radius_fits_tag (landmark_class kw).1 (landmark_class kw).2) as Hlm.
  { intros kw. unfold landmark_class.
    repeat case_match; unfold radius_fits_tag; simpl; lia. }
  unfold classify_record. cbv zeta.
  repeat case_match; try apply Hlm; unfold radius_fits_tag; simpl; lia.
Qed.

Lemma ascii_lower_app a b : ascii_lower (a ++ b) = ascii_lower a ++ ascii_lower b.
Proof. apply fmap_app. Qed.

Lemma forallb_ascii_app a b :
  forallb is_ascii a = true → forallb is_ascii b = true → forallb is_ascii (a ++ b) = true.
Proof. intros Ha Hb. rewrite forallb_app. by rewrite Ha, Hb. Qed.

Lemma combined_lower h1 h2 :
  forallb is_ascii h1 = true → forallb is_ascii h2 = true →
  str_lower (h1 ++ py " " ++ h2) = ascii_lower h1 ++ py " " ++ ascii_lower h2.
Proof.
  intros H1 H2. rewrite str_lower_ascii.
  - by rewrite !ascii_lower_app.
  - apply forallb_ascii_app; [done|]. by apply forallb_ascii_app.
Qed.

(** X5.  On Basic Latin text the classification ignores letter case:
    titles and subtitles that differ only in case get the same tag and
    radius from [classify_record], the same radius from
    [estimate_radius_for_manual], and the same verdict of the index-page
    filter. *)
Theorem classification_ignores_case h1 h2 h1' h2' :
  forallb is_ascii h1 = true → forallb is_ascii h2 = true →
  forallb is_ascii h1' = true → forallb is_ascii h2' = true →
  ascii_lower h1 = ascii_lower h1' → ascii_lower h2 = ascii_lower h2' →
  classify_record h1 h2 = classify_record h1' h2' ∧
  estimate_radius_for_manual h1 h2 = estimate_radius_for_manual h1' h2' ∧
  is_index_title h1 = is_index_title h1'.
Proof.
  intros A1 A2 A1' A2' E1 E2.
  unfold classify_record, estimate_radius_for_manual, is_index_title.
  rewrite !combined_lower by done.
  rewrite !(str_lower_ascii h2), !(str_lower_ascii h2') by done.
  rewrite !(str_lower_ascii h1), !(str_lower_ascii h1') by done.
  by rewrite E1, E2.
Qed.

End ClassifyRerun.

Lemma oslo_data_three_fields :
  Forall (λ cr : pystr * list (list json),
            Forall (λ rec, (3 ≤ length rec)%nat) cr.2) oslo_data.
Proof.
  unfold oslo_data. apply List.Forall_cons; [|apply List.Forall_nil]. simpl.
  apply List.Forall_cons; [simpl; lia|].
  apply List.Forall_cons; [simpl; lia|]. apply List.Forall_nil.
Qed.

Lemma classify_main_idempotent_witness :
  classify_main (H:=basic_latin) oslo_classified = Some oslo_classified.
Proof.
  apply (classify_main_idempotent (H:=basic_latin) oslo_data oslo_classified).
  - exact oslo_data_three_fields.
  - vm_compute. reflexivity.
Defined.

Lemma classify_main_keeps_witness :
  Forall2 (λ d o : pystr * list (list json),
             o.1 = d.1 ∧
             Forall2 (λ rec r, classify_step (H:=basic_latin) rec = Some (Some r))
               (filter (λ rec, index_record (H:=basic_latin) rec = false) d.2) o.2)
    upper_beach [(py "Spain", [beach_classified])].
Proof.
  apply (classify_main_keeps (H:=basic_latin) upper_beach).
  vm_compute. reflexivity.
Defined.

Lemma classify_step_frame_witness :
  take 3 (bergen_manual ++ [JInt 2500]) = take 3 bergen_manual ∧
  (bergen_manual !! 3%nat = Some (JStr (py "manual")) →
   (bergen_manual ++ [JInt 2500]) !! 3%nat = Some (JStr (py "manual")) ∧
   take (length bergen_manual) (bergen_manual ++ [JInt 2500]) = bergen_manual) ∧
  (bergen_manual !! 3%nat ≠ Some (JStr (py "manual")) →
   length (bergen_manual ++ [JInt 2500]) = 5%nat ∧
   ((bergen_manual ++ [JInt 2500]) !! 3%nat = Some (JStr (py "automatic")) ∨
    (bergen_manual ++ [JInt 2500]) !! 3%nat = Some (JStr (py "manual")))).
Proof.
  apply (classify_step_frame (H:=basic_latin) bergen_manual).
  - simpl. lia.
  - vm_compute. reflexivity.
Defined.

Lemma classification_ignores_case_witness :
  classify_record (H:=basic_latin) (py "CADIZ BEACH") (py "View")
  = classify_record (H:=basic_latin) (py "cadiz beach") (py "VIEW") ∧
  estimate_radius_for_manual (H:=basic_latin) (py "CADIZ BEACH") (py "View")
  = estimate_radius_for_manual (H:=basic_latin) (py "cadiz beach") (py "VIEW") ∧
  is_index_title (H:=basic_latin) (py "CADIZ BEACH")
  = is_index_title (H:=basic_latin) (py "cadiz beach").
Proof.
  apply (classification_ignores_case (H:=basic_latin)); vm_compute; reflexivity.
Defined.

(** ** Merge: buckets, order, conservation *)

(** *** The order of the keys *)

Lemma str_leb_refl a : str_leb a a = true.
Proof.
  induction a as [|x a IH]; [done|]. simpl.
  rewrite N.eqb_refl, IH. by rewrite orb_true_r.
Qed.

Lemma str_leb_total a b : str_leb a b = true ∨ str_leb b a = true.
Proof.
  revert b. induction a as [|x a IH]; intros [|y b]; simpl; auto.
  destruct (N.ltb_spec x y); [by left|].
  destruct (N.ltb_spec y x); [by right|].
  assert (x = y) as -> by lia. rewrite N.eqb_refl. simpl. apply IH.
Qed.

Lemma str_leb_trans a b c :
  str_leb a b = true → str_leb b c = true → str_leb a c = true.
Proof.
  revert b c. induction a as [|x a IH]; intros [|y b] [|z c]; simpl; try done.
  intros Hab Hbc.
  apply orb_true_iff in Hab as [Hab|[Hxy Hab]%andb_true_iff];
    apply orb_true_iff in Hbc as [Hbc|[Hyz Hbc]%andb_true_iff].
  - apply N.ltb_lt in Hab, Hbc. apply orb_true_iff. left. apply N.ltb_lt. lia.
  - apply N.ltb_lt in Hab. apply N.eqb_eq in Hyz as ->.
    apply orb_true_iff. left. by apply N.ltb_lt.
  - apply N.ltb_lt in Hbc. apply N.eqb_eq in Hxy as ->.
    apply orb_true_iff. left. by apply N.ltb_lt.
  - apply N.eqb_eq in Hxy as ->. apply N.eqb_eq in Hyz as ->.
    apply orb_true_iff. right. rewrite N.eqb_refl. simpl. by eapply IH.
Qed.

Lemma str_leb_antisym a b : str_leb a b = true → str_leb b a = true → a = b.
Proof.
  revert b. induction a as [|x a IH]; intros [|y b]; simpl; try done.
  intros Hab Hba.
  apply orb_true_iff in Hab as [Hab|[Hxy Hab]%andb_true_iff];
    apply orb_true_iff in Hba as [Hba|[Hyx Hba]%andb_true_iff].
  - apply N.ltb_lt in Hab, Hba. lia.
  - apply N.ltb_lt in Hab. apply N.eqb_eq in Hyx. lia.
  - apply N.ltb_lt in Hba. apply N.eqb_eq in Hxy. lia.
  - apply N.eqb_eq in Hxy as ->. f_equal. by apply IH.
Qed.

#[local] Instance key_le_total : Total key_le.
Proof. intros x y. apply str_leb_total. Qed.

#[local] Instance key_le_trans : Transitive key_le.
Proof. intros x y z. apply str_leb_trans. Qed.

Lemma sorted_items_sorted (combined : gmap pystr (list record)) :
  StronglySorted key_le (sorted_items combined).
Proof. apply (StronglySorted_merge_sort key_le). Qed.

Lemma sorted_items_keys_NoDup (combined : gmap pystr (list record)) :
  NoDup (sorted_items combined).*1.
Proof.
  unfold sorted_items.
  rewrite (merge_sort_Permutation key_le). apply NoDup_fst_map_to_list.
Qed.

Lemma sorted_items_ascending (combined : gmap pystr (list record)) i j x y :
  (i < j)%nat →
  sorted_items combined !! i = Some x → sorted_items combined !! j = Some y →
  str_leb x.1 y.1 = true ∧ x.1 ≠ y.1.
Proof.
  intros Hij Hi Hj. split.
  - pose proof (sorted_items_sorted combined) as Hs.
    revert i j Hij Hi Hj. induction Hs as [|z l Hs IH Hall]; intros i j Hij Hi Hj.
    + done.
    + destruct i as [|i], j as [|j]; try lia; simplify_eq/=.
      * eapply Forall_lookup in Hall; [|done]. done.
      * eapply IH; [|done..]. lia.
  - pose proof (sorted_items_keys_NoDup combined) as Hnd.
    intros Heq. assert (i = j); [|lia].
    eapply NoDup_lookup; [done| |].
    + rewrite list_lookup_fmap, Hi. done.
    + rewrite list_lookup_fmap, Hj. simpl. by rewrite Heq.
Qed.

(** *** The buckets of the merged dataset *)

Lemma added_for_cons_eq c rec (transformed : list (pystr * record)) :
  added_for c ((c, rec) :: transformed) = rec :: added_for c transformed.
Proof. unfold added_for. rewrite filter_cons. simpl. by rewrite decide_True. Qed.

Lemma added_for_cons_ne c c' rec (transformed : list (pystr * record)) :
  c' ≠ c → added_for c ((c', rec) :: transformed) = added_for c transformed.
Proof.
  intros Hne. unfold added_for. rewrite filter_cons. simpl.
  by rewrite decide_False.
Qed.

Lemma merge_transformed_lookup_new (transformed : list (pystr * record))
    (combined : gmap pystr (list record)) (c : pystr) :
  combined !! c = None →
  merge_transformed combined transformed !! c =
    match added_for c transformed with
    | [] => None
    | added => Some added
    end.
Proof.
  revert combined. induction transformed as [|[c' rec] transformed IH];
    intros combined Hc; [done|].
  unfold merge_transformed. simpl.
  fold (merge_transformed (<[c' := default [] (combined !! c') ++ [rec]]> combined)
          transformed).
  destruct (decide (c' = c)) as [->|Hne].
  - rewrite added_for_cons_eq.
    rewrite (merge_transformed_lookup _ _ _ [rec]).
    + done.
    + rewrite Hc. simpl. apply lookup_insert_eq.
  - rewrite added_for_cons_ne by done. apply IH. by rewrite lookup_insert_ne.
Qed.

Lemma merge_transformed_bucket (combined : gmap pystr (list record))
    (transformed : list (pystr * record)) (c : pystr) (bucket : list record) :
  merge_transformed combined transformed !! c = Some bucket ↔
  bucket = default [] (combined !! c) ++ added_for c transformed ∧
  (is_Some (combined !! c) ∨ added_for c transformed ≠ []).
Proof.
  destruct (combined !! c) as [pre|] eqn:Hc.
  - rewrite (merge_transformed_lookup _ _ _ _ Hc). simpl. split.
    + intros [= <-]. split; [done|]. left. by eexists.
    + by intros [-> _].
  - rewrite (merge_transformed_lookup_new _ _ _ Hc). simpl.
    destruct (added_for c transformed) as [|r added]; split.
    + done.
    + intros [_ [[? ?]|?]]; done.
    + intros [= <-]. split; [done|]. by right.
    + by intros [-> _].
Qed.

(** X6.  The merged dataset of both merge scripts, bucket by bucket: a
    country has a bucket exactly when it had one before or the new source
    has a record for it, and the bucket is the old list (empty for a new
    country; with source and subregion set, in [merge_webcams.py])
    followed by the new records of that country in their order. *)
Theorem merge_buckets :
  (∀ (combined : gmap pystr (list record)) (transformed : list (pystr * record))
     (c : pystr) (bucket : list record),
     (c, bucket) ∈ merge_webcamtaxi combined transformed ↔
     bucket = default [] (combined !! c) ++ added_for c transformed ∧
     (is_Some (combined !! c) ∨ added_for c transformed ≠ [])) ∧
  (∀ (wl_data : gmap pystr (list record)) (transformed : list (pystr * record))
     (c : pystr) (bucket : list record),
     (c, bucket) ∈ merge_webcams wl_data transformed ↔
     bucket = (enrich_record <$> default [] (wl_data !! c)) ++ added_for c transformed ∧
     (is_Some (wl_data !! c) ∨ added_for c transformed ≠ [])).
Proof.
  split.
  - intros combined transformed c bucket. unfold merge_webcamtaxi.
    rewrite elem_of_sorted_items. apply merge_transformed_bucket.
  - intros wl_data transformed c bucket. unfold merge_webcams.
    rewrite elem_of_sorted_items, merge_transformed_bucket, enrich_slw_lookup.
    destruct (wl_data !! c) as [raw|]; simpl; [|done].
    split; intros [-> _]; (split; [done|left; by eexists]).
Qed.

(** X7.  The merged dataset lists the countries in ascending order of
    their names as sequences of code points, each country once. *)
Theorem merge_sorted :
  (∀ (combined : gmap pystr (list record)) (transformed : list (pystr * record))
     i j x y,
     (i < j)%nat →
     merge_webcamtaxi combined transformed !! i = Some x →
     merge_webcamtaxi combined transformed !! j = Some y →
     str_leb x.1 y.1 = true ∧ x.1 ≠ y.1) ∧
  (∀ (wl_data : gmap pystr (list record)) (transformed : list (pystr * record))
     i j x y,
     (i < j)%nat →
     merge_webcams wl_data transformed !! i = Some x →
     merge_webcams wl_data transformed !! j = Some y →
     str_leb x.1 y.1 = true ∧ x.1 ≠ y.1).
Proof.
  split.
  - intros combined transformed. apply sorted_items_ascending.
  - intros wl_data transformed. apply sorted_items_ascending.
Qed.

(** *** No record is lost or duplicated *)

Lemma all_records_perm (l1 l2 : list (pystr * list record)) :
  l1 ≡ₚ l2 → all_records l1 ≡ₚ all_records l2.
Proof. intros Hp. unfold all_records. by rewrite Hp. Qed.

Lemma all_records_insert (m : gmap pystr (list record)) c rec :
  all_records (map_to_list (<[c := default [] (m !! c) ++ [rec]]> m))
  ≡ₚ all_records (map_to_list m) ++ [rec].
Proof.
  destruct (m !! c) as [pre|] eqn:Hc; simpl.
  - rewrite <- (insert_delete_eq m c (pre ++ [rec])).
    rewrite (all_records_perm _ _ (map_to_list_insert _ _ _ (lookup_delete_eq m c))).
    rewrite <- (insert_delete_id m c pre Hc) at 2.
    rewrite (all_records_perm _ _ (map_to_list_insert (delete c m) c pre (lookup_delete_eq m c))).
    unfold all_records. simpl. by rewrite <- app_assoc, (Permutation_app_comm [rec]), app_assoc.
  - rewrite (all_records_perm _ _ (map_to_list_insert _ _ _ Hc)).
    unfold all_records. simpl. apply Permutation_cons_append.
Qed.

Lemma all_records_merge_transformed (transformed : list (pystr * record))
    (combined : gmap pystr (list record)) :
  all_records (map_to_list (merge_transformed combined transformed))
  ≡ₚ all_records (map_to_list combined) ++ transformed.*2.
Proof.
  revert combined. induction transformed as [|[c rec] transformed IH]; intros combined.
  - simpl. by rewrite app_nil_r.
  - unfold merge_transformed. simpl.
    fold (merge_transformed (<[c := default [] (combined !! c) ++ [rec]]> combined)
            transformed).
    rewrite IH, all_records_insert. by rewrite <- app_assoc.
Qed.

Lemma all_records_enrich (wl_data : gmap pystr (list record)) :
  all_records (map_to_list (enrich_slw wl_data))
  ≡ₚ enrich_record <$> all_records (map_to_list wl_data).
Proof.
  unfold enrich_slw.
  rewrite map_to_list_fmap.
  unfold all_records. induction (map_to_list wl_data) as [|[c l] items IH]; [done|].
  simpl. rewrite fmap_app. by rewrite IH.
Qed.

(** X8.  The merge neither loses nor duplicates a record: the records
    of the merged dataset are those of the existing dataset together with
    the records of the new source, up to order. *)
Theorem merge_conserves_records :
  (∀ (combined : gmap pystr (list record)) (transformed : list (pystr * record)),
     all_records (merge_webcamtaxi combined transformed)
     ≡ₚ all_records (map_to_list combined) ++ transformed.*2) ∧
  (∀ (wl_data : gmap pystr (list record)) (transformed : list (pystr * record)),
     all_records (merge_webcams wl_data transformed)
     ≡ₚ (enrich_record <$> all_records (map_to_list wl_data)) ++ transformed.*2).
Proof.
  split.
  - intros combined transformed. unfold merge_webcamtaxi, sorted_items.
    rewrite (all_records_perm _ _ (merge_sort_Permutation key_le _)).
    apply all_records_merge_transformed.
  - intros wl_data transformed. unfold merge_webcams, sorted_items.
    rewrite (all_records_perm _ _ (merge_sort_Permutation key_le _)).
    rewrite all_records_merge_transformed. by rewrite all_records_enrich.
Qed.

Lemma merge_sorted_lookups :
  merge_webcamtaxi {[ py "Peru" := [old_a] ]} [(py "Norway", new_c)] !! 0%nat
  = Some (py "Norway", [new_c]) ∧
  merge_webcamtaxi {[ py "Peru" := [old_a] ]} [(py "Norway", new_c)] !! 1%nat
  = Some (py "Peru", [old_a]).
Proof. split; vm_compute; reflexivity. Qed.

Lemma merge_sorted_witness :
  str_leb (py "Norway") (py "Peru") = true ∧ py "Norway" ≠ py "Peru".
Proof.
  apply (proj1 merge_sorted {[ py "Peru" := [old_a] ]} [(py "Norway", new_c)]
           0%nat 1%nat (py "Norway", [new_c]) (py "Peru", [old_a])).
  - lia.
  - exact (proj1 merge_sorted_lookups).
  - exact (proj2 merge_sorted_lookups).
Defined.

(** ** Workers and retry *)

(** *** What the worker stages leave alone *)

(** X9.  The liveness stage of [merge_webcams.py] returns the records in
    the order and under the countries it was given, and writes no field
    other than verified and radius. *)
Theorem verify_all_frame http order (transformed out : list (pystr * record)) :
  verify_all http order transformed = Some out →
  Forall2 (λ cr cr' : pystr * record,
             cr'.1 = cr.1 ∧
             ∀ key : string, key ≠ "verified"%string → key ≠ "radius"%string →
                    cr'.2 !! key = cr.2 !! key)
    transformed out.
Proof.
  unfold verify_all. intros Hout. simplify_option_eq.
  unfold apply_verification.
  apply Forall2_same_length_lookup. split; [by rewrite length_imap|].
  intros i [c rec] [c' rec'] Hi Hi'.
  rewrite list_lookup_imap, Hi in Hi'. simplify_eq/=.
  split; [done|]. intros key Hv Hr. by rewrite !lookup_insert_ne.
Qed.

Lemma apply_iframe_result_frame result (rec rec' : record) :
  apply_iframe_result result rec = Some rec' →
  rec' !! "_page_url" = None ∧ rec' !! "_fallback_url" = None ∧
  ∀ key : string, key ∉ extraction_fields → rec' !! key = rec !! key.
Proof.
  unfold apply_iframe_result, extraction_fields.
  destruct result as [iframe_url success].
  intros Hres.
  destruct (embed_found iframe_url success); simplify_option_eq.
  - split_and!; [by simplify_map_eq..|].
    intros key Hkey. repeat (apply not_elem_of_cons in Hkey as [? Hkey]).
    by rewrite !lookup_delete_ne, !lookup_insert_ne.
  - split_and!; [by simplify_map_eq..|].
    intros key Hkey. repeat (apply not_elem_of_cons in Hkey as [? Hkey]).
    by rewrite !lookup_delete_ne, !lookup_insert_ne.
Qed.

(** X10.  The extraction stage of [merge_webcamtaxi.py] returns the
    records in the order and under the countries it was given; the two
    internal fields are gone from every record, and no field other than
    url, verified and radius is changed. *)
Theorem extract_all_frame http find_iframe_src html_unescape order
    (transformed out : list (pystr * record)) :
  extract_all http find_iframe_src html_unescape order transformed = Some out →
  Forall2 (λ cr cr' : pystr * record,
             cr'.1 = cr.1 ∧
             cr'.2 !! "_page_url" = None ∧ cr'.2 !! "_fallback_url" = None ∧
             ∀ key : string, key ∉ extraction_fields → cr'.2 !! key = cr.2 !! key)
    transformed out.
Proof.
  unfold extract_all. intros Hout. simplify_option_eq.
  apply mapM_Some_1 in Hout.
  apply Forall2_same_length_lookup. split.
  { apply Forall2_length in Hout. by rewrite length_imap in Hout. }
  intros i [c rec] [c' rec'] Hi Hi'.
  assert (imap pair transformed !! i = Some (i, (c, rec))) as Hip.
  { by rewrite list_lookup_imap, Hi. }
  pose proof (Forall2_lookup_lr _ _ _ _ _ _ Hout Hip Hi') as Hstep.
  simplify_option_eq. split; [done|].
  by eapply apply_iframe_result_frame.
Qed.

(** *** The two copies of [fetch_iframe_url] *)

(** X11.  [fetch_iframe_url] of the retry script returns the embed
    reference and the success flag that [fetch_iframe_url] of
    [merge_webcamtaxi.py] returns for the same reply.  Success is reported
    exactly when a reference is returned, and then the status is 200; the
    status is 0 for a time-out, -1 for another exception, and the HTTP
    status otherwise. *)
Theorem fetch_iframe_url_agree find_iframe_src html_unescape r :
  fetch_iframe_url find_iframe_src html_unescape r =
    ((fetch_iframe_url_retry find_iframe_src html_unescape r).1.1,
     (fetch_iframe_url_retry find_iframe_src html_unescape r).2) ∧
  ((fetch_iframe_url_retry find_iframe_src html_unescape r).2 = true ↔
   is_Some (fetch_iframe_url_retry find_iframe_src html_unescape r).1.1) ∧
  ((fetch_iframe_url_retry find_iframe_src html_unescape r).2 = true →
   (fetch_iframe_url_retry find_iframe_src html_unescape r).1.2 = 200%Z) ∧
  (fetch_iframe_url_retry find_iframe_src html_unescape r).1.2 =
    match r with
    | HttpTimeout => 0%Z
    | HttpError => (-1)%Z
    | HttpResponse status_code _ => status_code
    end.
Proof.
  unfold fetch_iframe_url, fetch_iframe_url_retry.
  assert (false = true ↔ is_Some (None : option pystr)) as Hnone.
  { split; [done|]. by intros [? ?]. }
  destruct r as [| |status_code text]; simpl; [split_and!; done..|].
  destruct (Z.eqb_spec status_code 200) as [->|Hne]; [|split_and!; done].
  destruct (find_iframe_src text); simpl; [|split_and!; done].
  split_and!; [done| |done..]. split; [by eexists|done].
Qed.

(** *** What a retry pass leaves to the next *)

Section RetryNext.
Variable http : nat → json → http_reply.
Variable find_iframe_src : pystr → option pystr.
Variable html_unescape : pystr → pystr.

(** X12.  A target of the retry pass that has no url field ends the run
    at submission, before any record is written. *)
Theorem retry_missing_url_aborts order (combined : dataset) p (rec : record) :
  p ∈ wct_targets combined → record_at combined p = Some rec →
  rec !! "url" = None →
  retry_main http find_iframe_src html_unescape order combined = None.
Proof.
  intros Hp Hrec Hurl. unfold retry_main.
  destruct (wct_targets combined) as [|q targets] eqn:Htargets.
  { by apply elem_of_nil in Hp. }
  rewrite <- Htargets. rewrite Htargets at 1. simpl.
  assert (mapM (λ p, rec ← record_at combined p; rec !! "url") (wct_targets combined)
          = None) as ->; [|done].
  apply mapM_None_2, Exists_exists. exists p. rewrite Htargets. split; [done|].
  rewrite Hrec. simpl. done.
Qed.

Lemma apply_retry_result_target result (rec : record) :
  is_retry_target rec = true →
  is_retry_target (apply_retry_result result rec)
  = negb (embed_found result.1.1 result.2).
Proof.
  intros Htarget. destruct result as [[iframe_url http_status] success].
  unfold apply_retry_result. simpl.
  destruct (embed_found iframe_url success); simpl; [|done].
  apply not_true_is_false. intros [_ Hver]%is_retry_target_spec.
  by simplify_map_eq.
Qed.

(** X13.  After a retry pass, the targets a further pass would find are
    exactly the targets of this pass whose fetch found no embed. *)
Theorem retry_next_targets order (combined : dataset) :
  order ≡ₚ seq 0 (length (wct_targets combined)) →
  (∀ p (rec : record),
     p ∈ wct_targets combined → record_at combined p = Some rec →
     is_Some (rec !! "url")) →
  ∃ final : dataset,
    retry_main http find_iframe_src html_unescape order combined = Some final ∧
    ∀ p,
      p ∈ wct_targets final ↔
      ∃ i (rec : record),
        wct_targets combined !! i = Some p ∧
        record_at combined p = Some rec ∧
        embed_found
          (fetch_iframe_url_retry find_iframe_src html_unescape
             (http i (url_of rec))).1.1
          (fetch_iframe_url_retry find_iframe_src html_unescape
             (http i (url_of rec))).2 = false.
Proof.
  intros Hperm Hurl. eexists. split; [by apply retry_main_complete|].
  intros p. rewrite elem_of_wct_targets.
  destruct (decide (p ∈ wct_targets combined)) as [Hp|Hp].
  - pose proof Hp as (rec & Hrec & Htarget)%elem_of_wct_targets.
    pose proof Hp as [i Hi]%list_elem_of_lookup.
    assert (retry_task http find_iframe_src html_unescape combined i
            = fetch_iframe_url_retry find_iframe_src html_unescape (http i (url_of rec)))
      as Htask.
    { unfold retry_task, url_of. rewrite Hi. simpl. by rewrite Hrec. }
    rewrite (apply_all_target _ _ _ i);
      [|rewrite imap_pair_snd; apply wct_targets_NoDup|by apply elem_of_imap_pair].
    rewrite Hrec, Htask. simpl. split.
    + intros (rec' & [= <-] & Hnext).
      rewrite apply_retry_result_target in Hnext by done.
      exists i, rec. split_and!; [done..|]. by apply negb_true_iff.
    + intros (j & rec' & Hj & Hrec' & Hfail).
      assert (j = i) as ->.
      { eapply NoDup_lookup; [apply wct_targets_NoDup|done..]. }
      simplify_eq. eexists. split; [done|].
      rewrite apply_retry_result_target by done. by rewrite Hfail.
  - rewrite apply_all_other by by rewrite imap_pair_snd. split.
    + intros Hnext. exfalso. apply Hp. by apply elem_of_wct_targets.
    + intros (i & rec & Hi & _). exfalso. apply Hp.
      by eapply list_elem_of_lookup_2.
Qed.

End RetryNext.

Lemma two_records_verified :
  verify_all first_alive [1; 0]%nat two_records = Some two_verified.
Proof. vm_compute. reflexivity. Qed.

Lemma verify_all_frame_witness :
  Forall2 (λ cr cr' : pystr * record,
             cr'.1 = cr.1 ∧
             ∀ key : string, key ≠ "verified"%string → key ≠ "radius"%string →
                    cr'.2 !! key = cr.2 !! key)
    two_records two_verified.
Proof.
  exact (verify_all_frame first_alive [1; 0]%nat two_records two_verified
           two_records_verified).
Defined.

Lemma two_pages_extracted :
  extract_all first_times_out (λ _, Some (py "https://player/")) id [1; 0]%nat two_pages
  = Some two_extracted.
Proof. vm_compute. reflexivity. Qed.

Lemma extract_all_frame_witness :
  Forall2 (λ cr cr' : pystr * record,
             cr'.1 = cr.1 ∧
             cr'.2 !! "_page_url" = None ∧ cr'.2 !! "_fallback_url" = None ∧
             ∀ key : string, key ∉ extraction_fields → cr'.2 !! key = cr.2 !! key)
    two_pages two_extracted.
Proof.
  exact (extract_all_frame first_times_out (λ _, Some (py "https://player/")) id
           [1; 0]%nat two_pages two_extracted two_pages_extracted).
Defined.

Lemma fetch_iframe_url_agree_witness :
  (fetch_iframe_url_retry (λ _, Some (py "https://player/")) id
     (HttpResponse 200 (py "<iframe src='https://player/'>"))).1.2 = 200%Z.
Proof.
  apply (proj1 (proj2 (proj2 (fetch_iframe_url_agree
           (λ _, Some (py "https://player/")) id
           (HttpResponse 200 (py "<iframe src='https://player/'>")))))).
  reflexivity.
Defined.

Lemma wct_no_url_target :
  ((0, 0)%nat ∈ wct_targets [(py "Norway", [wct_no_url])]) ∧
  record_at [(py "Norway", [wct_no_url])] (0, 0)%nat = Some wct_no_url ∧
  wct_no_url !! "url" = None.
Proof.
  split_and!.
  - assert (wct_targets [(py "Norway", [wct_no_url])] = [(0, 0)%nat]) as ->
      by (vm_compute; reflexivity).
    apply list_elem_of_here.
  - reflexivity.
  - vm_compute. reflexivity.
Qed.

Lemma retry_missing_url_aborts_witness :
  retry_main first_times_out (λ _, Some (py "https://player/")) id [0%nat]
    [(py "Norway", [wct_no_url])] = None.
Proof.
  exact (retry_missing_url_aborts first_times_out (λ _, Some (py "https://player/")) id
           [0%nat] [(py "Norway", [wct_no_url])] (0, 0)%nat wct_no_url
           (proj1 wct_no_url_target) (proj1 (proj2 wct_no_url_target))
           (proj2 (proj2 wct_no_url_target))).
Defined.

Lemma retry_next_targets_witness :
  ∃ final : dataset,
    retry_main first_times_out (λ _, Some (py "https://player/")) id [0; 1]%nat retry_data
    = Some final ∧
    ∀ p,
      p ∈ wct_targets final ↔
      ∃ i (rec : record),
        wct_targets retry_data !! i = Some p ∧
        record_at retry_data p = Some rec ∧
        embed_found
          (fetch_iframe_url_retry (λ _, Some (py "https://player/")) id
             (first_times_out i (url_of rec))).1.1
          (fetch_iframe_url_retry (λ _, Some (py "https://player/")) id
             (first_times_out i (url_of rec))).2 = false.
Proof.
  apply (retry_next_targets first_times_out (λ _, Some (py "https://player/")) id
           [0; 1]%nat retry_data).
  - reflexivity.
  - exact retry_data_targets_have_url.
Defined.

(** ** Query words and the geocoder loop *)

Lemma foldl_filter_map {A B} (f : A → B) (P : B → bool) (ws : list A) (acc : list B) :
  foldl (λ cleaned word, let word := f word in
                         if P word then cleaned ++ [word] else cleaned) acc ws
  = acc ++ filter (λ w, P w = true) (f <$> ws).
Proof.
  revert acc. induction ws as [|w ws IH]; intros acc; simpl.
  - by rewrite app_nil_r.
  - rewrite IH, filter_cons. destruct (P (f w)) eqn:HP.
    + rewrite decide_True by done. by rewrite <- app_assoc.
    + rewrite decide_False by congruence. done.
Qed.

Lemma replace_hyphen_empty s :
  replace (py "-") [] s = filter (λ c, c ≠ 45%N) s.
Proof.
  unfold replace. change (py "-") with [45%N].
  induction s as [|c s IH]; [done|].
  rewrite replace_aux_cons, startswith_cons, startswith_nil, andb_true_r.
  change (pred (length [45%N])) with 0%nat. rewrite IH, filter_cons.
  destruct (N.eqb_spec 45 c) as [<-|Hne].
  - by rewrite decide_False by (intros ?; done).
  - by rewrite decide_True by congruence.
Qed.

Lemma split_aux_words cur s :
  Forall (λ c, is_space c = false) cur →
  Forall (λ w, w ≠ [] ∧ Forall (λ c, is_space c = false) w) (split_aux cur s).
Proof.
  revert cur. induction s as [|c s IH]; intros cur Hcur; simpl.
  - destruct cur; [constructor|]. constructor; [by split|constructor].
  - destruct (is_space c) eqn:Hc.
    + destruct cur as [|x cur]; [by apply IH|].
      constructor; [done|]. by apply IH.
    + apply IH. apply Forall_app. split; [done|]. by constructor.
Qed.

Section QueryWords.
Context `{Unicode}.

Lemma clean_words_eq text :
  clean_words text =
  filter (λ w, negb (is_empty_str w) && bool_decide (w ∉ STOPWORDS) = true)
    (replace (py "-") [] <$> split (str_lower text)).
Proof.
  exact (foldl_filter_map (replace (py "-") [])
           (λ w, negb (is_empty_str w) && bool_decide (w ∉ STOPWORDS))
           (split (str_lower text)) []).
Qed.

(** X14.  Every word [clean_words] returns is non-empty, is not a stop
    word, and holds neither a hyphen nor white space. *)
Theorem clean_words_clean text :
  Forall clean_word (clean_words text).
Proof.
  rewrite clean_words_eq. apply Forall_forall. intros w Hw.
  apply list_elem_of_filter in Hw as [Hkeep Hw].
  apply andb_true_iff in Hkeep as [Hne Hstop].
  apply bool_decide_eq_true in Hstop.
  apply list_elem_of_fmap in Hw as (w0 & -> & Hw0).
  pose proof (split_aux_words [] (str_lower text) (Forall_nil_2 _)) as Hsplit.
  eapply Forall_forall in Hsplit; [|exact Hw0]. destruct Hsplit as [_ Hsp].
  rewrite replace_hyphen_empty in *.
  split_and!.
  - by destruct (filter _ w0).
  - done.
  - intros Hin. by apply list_elem_of_filter in Hin as [? _].
  - apply Forall_forall. intros c [_ Hc]%list_elem_of_filter.
    by eapply Forall_forall in Hsp.
Qed.

(** The words common to both texts, as the loop collects them. *)
Lemma common_fold (h2_set : gset pystr) (ws : list pystr) :
  let r := foldl (λ '(common, seen) word,
                    if bool_decide (word ∈ h2_set) && bool_decide (word ∉ seen)
                    then (common ++ [word], ({[ word ]} ∪ seen : gset pystr))
                    else (common, seen))
                 ([], ∅) ws in
  r.2 = list_to_set r.1 ∧ NoDup r.1 ∧ r.1 `sublist_of` ws ∧
  ∀ w, w ∈ r.1 ↔ w ∈ ws ∧ w ∈ h2_set.
Proof.
  induction ws as [|w' ws IH] using rev_ind; simpl.
  - split_and!; [done|constructor|done|]. intros w. split; [by intros ?%elem_of_nil|].
    by intros [?%elem_of_nil _].
  - rewrite foldl_snoc. simpl in IH.
    destruct (foldl _ _ ws) as [common seen]. simpl in *.
    destruct IH as (Hseen & Hnd & Hsub & Hmem).
    destruct (bool_decide (w' ∈ h2_set) && bool_decide (w' ∉ seen)) eqn:Hc; simpl.
    + apply andb_true_iff in Hc as [Hin Hnew].
      apply bool_decide_eq_true in Hin, Hnew.
      split_and!.
      * rewrite list_to_set_app_L, Hseen. simpl.
        rewrite (union_empty_r_L (C:=gset pystr)). apply (comm_L (∪)).
      * apply NoDup_app. split_and!; [done| |apply NoDup_singleton].
        intros x Hx ->%list_elem_of_singleton. apply Hnew. rewrite Hseen.
        by apply elem_of_list_to_set.
      * by apply sublist_app.
      * intros w. rewrite !elem_of_app, Hmem, !list_elem_of_singleton. split.
        -- intros [[? ?]|Heq]; [auto|]. subst w. auto.
        -- intros [[?|Heq] ?]; [auto|]. by right.
    + split_and!; [done..| |].
      * by apply sublist_inserts_r.
      * intros w. rewrite elem_of_app, Hmem, list_elem_of_singleton. split.
        -- intros [? ?]. auto.
        -- intros [[?|Heq] Hin2]; [done|]. subst w.
           apply andb_false_iff in Hc as [Hc|Hc].
           ++ by apply bool_decide_eq_false in Hc.
           ++ apply bool_decide_eq_false in Hc. apply dec_stable in Hc.
              rewrite Hseen in Hc. apply elem_of_list_to_set in Hc.
              by apply Hmem in Hc.
Qed.

Lemma split_aux_word cur w rest :
  Forall (λ c, is_space c = false) w →
  split_aux cur (w ++ rest) = split_aux (cur ++ w) rest.
Proof.
  revert cur. induction w as [|c w IH]; intros cur Hw; simpl.
  - by rewrite app_nil_r.
  - apply Forall_cons in Hw as [Hc Hw]. rewrite Hc, IH by done.
    by rewrite <- app_assoc.
Qed.

Lemma split_join (ws : list pystr) :
  Forall (λ w, w ≠ [] ∧ Forall (λ c, is_space c = false) w) ws →
  split (join (py " ") ws) = ws.
Proof.
  unfold split. induction 1 as [|w ws [Hne Hw] Hws IH]; [done|].
  destruct ws as [|w2 ws].
  - simpl. rewrite <- (app_nil_r w) at 1. rewrite split_aux_word by done. simpl.
    by destruct w.
  - change (join (py " ") (w :: w2 :: ws))
      with (w ++ 32%N :: join (py " ") (w2 :: ws)).
    rewrite split_aux_word by done.
    remember (join (py " ") (w2 :: ws)) as rest eqn:Hrest.
    destruct w as [|c w]; [done|]. simpl. by rewrite IH.
Qed.

(** X15.  A query of [extract_search_query] is its words joined by
    single spaces; these words are distinct, appear in the order of the
    title, and are exactly the cleaned words that title and subtitle
    share.  No query is returned exactly when they share none. *)
Theorem extract_search_query_common h1 h2 :
  match extract_search_query h1 h2 with
  | Some query =>
      query = join (py " ") (split query) ∧
      NoDup (split query) ∧
      split query `sublist_of` clean_words h1 ∧
      split query ≠ [] ∧
      ∀ w, w ∈ split query ↔ w ∈ clean_words h1 ∧ w ∈ clean_words h2
  | None => ∀ w, ¬ (w ∈ clean_words h1 ∧ w ∈ clean_words h2)
  end.
Proof.
  unfold extract_search_query.
  pose proof (common_fold (list_to_set (clean_words h2)) (clean_words h1)) as Hfold.
  simpl in Hfold.
  destruct (bool_decide (clean_words h1 = []) || bool_decide (clean_words h2 = []))
    eqn:Hempty.
  { intros w [H1 H2]. apply orb_true_iff in Hempty as [He|He];
      apply bool_decide_eq_true in He; rewrite He in *; by eapply elem_of_nil. }
  destruct (foldl _ _ (clean_words h1)) as [common seen]. simpl in Hfold.
  destruct Hfold as (_ & Hnd & Hsub & Hmem).
  assert (∀ w, w ∈ common ↔ w ∈ clean_words h1 ∧ w ∈ clean_words h2) as Hmem'.
  { intros w. rewrite Hmem. by rewrite elem_of_list_to_set. }
  clear Hempty. case_bool_decide as Hcommon.
  - subst common. intros w Hw. apply Hmem' in Hw. by eapply elem_of_nil.
  - assert (split (join (py " ") common) = common) as Hsplit.
    { apply split_join. apply Forall_forall. intros w Hw.
      apply Hmem' in Hw as [Hw _].
      pose proof (clean_words_clean h1) as Hclean.
      eapply Forall_forall in Hclean; [|exact Hw].
      by destruct Hclean as (? & _ & _ & ?). }
    rewrite Hsplit. done.
Qed.

(** X16.  Whether [extract_search_query] finds a query does not depend
    on which text is the title and which the subtitle. *)
Theorem extract_search_query_symmetric h1 h2 :
  is_Some (extract_search_query h1 h2) ↔ is_Some (extract_search_query h2 h1).
Proof.
  pose proof (extract_search_query_common h1 h2) as H12.
  pose proof (extract_search_query_common h2 h1) as H21.
  destruct (extract_search_query h1 h2) as [q|], (extract_search_query h2 h1) as [q'|];
    split; intros Hs; try done; try by destruct Hs.
  - destruct H12 as (_ & _ & _ & Hne & Hmem).
    destruct (split q) as [|w ws]; [done|].
    exfalso. apply (H21 w). apply and_comm, Hmem. by left.
  - destruct H21 as (_ & _ & _ & Hne & Hmem).
    destruct (split q') as [|w ws]; [done|].
    exfalso. apply (H12 w). apply and_comm, Hmem. by left.
Qed.

(** *** The record loop of the geocoder *)

Lemma skyline_step_cases api rec out :
  skyline_step api rec = Some out → geocoded_from rec out.
Proof.
  unfold skyline_step, geocoded_from. intros Hstep.
  destruct (eq_str (field_or_empty rec 3) (py "manual")).
  { left. destruct (as_str (field_or_empty rec 0)); by simplify_eq/=. }
  destruct (eq_str (field_or_empty rec 3) (py "automatic")) eqn:Htag; simpl in Hstep;
    [|left; by simplify_eq].
  assert (rec !! 3%nat = Some (JStr (py "automatic"))) as Hauto.
  { unfold field_or_empty in Htag. destruct (rec !! 3%nat) as [[]|]; simplify_eq/=.
    by apply bool_decide_eq_true in Htag as ->. }
  destruct (as_str (field_or_empty rec 0)) as [h1|]; simplify_eq/=.
  destruct (as_str (field_or_empty rec 1)) as [h2|]; simplify_eq/=.
  destruct (extract_search_query h1 h2) as [query|]; [|left; by simplify_eq].
  destruct (is_empty_str query); [left; by simplify_eq|].
  destruct (geocode_query_skyline (api query)) as [|[result|]];
    [left; by simplify_eq| |left; by simplify_eq].
  right. split; [done|]. exists (lat result), (lng result).
  destruct (is_area result); simplify_eq; auto.
Qed.




End QueryWords.



(** A record tagged automatic that has no radius: the record has four
    fields, and the latitude is appended right after the tag. *)
Example skyline_step_four_fields :
  skyline_step (H:=basic_latin) (λ _, area_reply) (take 4 harbour_record)
  = Some [JStr (py "Oslo Harbour - Live cam"); JStr (py "View of the Harbour in Oslo");
          JStr (py "https://a/"); JStr (py "manual");
          JFloat 10.005%float; JFloat 20.005%float].
Proof. vm_compute. reflexivity. Qed.

(** A record tagged manual whose title is null ends the run. *)
Example skyline_step_null_title :
  skyline_step (H:=basic_latin) (λ _, area_reply)
    [JNull; JStr (py "Panorama of Bergen"); JStr (py "https://b/"); JStr (py "manual")]
  = None.
Proof. vm_compute. reflexivity. Qed.

(** ** Reformatting, and a record through the Skyline stages *)

Lemma field_or_empty_take (rec : list json) (i n : nat) :
  (i < n)%nat → field_or_empty (take n rec) i = field_or_empty rec i.
Proof. intros Hi. unfold field_or_empty. by rewrite lookup_take_lt. Qed.

(** X18.  [reformat_records.py] keeps the countries and the order of
    the records.  Every entry has exactly the eight keys of the final
    file, with verified false, and depends on the first seven fields of
    the array only. *)
Theorem reformat_main_shape (data : list (pystr * list (list json))) :
  Forall2 (λ (d : pystr * list (list json)) (o : pystr * list record),
             o.1 = d.1 ∧
             Forall2 (λ (rec : list json) (entry : record),
                        dom entry = final_keys ∧
                        entry !! "verified" = Some (JBool false) ∧
                        entry = reformat_record (take 7 rec))
               d.2 o.2)
    data (reformat_main data).
Proof.
  unfold reformat_main. apply Forall2_fmap_r, Forall_Forall2_diag, Forall_forall.
  intros [c records] _. simpl. split; [done|].
  apply Forall2_fmap_r, Forall_Forall2_diag, Forall_forall.
  intros rec _. split_and!.
  - unfold reformat_record, final_keys.
    rewrite !dom_insert_L, dom_singleton_L. simpl.
    rewrite (union_empty_r_L (C:=gset string)). done.
  - done.
  - unfold reformat_record.
    by rewrite !field_or_empty_take, !lookup_take_lt by lia.
Qed.

Section Pipeline.
Context `{Unicode}.

(** X19.  A scraped record of three fields that goes through the
    classification, the geocoder and the reformatting ends as an entry
    with its own title, subtitle and URL, the mode automatic or manual,
    an integer radius from 1 to 2500, verified false, and coordinates
    that are both null or both numbers. *)
Theorem scraped_record_pipeline api (rec o out : list json) :
  length rec = 3%nat →
  classify_step rec = Some (Some o) →
  skyline_step api o = Some out →
  ∃ h1 h2 url t r la lo,
    rec = [JStr h1; JStr h2; url] ∧
    valid_radius r ∧ coordinates_ok la lo ∧
    reformat_record out =
      {[ "title" := JStr h1; "subtitle" := JStr h2; "url" := url;
         "mode" := JStr (tag_str t); "radius" := JInt r;
         "latitude" := la; "longitude" := lo; "verified" := JBool false ]}.
Proof.
  intros Hlen Hclass Hgeo.
  destruct rec as [|x0 [|x1 [|x2 [|? ?]]]]; simplify_eq/=.
  destruct (classify_step_cases _ _ Hclass) as (h1 & Hh1 & Hcases).
  destruct x0; simplify_eq/=.
  destruct Hcases as [[_ ?]|[(_ & ? & _)|(_ & _ & h2 & Hh2 & Ho)]]; [done..|].
  destruct x1; simplify_eq/=.
  pose proof (classify_record_radius h1 h2) as Hr.
  destruct (classify_record h1 h2) as [t r]. simpl in *.
  exists h1, h2, x2.
  destruct (skyline_step_cases _ _ _ Hgeo) as [->|[Hauto (la & lo & [->| ->])]].
  - exists t, r, JNull, JNull. split_and!; [done..|by left|reflexivity].
  - exists t, r, (JFloat la), (JFloat lo).
    split_and!; [done..|right; by eexists _, _|].
    unfold reformat_record, field_or_empty. simpl. reflexivity.
  - exists manual, r, (JFloat la), (JFloat lo).
    split_and!; [done..|right; by eexists _, _|].
    unfold reformat_record, field_or_empty. simpl. reflexivity.
Qed.

End Pipeline.

Lemma harbour_scraped_steps :
  classify_step (H:=basic_latin) harbour_scraped = Some (Some harbour_record) ∧
  skyline_step (H:=basic_latin) (λ _, area_reply) harbour_record = Some harbour_geocoded.
Proof. split; vm_compute; reflexivity. Qed.

Lemma scraped_record_pipeline_witness :
  ∃ h1 h2 url t r la lo,
    harbour_scraped = [JStr h1; JStr h2; url] ∧
    valid_radius r ∧ coordinates_ok la lo ∧
    reformat_record harbour_geocoded =
      {[ "title" := JStr h1; "subtitle" := JStr h2; "url" := url;
         "mode" := JStr (tag_str t); "radius" := JInt r;
         "latitude" := la; "longitude" := lo; "verified" := JBool false ]}.
Proof.
  apply (scraped_record_pipeline (H:=basic_latin) (λ _, area_reply)
           harbour_scraped harbour_record harbour_geocoded).
  - reflexivity.
  - exact (proj1 harbour_scraped_steps).
  - exact (proj2 harbour_scraped_steps).
Defined.

(** ** Smart geocoder *)

Lemma append_new_NoDup b x q : NoDup q → NoDup (append_new b x q).
Proof.
  intros Hq. unfold append_new. destruct b; simpl; [|done]. case_bool_decide; [|done].
  apply NoDup_app. split_and!; [done| |apply NoDup_singleton].
  by intros y Hy ->%list_elem_of_singleton.
Qed.

Lemma append_new_length b x q : (length (append_new b x q) ≤ S (length q))%nat.
Proof.
  unfold append_new. destruct (b && _); [|lia]. rewrite length_app. simpl. lia.
Qed.

Lemma elem_of_append_new b x q y :
  y ∈ append_new b x q ↔ y ∈ q ∨ (b = true ∧ y = x).
Proof.
  unfold append_new. destruct b; simpl.
  - case_bool_decide as Hx.
    + rewrite elem_of_app, list_elem_of_singleton. split.
      * intros [?|Heq]; auto.
      * intros [?|[_ Heq]]; auto.
    + split; [auto|]. intros [?|[_ Heq]]; [done|]. by subst y.
  - split; [auto|]. by intros [?|[? _]].
Qed.

Lemma append_new_head b x q y : head q = Some y → head (append_new b x q) = Some y.
Proof.
  unfold append_new. destruct (b && _); [|done]. by destruct q.
Qed.

Section BuildQueriesFacts.
Context `{Unicode}.

(** The loop that collects the words of the full query. *)
Lemma all_words_fold (country : pystr) (ws : list pystr) :
  let r := foldl (λ '(all_words, seen) w,
                    let w_lower := str_lower w in
                    if bool_decide (w_lower ∉ seen) &&
                       negb (bool_decide (w_lower = str_lower country))
                    then (all_words ++ [w], ({[ w_lower ]} ∪ seen : gset pystr))
                    else (all_words, seen))
                 ([], ∅) ws in
  r.2 = list_to_set (str_lower <$> r.1) ∧
  r.1 `sublist_of` ws ∧
  NoDup (str_lower <$> r.1) ∧
  (str_lower country ∉ str_lower <$> r.1) ∧
  ∀ w, w ∈ ws → str_lower w = str_lower country ∨ str_lower w ∈ str_lower <$> r.1.
Proof.
  induction ws as [|w' ws IH] using rev_ind; simpl.
  - split_and!; [done|done|constructor|by intros ?%elem_of_nil|].
    by intros w ?%elem_of_nil.
  - rewrite foldl_snoc. simpl in IH.
    destruct (foldl _ _ ws) as [all_words seen]. simpl in *.
    destruct IH as (Hseen & Hsub & Hnd & Hc & Hcov).
    destruct (bool_decide (str_lower w' ∉ seen) &&
              negb (bool_decide (str_lower w' = str_lower country))) eqn:Hcond; simpl.
    + apply andb_true_iff in Hcond as [Hnew Hnc].
      apply bool_decide_eq_true in Hnew. apply negb_true_iff in Hnc.
      apply bool_decide_eq_false in Hnc.
      rewrite fmap_app. simpl. split_and!.
      * rewrite list_to_set_app_L, Hseen. simpl.
        rewrite (union_empty_r_L (C:=gset pystr)). apply (comm_L (∪)).
      * by apply sublist_app.
      * apply NoDup_app. split_and!; [done| |apply NoDup_singleton].
        intros x Hx ->%list_elem_of_singleton. apply Hnew. rewrite Hseen.
        by apply elem_of_list_to_set.
      * rewrite elem_of_app, list_elem_of_singleton. intros [?|?]; [done|].
        by apply Hnc.
      * intros w [Hw| ->%list_elem_of_singleton]%elem_of_app.
        -- destruct (Hcov w Hw) as [?|?]; [by left|]. right.
           apply elem_of_app. by left.
        -- right. apply elem_of_app. right. by apply list_elem_of_singleton.
    + split_and!; [done| |done|done|].
      * by apply sublist_inserts_r.
      * intros w [Hw| ->%list_elem_of_singleton]%elem_of_app; [by apply Hcov|].
        apply andb_false_iff in Hcond as [Hc1|Hc1].
        -- apply bool_decide_eq_false in Hc1. apply dec_stable in Hc1.
           right. rewrite Hseen in Hc1. by apply elem_of_list_to_set in Hc1.
        -- apply negb_false_iff, bool_decide_eq_true in Hc1. by left.
Qed.

Lemma split_nil_if (s : pystr) : (if is_empty_str s then [] else split s) = split s.
Proof. by destruct s. Qed.

Lemma build_queries_unfold title_loc subtitle_loc country :
  ∃ all_words : list pystr,
    (all_words `sublist_of` location_words title_loc subtitle_loc ∧
     NoDup (str_lower <$> all_words) ∧
     (str_lower country ∉ str_lower <$> all_words) ∧
     ∀ w, w ∈ location_words title_loc subtitle_loc →
          str_lower w = str_lower country ∨ str_lower w ∈ str_lower <$> all_words) ∧
    build_queries title_loc subtitle_loc country =
      append_new (negb (is_empty_str subtitle_loc)) (subtitle_loc ++ py " " ++ country)
        (append_new (negb (is_empty_str title_loc)) title_loc
           (append_new (negb (is_empty_str title_loc)) (title_loc ++ py " " ++ country)
              (if negb (bool_decide (all_words = []))
               then [join (py " ") all_words ++ py " " ++ country] else []))).
Proof.
  unfold build_queries. cbv zeta. rewrite !split_nil_if.
  pose proof (all_words_fold country (split title_loc ++ split subtitle_loc)) as Hfold.
  simpl in Hfold.
  destruct (foldl _ _ _) as [all_words seen]. exists all_words.
  destruct Hfold as (_ & Hsub & Hnd & Hc & Hcov). split; [done|].
  unfold append_new. simpl.
  destruct (negb (is_empty_str title_loc)), (negb (is_empty_str subtitle_loc));
    simpl; reflexivity.
Qed.

(** X20.  The cascade of [build_queries] has no repeated query and at
    most four queries, and is empty exactly when both locations are
    empty.  Every query is the title location itself or ends with a space
    and the country.  A non-empty title location is tried with and
    without the country, a non-empty subtitle location with it. *)
Theorem build_queries_spec title_loc subtitle_loc country :
  NoDup (build_queries title_loc subtitle_loc country) ∧
  (length (build_queries title_loc subtitle_loc country) ≤ 4)%nat ∧
  (build_queries title_loc subtitle_loc country = [] ↔
   title_loc = [] ∧ subtitle_loc = []) ∧
  (∀ q, q ∈ build_queries title_loc subtitle_loc country →
        q = title_loc ∨ ends_with_country country q) ∧
  (title_loc ≠ [] →
   title_loc ++ py " " ++ country ∈ build_queries title_loc subtitle_loc country ∧
   title_loc ∈ build_queries title_loc subtitle_loc country) ∧
  (subtitle_loc ≠ [] →
   subtitle_loc ++ py " " ++ country ∈ build_queries title_loc subtitle_loc country).
Proof.
  destruct (build_queries_unfold title_loc subtitle_loc country)
    as (all_words & (Hsub & _) & ->).
  set (q0 := if negb (bool_decide (all_words = []))
             then [join (py " ") all_words ++ py " " ++ country] else []).
  assert (NoDup q0 ∧ (length q0 ≤ 1)%nat ∧
          ∀ q, q ∈ q0 → ends_with_country country q) as (Hnd0 & Hl0 & He0).
  { unfold q0. destruct (negb _); simpl.
    - split_and!; [apply NoDup_singleton|lia|].
      intros q ->%list_elem_of_singleton. by eexists.
    - split_and!; [constructor|lia|]. by intros q ?%elem_of_nil. }
  assert (title_loc = [] → subtitle_loc = [] → q0 = []) as Hq0.
  { intros -> ->. unfold location_words in Hsub. simpl in Hsub.
    apply sublist_nil_r in Hsub. unfold q0. by rewrite Hsub. }
  clearbody q0. split_and!.
  - by do 3 apply append_new_NoDup.
  - do 3 (eapply Nat.le_trans; [apply append_new_length|]; apply le_n_S).
    exact Hl0.
  - split.
    + intros Hnil. split.
      * destruct title_loc as [|a t]; [done|]. exfalso.
        assert ((a :: t) ∈ ([] : list pystr)) as Hin; [|by apply elem_of_nil in Hin].
        rewrite <- Hnil. rewrite !elem_of_append_new. auto.
      * destruct subtitle_loc as [|a t]; [done|]. exfalso.
        assert ((a :: t) ++ py " " ++ country ∈ ([] : list pystr)) as Hin;
          [|by apply elem_of_nil in Hin].
        rewrite <- Hnil. rewrite !elem_of_append_new. auto.
    + intros [-> ->]. by rewrite Hq0.
  - intros q. rewrite !elem_of_append_new.
    intros [[[?|[_ ->]]|[_ ->]]|[_ ->]]; [auto|right; by eexists|auto|right; by eexists].
  - intros Hne. rewrite !elem_of_append_new.
    assert (negb (is_empty_str title_loc) = true) as -> by by destruct title_loc.
    auto 6.
  - intros Hne. rewrite !elem_of_append_new.
    assert (negb (is_empty_str subtitle_loc) = true) as -> by by destruct subtitle_loc.
    auto.
Qed.

(** X21.  The words of the full query of [build_queries] are words of
    the two locations in their order; no two of them are equal up to
    case, none equals the country up to case, and every word of the
    locations is the country or one of them, up to case.  When there is
    such a word the full query is tried first; otherwise the cascade
    holds the location queries only. *)
Theorem build_queries_full_query title_loc subtitle_loc country :
  ∃ all_words : list pystr,
    all_words `sublist_of` location_words title_loc subtitle_loc ∧
    NoDup (str_lower <$> all_words) ∧
    (str_lower country ∉ str_lower <$> all_words) ∧
    (∀ w, w ∈ location_words title_loc subtitle_loc →
          str_lower w = str_lower country ∨ str_lower w ∈ str_lower <$> all_words) ∧
    (all_words ≠ [] →
     head (build_queries title_loc subtitle_loc country)
     = Some (join (py " ") all_words ++ py " " ++ country)) ∧
    (all_words = [] →
     ∀ q, q ∈ build_queries title_loc subtitle_loc country →
          q = title_loc ++ py " " ++ country ∨ q = title_loc ∨
          q = subtitle_loc ++ py " " ++ country).
Proof.
  destruct (build_queries_unfold title_loc subtitle_loc country)
    as (all_words & (Hsub & Hnd & Hc & Hcov) & ->).
  exists all_words. split_and!; [done..| |].
  - intros Hne. do 3 apply append_new_head.
    by rewrite bool_decide_false.
  - intros ->. intros q. rewrite !elem_of_append_new. simpl.
    intros [[[Hn|[_ ?]]|[_ ?]]|[_ ?]]; [by apply elem_of_nil in Hn|auto..].
Qed.

End BuildQueriesFacts.

(** *** The query loop and the record loop *)

Section SmartFacts.
Context `{Unicode}.
Variable api : pystr → api_reply.
Variable extract_title_location : pystr → pystr.
Variable extract_subtitle_locations : pystr → pystr.

(** X22.  The query loop of [smart_geocoder.main] returns the result of
    the first query of the cascade that resolves, and nothing when none
    resolves. *)
Theorem try_queries_first queries :
  match try_queries api queries with
  | Some result =>
      ∃ before q after,
        queries = before ++ q :: after ∧
        Forall (λ q', geocode_query_smart (api q') = None) before ∧
        geocode_query_smart (api q) = Some result
  | None => Forall (λ q, geocode_query_smart (api q) = None) queries
  end.
Proof.
  induction queries as [|q queries IH]; simpl; [constructor|].
  destruct (geocode_query_smart (api q)) as [result|] eqn:Hq.
  - exists [], q, queries. by split_and!.
  - destruct (try_queries api queries) as [result|].
    + destruct IH as (before & q' & after & -> & Hbefore & Hq').
      exists (q :: before), q', after. split_and!; [done| |done].
      by constructor.
    + by constructor.
Qed.

Lemma query_cascade_is_Some country (rec : record) :
  is_Some (query_cascade extract_title_location extract_subtitle_locations country rec)
  ↔ smart_readable rec.
Proof.
  unfold query_cascade, smart_readable.
  destruct (as_str (default (JStr []) (rec !! "title"))) as [title|]; simpl.
  - destruct (truthy (default (JStr []) (rec !! "subtitle"))); simpl.
    + destruct (as_str (default (JStr []) (rec !! "subtitle"))) as [subtitle|]; simpl.
      * split; [intros _; split; by eauto|by eauto].
      * split; [by intros []|]. intros [_ Hs]. by destruct (Hs eq_refl).
    + split; [intros _; split; [by eauto|done]|by eauto].
  - split; [by intros []|]. by intros [[] _].
Qed.

(** The body of the record loop: the record is left as it is, or it gets
    the coordinates of a resolved query, and the verified mark for a
    point. *)
Lemma smart_step_cases country (rec out : record) :
  smart_step api extract_title_location extract_subtitle_locations country rec
  = Some out →
  out = rec ∨
  (has_coordinates rec = false ∧
   ∃ queries result,
     query_cascade extract_title_location extract_subtitle_locations country rec
     = Some queries ∧
     try_queries api queries = Some result ∧
     out = (if is_area result then id else <["verified" := JBool true]>)
             (<["longitude" := JFloat (lng result)]>
                (<["latitude" := JFloat (lat result)]> rec))).
Proof.
  unfold smart_step, has_coordinates.
  destruct (not_none (rec !! "latitude") && not_none (rec !! "longitude")) eqn:Hc;
    [left; by simplify_eq|].
  destruct (query_cascade _ _ country rec) as [queries|] eqn:Hqs; simpl; [|done].
  destruct queries as [|q qs]; [left; by simplify_eq|].
  destruct (try_queries api (q :: qs)) as [result|] eqn:Htry; [|left; by simplify_eq].
  intros Hout. right. split; [done|]. exists (q :: qs), result. split_and!; [done..|].
  destruct (is_area result); by simplify_eq.
Qed.

Lemma smart_step_is_Some country (rec : record) :
  is_Some (smart_step api extract_title_location extract_subtitle_locations country rec)
  ↔ (has_coordinates rec = false → smart_readable rec).
Proof.
  rewrite <- (query_cascade_is_Some country). unfold smart_step, has_coordinates.
  destruct (not_none (rec !! "latitude") && not_none (rec !! "longitude"));
    [split; [done|by eauto]|].
  destruct (query_cascade _ _ country rec) as [queries|]; simpl.
  - split; [by eauto|]. intros _. destruct queries as [|q qs]; [by eauto|].
    destruct (try_queries api (q :: qs)) as [result|]; [|by eauto].
    destruct (is_area result); by eauto.
  - split; [by intros []|]. intros Hs. by destruct (Hs eq_refl).
Qed.

(** *** The pass over a country, record by record *)

Lemma smart_loop_died (country : pystr) (idxs : list nat) :
  foldl (λ (acc : option (list record)) idx,
           records ← acc;
           rec ← records !! idx;
           rec ← smart_step api extract_title_location extract_subtitle_locations
                   country rec;
           Some (<[idx := rec]> records))
    None idxs = None.
Proof. by induction idxs. Qed.

Lemma smart_loop_from country (all done rest acc : list record) :
  all = done ++ rest → length acc = length done →
  foldl (λ (acc : option (list record)) idx,
           records ← acc;
           rec ← records !! idx;
           rec ← smart_step api extract_title_location extract_subtitle_locations
                   country rec;
           Some (<[idx := rec]> records))
    (Some (acc ++ rest))
    (filter (λ i, is_unverified (all !!! i) = true) (seq (length done) (length rest)))
  = (rest' ← mapM (smart_visit api extract_title_location extract_subtitle_locations
                     country) rest;
     Some (acc ++ rest')).
Proof.
  set (visit := smart_visit api extract_title_location extract_subtitle_locations
                  country).
  revert done acc. induction rest as [|r rest IH]; intros done acc Hall Hlen.
  { simpl. by rewrite app_nil_r. }
  assert (all !!! length done = r) as Hr.
  { rewrite Hall. by rewrite list_lookup_total_middle. }
  assert (all = (done ++ [r]) ++ rest) as Hall' by by rewrite <- app_assoc.
  assert (length (done ++ [r]) = S (length done)) as Hdone
    by (rewrite length_app; simpl; lia).
  cbn [length seq]. rewrite filter_cons, Hr.
  cbn [mapM mbind option_bind].
  destruct (decide (is_unverified r = true)) as [Hu|Hu].
  - assert (visit r = smart_step api extract_title_location
                        extract_subtitle_locations country r) as ->
      by (unfold visit, smart_visit; by rewrite Hu).
    cbn [foldl]. simpl.
    rewrite <- Hlen, list_lookup_middle by done. simpl.
    destruct (smart_step api _ _ country r) as [r'|]; simpl;
      [|apply smart_loop_died].
    rewrite insert_app_r_alt by lia. rewrite Nat.sub_diag. simpl.
    rewrite Hlen, <- Hdone.
    rewrite (cons_middle r' acc rest), app_assoc.
    rewrite (IH (done ++ [r]) (acc ++ [r'])) by (rewrite ?length_app; simpl; auto).
    destruct (mapM visit rest); simpl; [|done].
    by rewrite <- app_assoc.
  - apply not_true_is_false in Hu.
    assert (visit r = Some r) as -> by (unfold visit, smart_visit; by rewrite Hu).
    simpl. rewrite <- Hdone.
    rewrite (cons_middle r acc rest), app_assoc.
    rewrite (IH (done ++ [r]) (acc ++ [r])) by (rewrite ?length_app; simpl; auto).
    destruct (mapM visit rest); simpl; [|done].
    by rewrite <- app_assoc.
Qed.

(** The loop over the indices of the unverified records does to every
    record what [smart_visit] does, and dies when a visit dies. *)
Lemma smart_country_visits country (records : list record) :
  smart_country api extract_title_location extract_subtitle_locations country records
  = mapM (smart_visit api extract_title_location extract_subtitle_locations country)
      records.
Proof.
  unfold smart_country.
  pose proof (smart_loop_from country records [] records [] eq_refl eq_refl) as Hloop.
  cbn [app length] in Hloop. rewrite Hloop.
  by destruct (mapM _ records).
Qed.

Lemma smart_visit_cases country (rec out : record) :
  smart_visit api extract_title_location extract_subtitle_locations country rec
  = Some out →
  out = rec ∨
  (is_unverified rec = true ∧ has_coordinates rec = false ∧
   ∃ result,
     out = (if is_area result then id else <["verified" := JBool true]>)
             (<["longitude" := JFloat (lng result)]>
                (<["latitude" := JFloat (lat result)]> rec))).
Proof.
  unfold smart_visit. destruct (is_unverified rec) eqn:Hu; [|left; by simplify_eq].
  intros [->|(Hc & queries & result & _ & _ & ->)]%smart_step_cases; [by left|].
  right. split_and!; [done..|]. by exists result.
Qed.

(** X23.  The pass of [smart_geocoder.main] over a country completes
    exactly when every unverified record that lacks a coordinate has a
    title that is a string and a subtitle that is a string or not truthy.
    It then keeps the number and order of the records, and writes no
    field other than latitude, longitude and verified.  A record that is
    verified, or has both coordinates, is left as it is; a record that is
    changed has both coordinates afterwards. *)
Theorem smart_country_frame country (records : list record) :
  (is_Some (smart_country api extract_title_location extract_subtitle_locations
              country records) ↔
   Forall (λ rec : record,
             is_unverified rec = true → has_coordinates rec = false →
             smart_readable rec) records) ∧
  ∀ out,
    smart_country api extract_title_location extract_subtitle_locations
      country records = Some out →
    Forall2 (λ rec rec' : record,
               (∀ key : string,
                  key ≠ "latitude"%string → key ≠ "longitude"%string →
                  key ≠ "verified"%string → rec' !! key = rec !! key) ∧
               (is_unverified rec = false → rec' = rec) ∧
               (has_coordinates rec = true → rec' = rec) ∧
               (rec' ≠ rec → has_coordinates rec' = true))
      records out.
Proof.
  rewrite smart_country_visits. split.
  - rewrite mapM_is_Some. apply Forall_iff. intros rec. simpl.
    unfold smart_visit. destruct (is_unverified rec).
    + rewrite smart_step_is_Some. split; [by eauto|]. intros Hr. by apply Hr.
    + split; [done|by eauto].
  - intros out Hout. apply mapM_Some_1 in Hout.
    eapply Forall2_impl; [exact Hout|]. intros rec rec' Hvisit. simpl in Hvisit.
    apply smart_visit_cases in Hvisit as [->|(Hu & Hc & result & ->)];
      [by split_and!|].
    split_and!.
    + intros key H1 H2 H3. destruct (is_area result); simpl;
        by rewrite ?lookup_insert_ne by done.
    + congruence.
    + congruence.
    + intros _. unfold has_coordinates.
      destruct (is_area result); simpl; by simplify_map_eq.
Qed.

(** X24.  A second pass of [smart_geocoder.main] over a country, with
    the same answers of the lookup service, completes and changes
    nothing. *)
Theorem smart_country_idempotent country (records out : list record) :
  smart_country api extract_title_location extract_subtitle_locations
    country records = Some out →
  smart_country api extract_title_location extract_subtitle_locations
    country out = Some out.
Proof.
  rewrite !smart_country_visits. intros Hout. apply mapM_Some_1 in Hout.
  apply mapM_Some_2. apply Forall_Forall2_diag.
  induction Hout as [|rec rec' records out Hvisit _ IH]; constructor; [|done].
  destruct (smart_visit_cases _ _ _ Hvisit) as [->|(Hu & Hc & result & Hrec')];
    [done|].
  assert (has_coordinates rec' = true) as Hc'.
  { rewrite Hrec'. unfold has_coordinates.
    destruct (is_area result); simpl; by simplify_map_eq. }
  unfold smart_visit, smart_step. unfold has_coordinates in Hc'. rewrite Hc'.
  by destruct (is_unverified rec').
Qed.

End SmartFacts.

Lemma build_queries_spec_witness :
  py "Oslo Opera" ++ py " " ++ py "Norway"
    ∈ build_queries (H:=basic_latin) (py "Oslo Opera") [] (py "Norway") ∧
  py "Oslo Opera" ∈ build_queries (H:=basic_latin) (py "Oslo Opera") [] (py "Norway").
Proof.
  apply (proj1 (proj2 (proj2 (proj2 (proj2
           (build_queries_spec (H:=basic_latin) (py "Oslo Opera") [] (py "Norway"))))))).
  discriminate.
Defined.

Lemma rio_pass :
  smart_country (H:=basic_latin) (λ _, area_reply) rio_title_location
    rio_subtitle_locations (py "Brazil") [rio_record; rio_verified]
  = Some [rio_located; rio_verified].
Proof. vm_compute. reflexivity. Qed.

Lemma smart_country_frame_witness :
  Forall2 (λ rec rec' : record,
             (∀ key : string,
                key ≠ "latitude"%string → key ≠ "longitude"%string →
                key ≠ "verified"%string → rec' !! key = rec !! key) ∧
             (is_unverified rec = false → rec' = rec) ∧
             (has_coordinates rec = true → rec' = rec) ∧
             (rec' ≠ rec → has_coordinates rec' = true))
    [rio_record; rio_verified] [rio_located; rio_verified].
Proof.
  exact (proj2 (smart_country_frame (H:=basic_latin) (λ _, area_reply)
                  rio_title_location rio_subtitle_locations (py "Brazil")
                  [rio_record; rio_verified])
           [rio_located; rio_verified] rio_pass).
Defined.

Lemma smart_country_idempotent_witness :
  smart_country (H:=basic_latin) (λ _, area_reply) rio_title_location
    rio_subtitle_locations (py "Brazil") [rio_located; rio_verified]
  = Some [rio_located; rio_verified].
Proof.
  exact (smart_country_idempotent (H:=basic_latin) (λ _, area_reply)
           rio_title_location rio_subtitle_locations (py "Brazil")
           [rio_record; rio_verified] [rio_located; rio_verified] rio_pass).
Defined.

(** ** URL paths and display names *)

Lemma split_on_nonempty sep s : split_on sep s ≠ [].
Proof.
  destruct s as [|c s]; [done|]. simpl.
  destruct (c =? sep)%N; [done|]. by destruct (split_on sep s).
Qed.

Lemma split_on_word sep w rest :
  sep ∉ w →
  split_on sep (w ++ sep :: rest) = w :: split_on sep rest.
Proof.
  induction w as [|c w IH]; intros Hw; simpl.
  - by rewrite N.eqb_refl.
  - apply not_elem_of_cons in Hw as [Hc Hw].
    destruct (N.eqb_spec c sep); [congruence|]. by rewrite IH.
Qed.

Lemma split_on_last sep w : sep ∉ w → split_on sep w = [w].
Proof.
  induction w as [|c w IH]; intros Hw; simpl; [done|].
  apply not_elem_of_cons in Hw as [Hc Hw].
  destruct (N.eqb_spec c sep); [congruence|]. by rewrite IH.
Qed.

Lemma split_on_join sep (parts : list pystr) :
  parts ≠ [] → Forall (λ p, sep ∉ p) parts →
  split_on sep (join [sep] parts) = parts.
Proof.
  intros Hne Hall. induction Hall as [|w ws Hw Hws IH]; [done|].
  destruct ws as [|w2 ws].
  - simpl. by apply split_on_last.
  - change (join [sep] (w :: w2 :: ws)) with (w ++ sep :: join [sep] (w2 :: ws)).
    rewrite split_on_word by done. by rewrite IH.
Qed.

Lemma lstrip_chars_id chars s :
  (∀ c, head s = Some c → c ∉ chars) → lstrip_chars chars s = s.
Proof.
  destruct s as [|c s]; [done|]. intros Hc. simpl.
  by rewrite bool_decide_false by by apply Hc.
Qed.

Lemma join_head sep (parts : list pystr) c :
  head parts ≠ Some [] → Forall (λ p, sep ∉ p) parts →
  head (join [sep] parts) = Some c → c ≠ sep.
Proof.
  destruct parts as [|[|x w] ws]; simpl; [done|done|].
  intros _ Hall. apply Forall_cons in Hall as [Hw _].
  apply not_elem_of_cons in Hw as [Hx _].
  destruct ws; simpl; intros [= <-]; done.
Qed.

Lemma last_join sep (parts : list pystr) (w : pystr) :
  last parts = Some w → w ≠ [] → last (join [sep] parts) = last w.
Proof.
  revert w. induction parts as [|p ps IH]; intros w; [done|].
  destruct ps as [|p2 ps].
  - simpl. by intros [= ->].
  - intros Hl Hw. rewrite last_cons_cons in Hl.
    change (join [sep] (p :: p2 :: ps)) with (p ++ sep :: join [sep] (p2 :: ps)).
    rewrite last_app_cons, last_cons, (IH w Hl Hw).
    destruct (last w) eqn:Hlw; [done|].
    exfalso. apply Hw. destruct (last_is_Some w) as [_ Hs].
    destruct (decide (w = [])) as [?|Hn]; [done|].
    destruct (Hs Hn) as [? ?]. congruence.
Qed.

Lemma join_last sep (parts : list pystr) c :
  last parts ≠ Some [] → parts ≠ [] → Forall (λ p, sep ∉ p) parts →
  last (join [sep] parts) = Some c → c ≠ sep.
Proof.
  intros Hlast Hne Hall Hc.
  destruct (last parts) as [w|] eqn:Hw.
  - rewrite (last_join _ _ w) in Hc; [|done|congruence].
    apply last_Some_elem_of in Hc. apply last_Some_elem_of in Hw.
    eapply Forall_forall in Hall; [|exact Hw]. intros ->. done.
  - destruct (last_is_Some parts) as [_ Hs]. destruct (Hs Hne) as [? ?]. congruence.
Qed.

Lemma url_parts_path_of (parts : list pystr) :
  path_components parts → url_parts (path_of parts) = parts.
Proof.
  intros (Hall & Hhead & Hlast & Hne). unfold url_parts, path_of, strip_chars.
  change (py "/") with [47%N]. cbn [app lstrip_chars].
  rewrite bool_decide_true by left.
  rewrite (lstrip_chars_id _ (join [47%N] parts)).
  - rewrite lstrip_chars_id.
    + rewrite reverse_involutive. by apply split_on_join.
    + intros c Hc. rewrite head_reverse in Hc.
      intros ->%list_elem_of_singleton. by eapply (join_last 47%N parts).
  - intros c Hc ->%list_elem_of_singleton. by eapply join_head.
Qed.

Section WctFacts.
Context `{Unicode}.

Lemma slug_to_country_unknown : slug_to_country (py "unknown") = py "Unknown".
Proof.
  unfold slug_to_country.
  assert (COUNTRY_SLUG_MAP !! py "unknown" = None) as -> by (vm_compute; reflexivity).
  rewrite replace_hyphen_space, str_title_ascii by reflexivity.
  vm_compute. reflexivity.
Qed.

(** X25.  A URL path of slash-free components splits back into them.
    A feature whose path has fewer than three components is filed under
    "Unknown" with no subregion.  Otherwise the country is the canonical
    name of the second component (the feature is skipped when that is
    "component") and the subregion is the third component, hyphens
    replaced by spaces, in title case. *)
Theorem wct_path_fields :
  (∀ parts, path_components parts → url_parts (path_of parts) = parts) ∧
  (∀ url_path,
     (length (url_parts url_path) < 3)%nat →
     feature_country url_path = Some (py "Unknown") ∧
     extract_subregion url_path = None) ∧
  (∀ url_path lang country_slug region_slug rest,
     url_parts url_path = lang :: country_slug :: region_slug :: rest →
     feature_country url_path =
       (if bool_decide (country_slug = py "component") then None
        else Some (slug_to_country country_slug)) ∧
     extract_subregion url_path =
       Some (str_title (replace (py "-") (py " ") region_slug))).
Proof.
  split_and!.
  - apply url_parts_path_of.
  - intros url_path Hlen. unfold feature_country, extract_subregion. cbv zeta.
    apply Nat.leb_gt in Hlen. rewrite Hlen.
    rewrite bool_decide_false by (vm_compute; discriminate).
    by rewrite slug_to_country_unknown.
  - intros url_path lang country_slug region_slug rest Hparts.
    unfold feature_country, extract_subregion. rewrite Hparts. done.
Qed.

End WctFacts.

(** *** Display names *)

Lemma alias_values_not_blank k v :
  (k, v) ∈ COUNTRY_ALIAS_TABLE → is_empty_str (strip v) = false.
Proof.
  intros Hkv.
  assert (Forall (λ kv : pystr * pystr, is_empty_str (strip kv.2) = false)
            COUNTRY_ALIAS_TABLE) as Hall.
  { unfold COUNTRY_ALIAS_TABLE.
    repeat (apply List.Forall_cons; [vm_compute; reflexivity|]).
    apply List.Forall_nil. }
  eapply Forall_forall in Hall; [|exact Hkv]. exact Hall.
Qed.

(** X26.  [resolve_country] never returns a blank name: the result is
    the input itself, "Unknown", or the alias of the input. *)
Theorem resolve_country_not_blank raw_country :
  is_empty_str (strip (resolve_country raw_country)) = false ∧
  (resolve_country raw_country = raw_country ∨
   resolve_country raw_country = py "Unknown" ∨
   (raw_country, resolve_country raw_country) ∈ COUNTRY_ALIAS_TABLE).
Proof.
  unfold resolve_country.
  destruct (is_empty_str raw_country || is_empty_str (strip raw_country)) eqn:Hblank.
  - split; [vm_compute; reflexivity|auto].
  - apply orb_false_iff in Hblank as [_ Hblank].
    destruct (COUNTRY_ALIASES !! raw_country) as [v|] eqn:Hv; simpl.
    + apply elem_of_list_to_map_2 in Hv. split; [by eapply alias_values_not_blank|auto].
    + auto.
Qed.

Lemma norway_path_components : path_components norway_path.
Proof.
  unfold path_components, norway_path. split_and!; [|done..].
  repeat (apply List.Forall_cons;
          [apply (bool_decide_eq_true_1 _); vm_compute; reflexivity|]).
  apply List.Forall_nil.
Qed.

Lemma wct_path_fields_witness :
  url_parts (path_of norway_path) = norway_path.
Proof.
  exact (proj1 (wct_path_fields (H:=basic_latin)) norway_path norway_path_components).
Defined.

(** ** Subtitles and batches *)

Lemma single_spaced_collapse b s : single_spaced b (collapse_spaces b s) = true.
Proof.
  revert b. induction s as [|c s IH]; intros b; [done|]. simpl.
  destruct (is_space c) eqn:Hc.
  - destruct b; [apply IH|]. simpl. change (is_space 32) with true.
    simpl. apply IH.
  - simpl. rewrite Hc. apply IH.
Qed.

Lemma single_spaced_weaken s : single_spaced true s = true → single_spaced false s = true.
Proof.
  destruct s as [|c s]; [done|]. simpl. destruct (is_space c); [|done].
  by rewrite andb_false_r.
Qed.

Lemma single_spaced_any b s : single_spaced b s = true → single_spaced false s = true.
Proof. destruct b; [apply single_spaced_weaken|done]. Qed.

Lemma single_spaced_prefix b s t :
  single_spaced b (s ++ t) = true → single_spaced b s = true.
Proof.
  revert b. induction s as [|c s IH]; intros b; [done|]. simpl.
  destruct (is_space c).
  - intros [[-> ->]%andb_true_iff Hs]%andb_true_iff. simpl. by eapply IH.
  - apply IH.
Qed.

Lemma single_spaced_suffix b s t :
  single_spaced b (s ++ t) = true → single_spaced false t = true.
Proof.
  revert b. induction s as [|c s IH]; intros b; [apply single_spaced_any|]. simpl.
  destruct (is_space c).
  - intros [_ Hs]%andb_true_iff. by eapply IH.
  - apply IH.
Qed.

Lemma single_spaced_space b s c :
  single_spaced b s = true → c ∈ s → is_space c = true → c = 32%N.
Proof.
  revert b. induction s as [|x s IH]; intros b Hs Hin Hc; [by apply elem_of_nil in Hin|].
  simpl in Hs. apply elem_of_cons in Hin as [->|Hin].
  - rewrite Hc in Hs. apply andb_true_iff in Hs as [[Hx _]%andb_true_iff _].
    by apply N.eqb_eq in Hx.
  - destruct (is_space x).
    + apply andb_true_iff in Hs as [_ Hs]. by eapply IH.
    + by eapply IH.
Qed.

(** *** What collapsing and stripping leave *)

Lemma lstrip_suffix s : ∃ a, s = a ++ lstrip s.
Proof.
  induction s as [|c s [a IH]]; [by exists []|]. simpl.
  destruct (is_space c); [|by exists []].
  exists (c :: a). simpl. by rewrite <- IH.
Qed.

Lemma lstrip_head s c : head (lstrip s) = Some c → is_space c = false.
Proof.
  induction s as [|x s IH]; [done|]. simpl.
  destruct (is_space x) eqn:Hx; [done|]. simpl. by intros [= <-].
Qed.

Lemma lstrip_id s : (∀ c, head s = Some c → is_space c = false) → lstrip s = s.
Proof.
  destruct s as [|c s]; [done|]. intros Hc. simpl. by rewrite (Hc c).
Qed.

Lemma lstrip_chars_suffix chars s : ∃ a, s = a ++ lstrip_chars chars s.
Proof.
  induction s as [|c s [a IH]]; [by exists []|]. simpl.
  case_bool_decide; [|by exists []].
  exists (c :: a). simpl. by rewrite <- IH.
Qed.

Lemma lstrip_chars_head chars s c : head (lstrip_chars chars s) = Some c → c ∉ chars.
Proof.
  induction s as [|x s IH]; [done|]. simpl.
  case_bool_decide as Hx; [done|]. simpl. by intros [= <-].
Qed.

Lemma strip_infix s : ∃ a b, s = a ++ strip s ++ b.
Proof.
  unfold strip. destruct (lstrip_suffix s) as [a Ha].
  destruct (lstrip_suffix (reverse (lstrip s))) as [x Hx].
  exists a, (reverse x). rewrite Ha at 1. f_equal.
  rewrite <- reverse_app, <- Hx. by rewrite reverse_involutive.
Qed.

Lemma strip_chars_infix chars s : ∃ a b, s = a ++ strip_chars chars s ++ b.
Proof.
  unfold strip_chars. destruct (lstrip_chars_suffix chars s) as [a Ha].
  destruct (lstrip_chars_suffix chars (reverse (lstrip_chars chars s))) as [x Hx].
  exists a, (reverse x). rewrite Ha at 1. f_equal.
  rewrite <- reverse_app, <- Hx. by rewrite reverse_involutive.
Qed.

Lemma single_spaced_infix b a s t :
  single_spaced b (a ++ s ++ t) = true → single_spaced false s = true.
Proof.
  intros Hs. apply single_spaced_suffix in Hs. by eapply single_spaced_prefix.
Qed.

Lemma strip_chars_ends chars s c :
  head (strip_chars chars s) = Some c ∨ last (strip_chars chars s) = Some c →
  c ∉ chars.
Proof.
  unfold strip_chars. rewrite head_reverse, last_reverse.
  set (L := lstrip_chars chars s).
  intros [Hc|Hc]; [|by eapply lstrip_chars_head].
  destruct (lstrip_chars_suffix chars (reverse L)) as [x Hx].
  assert (last (reverse L) = Some c) as Hl.
  { rewrite Hx, last_app, Hc. done. }
  rewrite last_reverse in Hl. by eapply lstrip_chars_head.
Qed.

Lemma strip_id s :
  (∀ c, head s = Some c → is_space c = false) →
  (∀ c, last s = Some c → is_space c = false) →
  strip s = s.
Proof.
  intros Hh Hl. unfold strip. rewrite (lstrip_id s) by done.
  rewrite lstrip_id; [apply reverse_involutive|].
  intros c. rewrite head_reverse. apply Hl.
Qed.

(** *** The subtitle of a feature *)

Section ExtractSubtitleFacts.
Variable html_unescape : pystr → pystr.
Variable find_locationaddress : pystr → option pystr.
Variable sub_br : pystr → pystr.
Variable sub_tags : pystr → pystr.

Lemma normalised_text (t : pystr) :
  let r := strip (strip_chars (py ", ") (strip (collapse_spaces false t))) in
  trimmed r ∧ single_spaced false r = true.
Proof.
  set (u := strip (collapse_spaces false t)).
  assert (single_spaced false u = true) as Hu.
  { destruct (strip_infix (collapse_spaces false t)) as (a & b & Hab).
    apply (single_spaced_infix false a u b). unfold u. rewrite <- Hab.
    apply single_spaced_collapse. }
  set (v := strip_chars (py ", ") u).
  assert (single_spaced false v = true) as Hv.
  { destruct (strip_chars_infix (py ", ") u) as (a & b & Hab).
    apply (single_spaced_infix false a v b). unfold v. by rewrite <- Hab. }
  assert (∀ c, head v = Some c ∨ last v = Some c → text_char c = true) as Hends.
  { intros c Hc.
    assert (c ∈ v) as Hin.
    { destruct Hc as [Hc|Hc]; [by apply head_Some_elem_of|by apply last_Some_elem_of]. }
    apply strip_chars_ends in Hc. change (py ", ") with [44%N; 32%N] in Hc.
    apply not_elem_of_cons in Hc as [H44 Hc].
    apply not_elem_of_cons in Hc as [H32 _].
    unfold text_char. apply andb_true_iff. split.
    - apply negb_true_iff. destruct (is_space c) eqn:Hsp; [|done].
      by pose proof (single_spaced_space _ _ _ Hv Hin Hsp).
    - apply negb_true_iff. by apply N.eqb_neq. }
  assert (strip v = v) as ->.
  { apply strip_id; intros c Hc.
    - assert (text_char c = true) as [Hsp _]%andb_true_iff by (apply Hends; by left).
      by apply negb_true_iff.
    - assert (text_char c = true) as [Hsp _]%andb_true_iff by (apply Hends; by right).
      by apply negb_true_iff. }
  split; [|done]. split; intros c Hc; apply Hends; auto.
Qed.

(** X27.  The subtitle [extract_subtitle] returns neither begins nor ends
    with white space or a comma; its only white space is single spaces
    between other code points.  Without a locationaddress span the
    subtitle is empty. *)
Theorem extract_subtitle_normalised (description : pystr) :
  trimmed (extract_subtitle html_unescape find_locationaddress sub_br sub_tags
             description) ∧
  single_spaced false
    (extract_subtitle html_unescape find_locationaddress sub_br sub_tags description)
  = true ∧
  (find_locationaddress description = None →
   extract_subtitle html_unescape find_locationaddress sub_br sub_tags description = []).
Proof.
  unfold extract_subtitle.
  destruct (find_locationaddress description) as [addr_html|].
  - destruct (normalised_text (html_unescape (sub_tags (sub_br addr_html))))
      as [Ht Hs].
    split_and!; [done..|]. done.
  - split_and!; [|done..]. by split.
Qed.

End ExtractSubtitleFacts.

(** *** The batches of the browser pass *)

Lemma batch_take_drop {A} (l : list A) (batch_size batch_idx : nat) :
  batch l batch_size batch_idx = take batch_size (drop (batch_idx * batch_size) l).
Proof.
  unfold batch. cbv zeta.
  destruct (decide (batch_idx * batch_size + batch_size ≤ length l)%nat) as [Hle|Hgt].
  - rewrite Nat.min_l by done. f_equal. lia.
  - rewrite Nat.min_r by lia.
    rewrite (take_ge (drop _ _) batch_size) by (rewrite length_drop; lia).
    apply take_ge. rewrite length_drop. lia.
Qed.

Lemma join_batches {A} (l : list A) (batch_size n : nat) :
  mjoin ((λ batch_idx, take batch_size (drop (batch_idx * batch_size) l)) <$> seq 0 n)
  = take (n * batch_size) l.
Proof.
  induction n as [|n IH]; [done|].
  rewrite seq_S, fmap_app, join_app, IH. simpl. rewrite app_nil_r.
  rewrite take_take_drop. f_equal. lia.
Qed.

Lemma num_batches_bounds (total batch_size : nat) :
  (1 ≤ batch_size)%nat →
  (total ≤ (total + batch_size - 1) / batch_size * batch_size)%nat ∧
  ((total + batch_size - 1) / batch_size * batch_size < total + batch_size)%nat.
Proof.
  intros Hb.
  pose proof (Nat.div_mod (total + batch_size - 1) batch_size ltac:(lia)) as Hdm.
  pose proof (Nat.mod_upper_bound (total + batch_size - 1) batch_size ltac:(lia)) as Hm.
  split; nia.
Qed.

(** X28.  The batches of [fetch_wct_youtube.main], one after the other,
    are the selected records in their order: every record is in exactly
    one batch.  No batch is empty and none is larger than the batch
    size. *)
Theorem batches_partition {A} (wct_records : list A) (batch_size : nat) :
  (1 ≤ batch_size)%nat →
  mjoin (batches wct_records batch_size) = wct_records ∧
  Forall (λ b, (1 ≤ length b ≤ batch_size)%nat) (batches wct_records batch_size).
Proof.
  intros Hb. unfold batches. cbv zeta.
  destruct (num_batches_bounds (length wct_records) batch_size Hb) as [Hlo Hhi].
  set (n := ((length wct_records + batch_size - 1) / batch_size)%nat) in *.
  split.
  - erewrite (list_fmap_ext _ (λ batch_idx, take batch_size
                 (drop (batch_idx * batch_size) wct_records))).
    + rewrite join_batches. by apply take_ge.
    + intros i batch_idx _. apply batch_take_drop.
  - apply Forall_fmap, Forall_forall. intros batch_idx Hin.
    apply elem_of_seq in Hin. simpl. rewrite batch_take_drop.
    rewrite length_take, length_drop. nia.
Qed.

Lemma batches_partition_witness :
  (1 ≤ 2)%nat ∧
  mjoin (batches [py "a"; py "b"; py "c"; py "d"; py "e"] 2)
  = [py "a"; py "b"; py "c"; py "d"; py "e"] ∧
  Forall (λ b, (1 ≤ length b ≤ 2)%nat)
    (batches [py "a"; py "b"; py "c"; py "d"; py "e"] 2).
Proof.
  split; [lia|].
  apply (batches_partition [py "a"; py "b"; py "c"; py "d"; py "e"] 2). lia.
Defined.
